(** * tsp_search_dynamic.c: a multi-threaded branch-and-bound search for the
    travelling salesman problem.

    The C program is embedded function by function.  An [int] is a [Z];
    the arithmetic on weights wraps around at 32 bits ([int_add]); counters
    and indices are left unbounded, they are bounded by the lengths of the
    arrays they index.  An array is a list, and every access outside of it,
    every dereference of a null pointer and every read of a freed cell is
    undefined behaviour, which the embedding renders as [None] in the
    [option] monad.  The globals [n], [mat] and [thread_count] are written
    once by [main] before any thread exists: they are the variables of the
    section [Program].

    The threads are interleaved by a scheduler ([step], [run]): a thread
    takes one atomic step at a time.  A step is a piece of code that touches
    the shared variables under one mutex at most, so that the interleavings
    of the steps cover those of the machine instructions. *)

From Stdlib Require Import ZArith Lia.
From Stdlib Require Import String.
From stdpp Require Import base tactics numbers option list.

Local Open Scope Z_scope.

(** ** Constants and types *)

Definition INFINITY : Z := 1000000.
Definition NO_CITY : Z := -1.

Abbreviation city_t := Z (only parsing).
Abbreviation weight_t := Z (only parsing).

Record tour_t := Tour {
  cities : list city_t;
  count : Z;
  cost : weight_t
}.

Record stack_elt_t := Elt {
  tour_p : tour_t;      (* Partial tour             *)
  elt_city : city_t;    (* City under consideration *)
  elt_cost : weight_t   (* Cost of going to city    *)
}.

(** An array of pointers to stack elements; a cell holding [None] is a null,
    freed or never written pointer.  The pointer to the array itself may be
    null, too. *)
Abbreviation stack_arr := (list (option stack_elt_t)) (only parsing).
Abbreviation stack_ptr := (option (list (option stack_elt_t))) (only parsing).

(** The globals that the threads write. *)
Record globals := Globals {
  best_tour : tour_t;
  threads_in_cond_wait : Z;
  new_stack : stack_ptr;
  new_stack_size : Z;
  new_stack_top : Z
}.

(** ** Machine integers and arrays *)

Definition wrap (z : Z) : Z := (z + 2 ^ 31) mod 2 ^ 32 - 2 ^ 31.
Definition int_add (a b : Z) : Z := wrap (a + b).
Definition INT_MAX : Z := 2 ^ 31 - 1.

Definition arr_get {A} (a : list A) (i : Z) : option A :=
  if decide (0 <= i) then a !! Z.to_nat i else None.

Definition arr_set {A} (a : list A) (i : Z) (v : A) : option (list A) :=
  if decide (0 <= i < Z.of_nat (length a)) then Some (<[Z.to_nat i := v]> a) else None.

(** [p[i]] through a pointer [p] that may be null. *)
Definition ptr_get (p : stack_ptr) (i : Z) : option (option stack_elt_t) :=
  a ← p; arr_get a i.

Definition ptr_set (p : stack_ptr) (i : Z) (v : option stack_elt_t) : option stack_ptr :=
  a ← p; a' ← arr_set a i v; Some (Some a').

(** [malloc] of [k] cells: their contents are indeterminate; the pointer
    arrays start with cells that cannot be dereferenced. *)
Definition malloc_ptrs (k : Z) : stack_arr := replicate (Z.to_nat k) None.
Definition malloc_ints (k : Z) : list Z := replicate (Z.to_nat k) 0.

(** [for (i = lo; i < hi; i += step) body]: the loop stops as soon as its
    test fails; [fuel] bounds the number of iterations. *)
Fixpoint for_loop {S : Type} (fuel : nat) (i hi step : Z)
    (body : Z -> S -> option S) (s : S) : option S :=
  if decide (i < hi) then
    match fuel with
    | O => None
    | Datatypes.S fuel' => s' ← body i s; for_loop fuel' (i + step) hi step body s'
    end
  else Some s.

(** [for (i = hi; i > lo; i--) body] *)
Fixpoint for_down {S : Type} (fuel : nat) (i lo : Z)
    (body : Z -> S -> option S) (s : S) : option S :=
  if decide (i > lo) then
    match fuel with
    | O => None
    | Datatypes.S fuel' => s' ← body i s; for_down fuel' (i - 1) lo body s'
    end
  else Some s.

Section Program.

Variable n : Z.
Variable mat : list weight_t.
Variable thread_count : Z.

(** ** Tours *)

Definition Initialize_tour : option tour_t :=
  cs ← for_loop (Z.to_nat (n + 1)) 0 (n + 1) 1
         (fun i cs => arr_set cs i NO_CITY) (malloc_ints (n + 1));
  Some {| cities := cs; count := 0; cost := 0 |}.

Fixpoint Visited_loop (fuel : nat) (i : Z) (nbr : city_t) (tour : tour_t) : option bool :=
  if decide (i < count tour) then
    match fuel with
    | O => None
    | Datatypes.S fuel' =>
        c ← arr_get (cities tour) i;
        if decide (c = nbr) then Some true else Visited_loop fuel' (i + 1) nbr tour
    end
  else Some false.

Definition Visited (nbr : city_t) (tour : tour_t) : option bool :=
  Visited_loop (Z.to_nat (count tour)) 0 nbr tour.

Definition Feasible (city nbr : city_t) (tour local_best : tour_t) : option bool :=
  v ← Visited nbr tour;
  if negb v then
    w ← arr_get mat (n * city + nbr);
    if decide (int_add (cost tour) w < cost local_best) then Some true else Some false
  else Some false.

Definition Dup_tour (tour : tour_t) : option tour_t :=
  cs ← for_loop (Z.to_nat n) 0 n 1
         (fun i cs => c ← arr_get (cities tour) i; arr_set cs i c) (malloc_ints n);
  Some {| cities := cs; count := count tour; cost := cost tour |}.

(** ** The shared best tour *)

Definition Check_best_tour (city : city_t) (tour local_best : tour_t) (g : globals)
    : option (tour_t * globals) :=
  w ← arr_get mat (city * n + 0);
  if decide (int_add (cost tour) w < cost (best_tour g)) then
    cs ← for_loop (Z.to_nat (count tour)) 0 (count tour) 1
           (fun i cs => c ← arr_get (cities tour) i; arr_set cs i c)
           (cities (best_tour g));
    cs ← arr_set cs n 0;
    let best := {| cities := cs; count := n + 1; cost := int_add (cost tour) w |} in
    Some ({| cities := cities local_best; count := count local_best; cost := cost best |},
          {| best_tour := best;
             threads_in_cond_wait := threads_in_cond_wait g;
             new_stack := new_stack g;
             new_stack_size := new_stack_size g;
             new_stack_top := new_stack_top g |})
  else Some (local_best, g).

(** ** Stacks *)

Definition Empty (top : Z) : bool := bool_decide (top = 0).

(** [Pop] returns the tour, the city and the cost of the top element, and the
    stack with its new top; the popped element is freed. *)
Definition Pop (stack : stack_ptr) (top : Z)
    : option (tour_t * city_t * weight_t * stack_ptr * Z) :=
  let top := top - 1 in
  p ← ptr_get stack top;
  e ← p;
  stack ← ptr_set stack top None;
  Some (tour_p e, elt_city e, elt_cost e, stack, top).

(** [realloc] to twice the size: the old cells are kept, the new ones are
    indeterminate. *)
Definition realloc_ptrs (p : stack_ptr) (old_size : Z) : stack_ptr :=
  match p with
  | Some a => Some (take (Z.to_nat (old_size * 2)) a
                    ++ malloc_ptrs (old_size * 2 - Z.of_nat (length a)))
  | None => Some (malloc_ptrs (old_size * 2))
  end.

Definition Push (tour : tour_t) (city : city_t) (cost : weight_t)
    (stack : stack_ptr) (top size : Z) : option (stack_ptr * Z * Z) :=
  let '(stack, size) :=
    if decide (top = size) then (realloc_ptrs stack size, size * 2) else (stack, size) in
  d ← Dup_tour tour;
  stack ← ptr_set stack top (Some {| tour_p := d; elt_city := city; elt_cost := cost |});
  Some (stack, top + 1, size).

(** [Fill_stack] gives thread [my_rank] its share of the two-city partial
    tours: the locals that say which, then the loop.  [garbage i] is what the
    cost field of the element allocated for city [i] holds when [malloc]
    returns it: the function adds to it. *)
Definition partial_tour_count (my_rank : Z) : Z :=
  let quotient := Z.quot (n - 1) thread_count in
  let remainder := Z.rem (n - 1) thread_count in
  if decide (my_rank < remainder) then quotient + 1 else quotient.

Definition first_final_city (my_rank : Z) : Z :=
  let remainder := Z.rem (n - 1) thread_count in
  if decide (my_rank < remainder) then my_rank * partial_tour_count my_rank + 1
  else my_rank * partial_tour_count my_rank + remainder + 1.

Definition last_final_city (my_rank : Z) : Z :=
  first_final_city my_rank + partial_tour_count my_rank - 1.

Definition Fill_stack (garbage : Z -> weight_t) (stack : stack_ptr) (top : Z) (my_rank : Z)
    : option (stack_ptr * Z) :=
  for_loop (Z.to_nat (partial_tour_count my_rank))
    (first_final_city my_rank) (last_final_city my_rank + 1) 1
    (fun i '(stack, top) =>
       temp ← Initialize_tour;
       cs ← arr_set (cities temp) 0 0;
       let temp := {| cities := cs; count := 1; cost := cost temp |} in
       w ← arr_get mat i;
       stack ← ptr_set stack top
                 (Some {| tour_p := temp; elt_city := i; elt_cost := int_add (garbage i) w |});
       Some (stack, top + 1))
    (stack, top).

(** [Split_stack] moves every other element of the stack to a new array,
    which it leaves in the globals, and closes the gaps. *)
Definition Split_stack (stack : stack_ptr) (top : Z) (g : globals)
    : option (stack_ptr * Z * globals) :=
  let new := Some (malloc_ptrs top) in
  '(my_stack, new, new_top) ←
    for_loop (Z.to_nat top) 1 top 2
      (fun i '(my_stack, new, new_top) =>
         p ← ptr_get my_stack i;
         new ← ptr_set new new_top p;
         my_stack ← ptr_set my_stack i None;
         Some (my_stack, new, new_top + 1))
      (stack, new, 0);
  '(my_stack, i) ←
    for_loop (Z.to_nat top) 2 top 2
      (fun k '(my_stack, i) =>
         p ← ptr_get my_stack k;
         my_stack ← ptr_set my_stack i p;
         Some (my_stack, i + 1))
      (my_stack, 1);
  Some (my_stack, i,
        {| best_tour := best_tour g;
           threads_in_cond_wait := threads_in_cond_wait g;
           new_stack := new;
           new_stack_size := top;
           new_stack_top := new_top |}).



(** ** The threads *)

(** Where a thread stands in [Search]. *)
Inductive pc_t :=
  | AtStart        (* created, has not run yet *)
  | AtTerminated   (* at the test of the while loop: about to call Terminated *)
  | AtTrylock      (* in Terminated, past the first test: about to try the mutex *)
  | InCondWait     (* in Terminated: blocked in pthread_cond_wait *)
  | Woken          (* unblocked, has to take the mutex again *)
  | InBody         (* Terminated returned 0: about to Pop *)
  | Exited.        (* Terminated returned 1: the thread left its loop *)

(** The locals of [Search]. *)
Record thread_t := Thread {
  pc : pc_t;
  stack : stack_ptr;
  top : Z;
  size : Z;
  local_best : tour_t
}.

Record state := State {
  glob : globals;
  threads : list thread_t
}.

Definition is_null (p : stack_ptr) : bool :=
  match p with None => true | Some _ => false end.

Definition set_pc (p : pc_t) (thr : thread_t) : thread_t :=
  {| pc := p; stack := stack thr; top := top thr; size := size thr;
     local_best := local_best thr |}.

Definition set_waiting (w : Z) (g : globals) : globals :=
  {| best_tour := best_tour g; threads_in_cond_wait := w; new_stack := new_stack g;
     new_stack_size := new_stack_size g; new_stack_top := new_stack_top g |}.

(** [Search] from its entry to the loop. *)
Definition Search_start (garbage : Z -> weight_t) (my_rank : Z) : option thread_t :=
  '(stack, top) ← Fill_stack garbage (Some (malloc_ptrs (n * 2))) 0 my_rank;
  Some {| pc := AtTerminated; stack := stack; top := top; size := n * 2;
          local_best := {| cities := []; count := 0; cost := INFINITY |} |}.

(** One turn of the loop of [Search]; the mutex of the best tour is held
    around [Check_best_tour]. *)
Definition Search_body (thr : thread_t) (g : globals) : option (thread_t * globals) :=
  '(temp, city, cost_to_city, stack, top) ← Pop (stack thr) (top thr);
  cs ← arr_set (cities temp) (count temp) city;
  let temp := {| cities := cs; count := count temp + 1;
                 cost := int_add (cost temp) cost_to_city |} in
  if decide (count temp = n) then
    '(local_best, g) ← Check_best_tour city temp (local_best thr) g;
    Some ({| pc := AtTerminated; stack := stack; top := top; size := size thr;
             local_best := local_best |}, g)
  else
    '(stack, top, size) ←
      for_down (Z.to_nat n) (n - 1) 0
        (fun nbr '(stack, top, size) =>
           b ← Feasible city nbr temp (local_best thr);
           if b : bool then
             w ← arr_get mat (n * city + nbr);
             Push temp nbr w stack top size
           else Some (stack, top, size))
        (stack, top, size thr);
    Some ({| pc := AtTerminated; stack := stack; top := top; size := size;
             local_best := local_best thr |}, g).

(** *** Terminated, piece by piece

    [Terminated] blocks in the middle: it is cut at the places where the
    thread can be suspended. *)

(** The first test, which reads the globals without the mutex. *)
Definition Terminated_test (top : Z) (g : globals) : bool :=
  bool_decide (top >= 2) && bool_decide (threads_in_cond_wait g > 0) && is_null (new_stack g).

(** After a successful [pthread_mutex_trylock]: the test again, and the
    split.  The boolean tells whether [pthread_cond_signal] was called. *)
Definition Terminated_split (stack : stack_ptr) (top : Z) (g : globals)
    : option (stack_ptr * Z * globals * bool) :=
  if bool_decide (threads_in_cond_wait g > 0) && is_null (new_stack g) then
    '(stack, top, g) ← Split_stack stack top g;
    Some (stack, top, g, true)
  else Some (stack, top, g, false).

(** The stack is empty and the mutex is taken: either this is the last
    thread running ([true]: it broadcasts and returns 1), or it is going to
    wait. *)
Definition Terminated_idle (g : globals) : globals * bool :=
  if bool_decide (threads_in_cond_wait g = thread_count - 1) && is_null (new_stack g) then
    (set_waiting (threads_in_cond_wait g + 1) g, true)
  else (set_waiting (threads_in_cond_wait g + 1) g, false).

(** After [pthread_cond_wait] has returned, with the mutex: either the
    thread takes the new stack and returns 0, or ([None]) it returns 1. *)
Definition Terminated_awakened (g : globals) : option (stack_ptr * Z * Z * globals) :=
  if bool_decide (threads_in_cond_wait g < thread_count) || negb (is_null (new_stack g)) then
    Some (new_stack g, new_stack_top g, new_stack_size g,
          {| best_tour := best_tour g;
             threads_in_cond_wait := threads_in_cond_wait g - 1;
             new_stack := None;
             new_stack_size := new_stack_size g;
             new_stack_top := new_stack_top g |})
  else None.

(** *** The condition variable *)

Definition waiting (thr : thread_t) : bool :=
  match pc thr with InCondWait => true | _ => false end.

Definition wake (thr : thread_t) : thread_t :=
  if waiting thr then set_pc Woken thr else thr.

Definition cond_broadcast (ths : list thread_t) : list thread_t := wake <$> ths.

(** [pthread_cond_signal] unblocks one of the waiting threads, [w], when
    there is one. *)
Definition cond_signal (w : nat) (ths : list thread_t) : option (list thread_t) :=
  if existsb waiting ths then
    match ths !! w with
    | Some thr => if waiting thr then Some (<[w := wake thr]> ths) else None
    | None => None
    end
  else Some ths.

(** *** The scheduler *)

Inductive action :=
  | Step (t : nat) (w : nat)    (* thread t runs; if it signals, thread w wakes up *)
  | TrylockFails (t : nat)      (* thread t finds the mutex taken *)
  | SpuriousWakeup (t : nat).   (* pthread_cond_wait returns in t without a signal *)

Inductive outcome :=
  | Ok (s : state)
  | Undefined      (* the thread ran into undefined behaviour *)
  | Disabled.      (* the action cannot be taken in this state *)

Definition step_thread (garbage : Z -> weight_t) (t w : nat) (thr : thread_t) (s : state)
    : outcome :=
  let g := glob s in
  match pc thr with
  | AtStart =>
      match Search_start garbage (Z.of_nat t) with
      | Some thr => Ok {| glob := g; threads := <[t := thr]> (threads s) |}
      | None => Undefined
      end
  | AtTerminated =>
      if Terminated_test (top thr) g then
        Ok {| glob := g; threads := <[t := set_pc AtTrylock thr]> (threads s) |}
      else if negb (Empty (top thr)) then
        Ok {| glob := g; threads := <[t := set_pc InBody thr]> (threads s) |}
      else
        let '(g, last) := Terminated_idle g in
        if last : bool then
          Ok {| glob := g;
                threads := cond_broadcast (<[t := set_pc Exited thr]> (threads s)) |}
        else
          Ok {| glob := g; threads := <[t := set_pc InCondWait thr]> (threads s) |}
  | AtTrylock =>
      match Terminated_split (stack thr) (top thr) g with
      | Some (stack, top, g, signalled) =>
          let ths :=
            <[t := {| pc := InBody; stack := stack; top := top; size := size thr;
                      local_best := local_best thr |}]> (threads s) in
          if signalled : bool then
            match cond_signal w ths with
            | Some ths => Ok {| glob := g; threads := ths |}
            | None => Disabled
            end
          else Ok {| glob := g; threads := ths |}
      | None => Undefined
      end
  | InCondWait => Disabled
  | Woken =>
      match Terminated_awakened g with
      | Some (stack, top, size, g) =>
          Ok {| glob := g;
                threads := <[t := {| pc := InBody; stack := stack; top := top; size := size;
                                     local_best := local_best thr |}]> (threads s) |}
      | None =>
          Ok {| glob := g; threads := <[t := set_pc Exited thr]> (threads s) |}
      end
  | InBody =>
      match Search_body thr g with
      | Some (thr, g) => Ok {| glob := g; threads := <[t := thr]> (threads s) |}
      | None => Undefined
      end
  | Exited => Disabled
  end.

Definition step (garbage : Z -> weight_t) (a : action) (s : state) : outcome :=
  match a with
  | Step t w =>
      match threads s !! t with
      | Some thr => step_thread garbage t w thr s
      | None => Disabled
      end
  | TrylockFails t =>
      match threads s !! t with
      | Some thr =>
          match pc thr with
          | AtTrylock => Ok {| glob := glob s; threads := <[t := set_pc InBody thr]> (threads s) |}
          | _ => Disabled
          end
      | None => Disabled
      end
  | SpuriousWakeup t =>
      match threads s !! t with
      | Some thr =>
          match pc thr with
          | InCondWait => Ok {| glob := glob s; threads := <[t := set_pc Woken thr]> (threads s) |}
          | _ => Disabled
          end
      | None => Disabled
      end
  end.

Fixpoint run (garbage : Z -> weight_t) (sched : list action) (s : state) : outcome :=
  match sched with
  | [] => Ok s
  | a :: sched =>
      match step garbage a s with
      | Ok s' => run garbage sched s'
      | o => o
      end
  end.

(** The state in which [main] creates the threads. *)
Definition initial_state : option state :=
  best ← Initialize_tour;
  Some {| glob := {| best_tour := {| cities := cities best; count := count best;
                                     cost := INFINITY |};
                     threads_in_cond_wait := 0;
                     new_stack := None;
                     new_stack_size := 0;
                     new_stack_top := 0 |};
          threads := replicate (Z.to_nat thread_count)
                       {| pc := AtStart; stack := None; top := 0; size := 0;
                          local_best := {| cities := []; count := 0; cost := 0 |} |} |}.

End Program.

(** ** main, up to the creation of the threads *)

(** What [main] does that can be seen from outside. *)
Inductive event :=
  | Print_stderr (msg : string)
  | Exit (status : Z)
  | Pthread_create (rank : Z).

Definition newline : string := String (Ascii.ascii_of_nat 10) EmptyString.

Definition Usage (prog_name : string) : list event :=
  [Print_stderr ("usage: " ++ prog_name ++ " <thread_count> <matrix file>" ++ newline);
   Print_stderr ("thread_count must be  greater than or equal to 1" ++ newline);
   Print_stderr ("and less than number of cities" ++ newline);
   Exit 0].

Definition arg (argv : list string) (i : nat) : string := default EmptyString (argv !! i).

(** [read_file name] is what [fopen] and [Read_mat] make of the file: nothing
    when it cannot be opened, else the [n] and the [mat] read from it;
    [strtol] is the library function.  The result is the events up to the
    last [pthread_create] and, unless the program has exited, the [n], [mat]
    and [thread_count] that the threads find. *)
Definition main (argc : Z) (argv : list string)
    (read_file : string -> option (Z * list Z)) (strtol : string -> Z)
    : list event * option (Z * list Z * Z) :=
  if decide (argc <> 3) then (Usage (arg argv 0), None)
  else
    match read_file (arg argv 2) with
    | None =>
        (Print_stderr ("Can't open " ++ arg argv 1 ++ newline) :: Usage (arg argv 0), None)
    | Some (n, mat) =>
        let thread_count := wrap (strtol (arg argv 1)) in
        if decide (thread_count < 1 \/ n <= thread_count) then (Usage (arg argv 0), None)
        else (Pthread_create <$> seqZ 0 thread_count, Some (n, mat, thread_count))
    end.

(** ** Stacks as lists of elements *)

(** [stack_holds p top fs]: the array behind [p] holds the elements [fs],
    bottom first, in its cells [0 .. top-1]. *)
Definition stack_holds (p : stack_ptr) (top : Z) (fs : list stack_elt_t) : Prop :=
  exists a, p = Some a /\ top = Z.of_nat (length fs) /\
            forall i f, fs !! i = Some f -> a !! i = Some (Some f).

Fixpoint evens {A} (l : list A) : list A :=
  match l with
  | x :: _ :: l' => x :: evens l'
  | _ => l
  end.

Fixpoint odds {A} (l : list A) : list A :=
  match l with
  | _ :: y :: l' => y :: odds l'
  | _ => []
  end.

(** ** Arithmetic, arrays and loops: basic facts *)

Lemma wrap_small z : - 2 ^ 31 <= z <= INT_MAX -> wrap z = z.
Proof.
  unfold wrap, INT_MAX. intros H.
  rewrite Z.mod_small; lia.
Qed.

Lemma int_add_small a b : - 2 ^ 31 <= a + b <= INT_MAX -> int_add a b = a + b.
Proof. apply wrap_small. Qed.

Lemma arr_get_nat {A} (a : list A) (i : nat) : arr_get a (Z.of_nat i) = a !! i.
Proof.
  unfold arr_get. rewrite decide_True by lia. by rewrite Nat2Z.id.
Qed.

Lemma arr_get_Some {A} (a : list A) i x :
  arr_get a i = Some x <-> 0 <= i /\ a !! Z.to_nat i = Some x.
Proof.
  unfold arr_get. case_decide; split.
  - intros ?. split; [lia | done].
  - by intros [_ ?].
  - done.
  - intros [? _]. lia.
Qed.

Lemma arr_set_nat {A} (a : list A) (i : nat) v :
  (i < length a)%nat -> arr_set a (Z.of_nat i) v = Some (<[i := v]> a).
Proof.
  intros H. unfold arr_set. rewrite decide_True by lia. by rewrite Nat2Z.id.
Qed.

Lemma arr_set_Some {A} (a a' : list A) i v :
  arr_set a i v = Some a' <->
  0 <= i < Z.of_nat (length a) /\ a' = <[Z.to_nat i := v]> a.
Proof.
  unfold arr_set. case_decide; split.
  - intros [= <-]. done.
  - by intros [_ ->].
  - done.
  - intros [? _]. lia.
Qed.

(** A loop with a positive step runs to its end when each turn of its body is
    defined and keeps the invariant; the fuel only has to cover the
    distance. *)
Lemma for_loop_inv {S : Type} (Inv : Z -> S -> Prop) fuel i hi step
    (body : Z -> S -> option S) s :
  0 < step ->
  hi - i <= Z.of_nat fuel * step ->
  Inv i s ->
  (forall j s, i <= j < hi -> Inv j s -> exists s', body j s = Some s' /\ Inv (j + step) s') ->
  exists j s', for_loop fuel i hi step body s = Some s' /\ Inv j s' /\
               hi <= j /\ (j = i \/ j - step < hi).
Proof.
  intros Hstep. revert i s. induction fuel as [|fuel IH]; intros i s Hfuel HI Hbody; simpl.
  - rewrite decide_False by lia. exists i, s. repeat split; auto; lia.
  - case_decide as Hlt.
    + destruct (Hbody i s) as (s' & -> & HI'); [lia | done |]. simpl.
      destruct (IH (i + step) s') as (j & s'' & Hrun & HI'' & Hj & Hj'); [lia | done | |].
      { intros j s0 Hj HI0. apply Hbody; [lia | done]. }
      exists j, s''. repeat split; auto. lia.
    + exists i, s. repeat split; auto; lia.
Qed.

Lemma for_down_inv {S : Type} (Inv : Z -> S -> Prop) fuel i lo
    (body : Z -> S -> option S) s :
  i - lo <= Z.of_nat fuel ->
  lo <= i ->
  Inv i s ->
  (forall j s, lo < j <= i -> Inv j s -> exists s', body j s = Some s' /\ Inv (j - 1) s') ->
  exists s', for_down fuel i lo body s = Some s' /\ Inv lo s'.
Proof.
  revert i s. induction fuel as [|fuel IH]; intros i s Hfuel Hlo HI Hbody; simpl.
  - rewrite decide_False by lia. exists s. split; auto. by replace lo with i by lia.
  - case_decide as Hlt.
    + destruct (Hbody i s) as (s' & -> & HI'); [lia | done |]. simpl.
      apply (IH (i - 1) s'); [lia | lia | done |].
      intros j s0 Hj HI0. apply Hbody; [lia | done].
    + exists s. split; auto. by replace lo with i by lia.
Qed.


Lemma pair_induction {A} (P : list A -> Prop) :
  P [] -> (forall x, P [x]) -> (forall x y l, P l -> P (x :: y :: l)) -> forall l, P l.
Proof.
  intros H0 H1 H2 l.
  assert (P l /\ forall x, P (x :: l)) as [? _]; [|done].
  induction l as [|y l [IH1 IH2]]; split; auto.
Qed.

Lemma evens_lookup {A} (l : list A) (j : nat) : evens l !! j = l !! (2 * j)%nat.
Proof.
  revert j. induction l as [| x | x y l IH] using pair_induction; intros [|j]; try done.
  simpl. rewrite IH. by replace (j + S (j + 0))%nat with (S (2 * j)) by lia.
Qed.

Lemma odds_lookup {A} (l : list A) (j : nat) : odds l !! j = l !! (2 * j + 1)%nat.
Proof.
  revert j. induction l as [| x | x y l IH] using pair_induction; intros [|j]; try done.
  simpl. rewrite IH. by replace (j + S (j + 0))%nat with (S (2 * j)) by lia.
Qed.

Lemma evens_length {A} (l : list A) : length (evens l) = ((length l + 1) / 2)%nat.
Proof.
  induction l as [| x | x y l IH] using pair_induction; try done.
  cbn [evens length]. rewrite IH.
  assert (forall k, ((S (S k) + 1) / 2 = S ((k + 1) / 2))%nat) as ->; [|done].
  intros k. replace (S (S k) + 1)%nat with (1 * 2 + (k + 1))%nat by lia.
  by rewrite Nat.div_add_l by lia.
Qed.

Lemma odds_length {A} (l : list A) : length (odds l) = (length l / 2)%nat.
Proof.
  induction l as [| x | x y l IH] using pair_induction; try done.
  cbn [odds length]. rewrite IH.
  assert (forall k, (S (S k) / 2 = S (k / 2))%nat) as ->; [|done].
  intros k. replace (S (S k)) with (1 * 2 + k)%nat by lia.
  by rewrite Nat.div_add_l by lia.
Qed.

Lemma evens_odds_perm {A} (l : list A) : evens l ++ odds l ≡ₚ l.
Proof.
  induction l as [| x | x y l IH] using pair_induction; try done.
  simpl. f_equiv. rewrite <- Permutation_middle. by f_equiv.
Qed.

Lemma ptr_get_nat (a : stack_arr) (i : nat) : ptr_get (Some a) (Z.of_nat i) = a !! i.
Proof. unfold ptr_get. simpl. apply arr_get_nat. Qed.

Lemma ptr_set_nat (a : stack_arr) (i : nat) v :
  (i < length a)%nat -> ptr_set (Some a) (Z.of_nat i) v = Some (Some (<[i := v]> a)).
Proof. intros H. unfold ptr_set. simpl. by rewrite arr_set_nat. Qed.

Lemma stack_holds_length p top fs :
  stack_holds p top fs -> exists a, p = Some a /\ (length fs <= length a)%nat.
Proof.
  intros (a & -> & _ & H). exists a. split; [done|].
  destruct fs as [|f fs _] using rev_ind; [simpl; lia|].
  specialize (H (length fs) f). rewrite lookup_app_r, Nat.sub_diag in H by lia.
  apply lookup_lt_Some in H; [|done]. rewrite length_app. simpl. lia.
Qed.

(** The first loop of [Split_stack]: the elements at the odd positions go to
    the new array, in their order. *)
Lemma Split_stack_loop1 (a : stack_arr) (fs : list stack_elt_t) :
  (forall i f, fs !! i = Some f -> a !! i = Some (Some f)) ->
  let top := Z.of_nat (length fs) in
  2 <= top ->
  exists a1 na,
    for_loop (Z.to_nat top) 1 top 2
      (fun i '(my_stack, new, new_top) =>
         p ← ptr_get my_stack i;
         new ← ptr_set new new_top p;
         my_stack ← ptr_set my_stack i None;
         Some (my_stack, new, new_top + 1))
      (Some a, Some (malloc_ptrs top), 0)
    = Some (Some a1, Some na, top / 2) /\
    length a1 = length a /\
    length na = length fs /\
    (forall p, Nat.Even p -> a1 !! p = a !! p) /\
    (forall q f, fs !! (2 * q + 1)%nat = Some f -> na !! q = Some (Some f)).
Proof.
  intros Ha top Htop.
  assert (length fs <= length a)%nat as Hlen.
  { destruct (stack_holds_length (Some a) top fs) as (? & [= <-] & ?); [|done].
    by exists a. }
  set (Inv := fun (i : Z) (s : stack_ptr * stack_ptr * Z) =>
    exists (j : nat) a1 na,
      i = 2 * Z.of_nat j + 1 /\ s = (Some a1, Some na, Z.of_nat j) /\
      length a1 = length a /\ length na = length fs /\
      (forall p, Nat.Even p \/ (2 * j + 1 <= p)%nat -> a1 !! p = a !! p) /\
      (forall q f, (q < j)%nat -> fs !! (2 * q + 1)%nat = Some f -> na !! q = Some (Some f))).
  match goal with
  | |- exists _ _, for_loop ?fu ?i ?hi ?st ?body ?s = _ /\ _ =>
      destruct (for_loop_inv Inv fu i hi st body s) as (i' & s' & Hrun & HI & Hi1 & Hi2)
  end.
  - lia.
  - unfold top. lia.
  - exists 0%nat, a, (malloc_ptrs top). repeat split; try done.
    + unfold malloc_ptrs, top. by rewrite length_replicate, Nat2Z.id.
    + intros; lia.
  - intros i [[ms nw] nt] Hi (j & a1 & na & -> & [= -> -> ->] & Hl1 & Hl2 & H1 & H2).
    assert (2 * j + 1 < length fs)%nat as Hj by (unfold top in Hi; lia).
    destruct (lookup_lt_is_Some_2 fs (2 * j + 1)) as [f Hf]; [done|].
    replace (2 * Z.of_nat j + 1) with (Z.of_nat (2 * j + 1)) by lia.
    rewrite ptr_get_nat, H1, (Ha _ _ Hf) by lia. cbn [mbind option_bind].
    rewrite (ptr_set_nat na) by lia. cbn [mbind option_bind].
    rewrite (ptr_set_nat a1) by lia. cbn [mbind option_bind].
    eexists. split; [done|].
    exists (S j), (<[(2 * j + 1)%nat := None]> a1), (<[j := Some f]> na).
    split; [lia|]. split; [repeat f_equal; lia|].
    rewrite !length_insert. repeat split; try done.
    + intros p Hp. rewrite list_lookup_insert_ne; [apply H1|].
      * destruct Hp as [?|?]; [by left | right; lia].
      * destruct Hp as [[k ->]|?]; lia.
    + intros q g Hq Hg. destruct (decide (q = j)) as [->|].
      * rewrite list_lookup_insert_eq by lia. congruence.
      * rewrite list_lookup_insert_ne by done. apply H2; [lia|done].
  - destruct HI as (j & a1 & na & -> & -> & Hl1 & Hl2 & H1 & H2).
    exists a1, na. split; [rewrite Hrun; repeat f_equal; unfold top in *; zify; Z.to_euclidean_division_equations; lia|].
    split; [done|]. split; [done|]. split.
    + intros p Hp. apply H1. by left.
    + intros q f Hf. apply H2; [|done].
      apply lookup_lt_Some in Hf. unfold top in *. lia.
Qed.

(** The second loop: the elements at the even positions move down to
    [0 .. i-1]. *)
Lemma Split_stack_loop2 (a a1 : stack_arr) (fs : list stack_elt_t) :
  (forall i f, fs !! i = Some f -> a !! i = Some (Some f)) ->
  length a1 = length a ->
  (forall p, Nat.Even p -> a1 !! p = a !! p) ->
  let top := Z.of_nat (length fs) in
  2 <= top ->
  exists a2,
    for_loop (Z.to_nat top) 2 top 2
      (fun k '(my_stack, i) =>
         p ← ptr_get my_stack k;
         my_stack ← ptr_set my_stack i p;
         Some (my_stack, i + 1))
      (Some a1, 1)
    = Some (Some a2, (top + 1) / 2) /\
    length a2 = length a /\
    (forall p f, fs !! (2 * p)%nat = Some f -> a2 !! p = Some (Some f)).
Proof.
  intros Ha Hl1 H1 top Htop.
  assert (length fs <= length a)%nat as Hlen.
  { destruct (stack_holds_length (Some a) top fs) as (? & [= <-] & ?); [|done].
    by exists a. }
  set (Inv := fun (k : Z) (s : stack_ptr * Z) =>
    exists (m : nat) a2,
      k = 2 * Z.of_nat m /\ s = (Some a2, Z.of_nat m) /\ (1 <= m)%nat /\
      length a2 = length a /\
      (forall p, (m <= p)%nat -> a2 !! p = a1 !! p) /\
      (forall p f, (p < m)%nat -> fs !! (2 * p)%nat = Some f -> a2 !! p = Some (Some f))).
  match goal with
  | |- exists _, for_loop ?fu ?i ?hi ?st ?body ?s = _ /\ _ =>
      destruct (for_loop_inv Inv fu i hi st body s) as (i' & s' & Hrun & HI & Hi1 & Hi2)
  end.
  - lia.
  - unfold top. lia.
  - exists 1%nat, a1. repeat split; try done.
    intros p f Hp Hf. replace p with 0%nat in * by lia.
    rewrite H1 by (exists 0%nat; lia). by apply Ha.
  - intros k [ms i] Hk (m & a2 & -> & [= -> ->] & Hm & Hl2 & H2 & H3).
    assert (2 * m < length fs)%nat as Hj by (unfold top in Hk; lia).
    destruct (lookup_lt_is_Some_2 fs (2 * m)) as [f Hf]; [done|].
    replace (2 * Z.of_nat m) with (Z.of_nat (2 * m)) by lia.
    rewrite ptr_get_nat, H2, H1, (Ha _ _ Hf) by (lia || (exists m; lia)).
    cbn [mbind option_bind].
    rewrite (ptr_set_nat a2) by lia. cbn [mbind option_bind].
    eexists. split; [done|].
    exists (S m), (<[m := Some f]> a2).
    split; [lia|]. split; [repeat f_equal; lia|]. split; [lia|].
    rewrite !length_insert. repeat split; try done.
    + intros p Hp. rewrite list_lookup_insert_ne by lia. apply H2. lia.
    + intros p g Hp Hg. destruct (decide (p = m)) as [->|].
      * rewrite list_lookup_insert_eq by lia. congruence.
      * rewrite list_lookup_insert_ne by done. apply H3; [lia|done].
  - destruct HI as (m & a2 & -> & -> & Hm & Hl2 & H2 & H3).
    exists a2. split; [|split; [done|]].
    + rewrite Hrun. repeat f_equal. unfold top in *.
      zify; Z.to_euclidean_division_equations; lia.
    + intros p f Hf. apply H3; [|done].
      apply lookup_lt_Some in Hf. unfold top in *. lia.
Qed.

Lemma Split_stack_ok stack top g fs :
  stack_holds stack top fs ->
  2 <= top ->
  exists a a2 na g',
    stack = Some a /\
    Split_stack stack top g = Some (Some a2, (top + 1) / 2, g') /\
    length a2 = length a /\
    stack_holds (Some a2) ((top + 1) / 2) (evens fs) /\
    new_stack g' = Some na /\
    Z.of_nat (length na) = top /\
    stack_holds (new_stack g') (new_stack_top g') (odds fs) /\
    new_stack_top g' = top / 2 /\
    new_stack_size g' = top /\
    best_tour g' = best_tour g /\
    threads_in_cond_wait g' = threads_in_cond_wait g.
Proof.
  intros (a & -> & -> & Ha) Htop. unfold Split_stack.
  destruct (Split_stack_loop1 a fs Ha Htop) as (a1 & na & -> & Hl1 & Hlna & H1 & Hna).
  cbn [mbind option_bind].
  destruct (Split_stack_loop2 a a1 fs Ha Hl1 H1 Htop) as (a2 & -> & Hl2 & Ha2).
  cbn [mbind option_bind].
  exists a, a2, na. eexists. split; [done|]. split; [done|]. cbn.
  assert (forall k : nat, Z.of_nat k / 2 = Z.of_nat (k / 2)) as Hdiv.
  { intros k. by rewrite Nat2Z.inj_div. }
  repeat split; try done; try lia.
  - exists a2. split; [done|]. split.
    + by rewrite evens_length, <- Hdiv, Nat2Z.inj_add.
    + intros i f. rewrite evens_lookup. apply Ha2.
  - exists na. split; [done|]. split.
    + by rewrite odds_length, Hdiv.
    + intros i f. rewrite odds_lookup. apply Hna.
Qed.

(** ** Loops over arrays of cities *)

(** Filling the first [k] cells of an array with [v]. *)
Lemma fill_loop (k : nat) (v : Z) (cs : list Z) :
  (k <= length cs)%nat ->
  for_loop k 0 (Z.of_nat k) 1 (fun i cs => arr_set cs i v) cs
  = Some (replicate k v ++ drop k cs).
Proof.
  intros Hk.
  destruct (for_loop_inv
    (fun (i : Z) (cs' : list Z) => exists j : nat, i = Z.of_nat j /\ (j <= k)%nat /\
                                  cs' = replicate j v ++ drop j cs)
    k 0 (Z.of_nat k) 1 (fun i cs => arr_set cs i v) cs)
    as (i & cs' & Hrun & (j & Hi & Hj & Hcs) & Hi1 & Hi2); [lia | lia | | |].
  - exists 0%nat. rewrite drop_0. repeat split; (lia || done).
  - intros i cs' Hi (j & -> & Hj & ->).
    rewrite arr_set_nat by (rewrite length_app, length_replicate, length_drop; lia).
    eexists. split; [done|]. exists (S j). split; [lia|]. split; [lia|].
    rewrite insert_app_r_alt by (rewrite length_replicate; lia).
    rewrite length_replicate, Nat.sub_diag.
    destruct (drop j cs) as [|c cs0] eqn:E.
    { apply (f_equal length) in E. rewrite length_drop in E. simpl in E. lia. }
    rewrite replicate_S_end, <- app_assoc. f_equal. cbn. f_equal.
    replace (S j) with (j + 1)%nat by lia. by rewrite <- drop_drop, E.
  - rewrite Hrun, Hcs. by replace j with k by lia.
Qed.

(** Copying the first [k] cells of [src] into [dst]. *)
Lemma copy_loop (k : nat) (src dst : list Z) :
  (k <= length src)%nat -> (k <= length dst)%nat ->
  for_loop k 0 (Z.of_nat k) 1
    (fun i cs => c ← arr_get src i; arr_set cs i c) dst
  = Some (take k src ++ drop k dst).
Proof.
  intros Hs Hd.
  destruct (for_loop_inv
    (fun (i : Z) (cs' : list Z) => exists j : nat, i = Z.of_nat j /\ (j <= k)%nat /\
                                  cs' = take j src ++ drop j dst)
    k 0 (Z.of_nat k) 1 (fun i cs => c ← arr_get src i; arr_set cs i c) dst)
    as (i & cs' & Hrun & (j & Hi & Hj & Hcs) & Hi1 & Hi2); [lia | lia | | |].
  - exists 0%nat. rewrite drop_0. repeat split; (lia || done).
  - intros i cs' Hi (j & -> & Hj & ->).
    destruct (lookup_lt_is_Some_2 src j) as [c Hc]; [lia|].
    rewrite arr_get_nat, Hc. cbn [mbind option_bind].
    rewrite arr_set_nat by (rewrite length_app, length_take, length_drop; lia).
    eexists. split; [done|]. exists (S j). split; [lia|]. split; [lia|].
    rewrite insert_app_r_alt by (rewrite length_take; lia).
    rewrite length_take, Nat.min_l, Nat.sub_diag by lia.
    destruct (drop j dst) as [|d ds] eqn:E.
    { apply (f_equal length) in E. rewrite length_drop in E. simpl in E. lia. }
    rewrite (take_S_r _ _ _ Hc), <- app_assoc. f_equal. cbn. f_equal.
    replace (S j) with (j + 1)%nat by lia. by rewrite <- drop_drop, E.
  - rewrite Hrun, Hcs. by replace j with k by lia.
Qed.

Section ProgramFacts.

Variable n : Z.
Variable mat : list Z.
Variable thread_count : Z.

Lemma Initialize_tour_eq :
  Initialize_tour n = Some {| cities := replicate (Z.to_nat (n + 1)) NO_CITY;
                              count := 0; cost := 0 |}.
Proof.
  unfold Initialize_tour.
  destruct (decide (0 <= n + 1)) as [Hn|Hn].
  - rewrite <- (Z2Nat.id (n + 1)) at 2 by done.
    rewrite fill_loop by (unfold malloc_ints; rewrite length_replicate; lia).
    cbn [mbind option_bind]. unfold malloc_ints.
    rewrite drop_replicate, Nat.sub_diag. simpl. by rewrite app_nil_r.
  - unfold malloc_ints. replace (Z.to_nat (n + 1)) with 0%nat by lia. simpl.
    by rewrite decide_False by lia.
Qed.

Lemma Dup_tour_eq (tour : tour_t) :
  n <= Z.of_nat (length (cities tour)) ->
  Dup_tour n tour = Some {| cities := take (Z.to_nat n) (cities tour);
                            count := count tour; cost := cost tour |}.
Proof.
  intros Hlen. unfold Dup_tour.
  destruct (decide (0 <= n)) as [Hn|Hn].
  - rewrite <- (Z2Nat.id n) at 2 by done.
    rewrite copy_loop by (unfold malloc_ints; rewrite ?length_replicate; lia).
    cbn [mbind option_bind]. unfold malloc_ints.
    rewrite drop_replicate, Nat.sub_diag. simpl. by rewrite app_nil_r.
  - unfold malloc_ints. replace (Z.to_nat n) with 0%nat by lia. simpl.
    by rewrite decide_False by lia.
Qed.

(** [Visited] is a linear search through the first [count] cities. *)
Lemma Visited_loop_eq (fuel i : nat) (nbr : Z) (tour : tour_t) :
  count tour <= Z.of_nat (length (cities tour)) ->
  count tour - Z.of_nat i <= Z.of_nat fuel ->
  Visited_loop fuel (Z.of_nat i) nbr tour
  = Some (bool_decide (nbr ∈ drop i (take (Z.to_nat (count tour)) (cities tour)))).
Proof.
  intros Hlen. revert i. induction fuel as [|fuel IH]; intros i Hfuel; simpl.
  - rewrite decide_False by lia.
    rewrite drop_ge by (rewrite length_take; lia).
    by rewrite bool_decide_eq_false_2 by apply not_elem_of_nil.
  - case_decide as Hi.
    + destruct (lookup_lt_is_Some_2 (cities tour) i) as [c Hc]; [lia|].
      rewrite arr_get_nat, Hc. cbn [mbind option_bind].
      assert (take (Z.to_nat (count tour)) (cities tour) !! i = Some c) as Hc'.
      { rewrite lookup_take_lt by lia. done. }
      rewrite (drop_S _ _ _ Hc').
      case_decide as Hn.
      * subst. by rewrite bool_decide_eq_true_2 by apply list_elem_of_here.
      * replace (Z.of_nat i + 1) with (Z.of_nat (S i)) by lia.
        rewrite IH by lia. f_equal. apply bool_decide_ext.
        rewrite elem_of_cons. split; [by right | intros [?|?]; [congruence | done]].
    + rewrite drop_ge by (rewrite length_take; lia).
      by rewrite bool_decide_eq_false_2 by apply not_elem_of_nil.
Qed.

Lemma Visited_eq (nbr : Z) (tour : tour_t) :
  count tour <= Z.of_nat (length (cities tour)) ->
  Visited nbr tour
  = Some (bool_decide (nbr ∈ take (Z.to_nat (count tour)) (cities tour))).
Proof.
  intros Hlen. unfold Visited.
  rewrite (Visited_loop_eq _ 0) by lia. by rewrite drop_0.
Qed.

(** [Feasible]: the neighbour is new in the tour and going there stays below
    the local best cost. *)
Lemma Feasible_eq (city nbr : Z) (tour local_best : tour_t) (w : Z) :
  count tour <= Z.of_nat (length (cities tour)) ->
  arr_get mat (n * city + nbr) = Some w ->
  Feasible n mat city nbr tour local_best
  = Some (bool_decide ((nbr ∉ take (Z.to_nat (count tour)) (cities tour))
                       /\ int_add (cost tour) w < cost local_best)).
Proof.
  intros Hlen Hw. unfold Feasible. rewrite Visited_eq by done.
  cbn [mbind option_bind]. case_bool_decide as Hv; cbn [negb].
  - by rewrite bool_decide_eq_false_2 by tauto.
  - rewrite Hw. cbn [mbind option_bind]. case_decide.
    + by rewrite bool_decide_eq_true_2.
    + by rewrite bool_decide_eq_false_2 by tauto.
Qed.

(** A neighbour that was visited already is not feasible, whatever the
    matrix holds. *)
Lemma Feasible_visited (city nbr : Z) (tour local_best : tour_t) :
  count tour <= Z.of_nat (length (cities tour)) ->
  nbr ∈ take (Z.to_nat (count tour)) (cities tour) ->
  Feasible n mat city nbr tour local_best = Some false.
Proof.
  intros Hlen Hv. unfold Feasible. rewrite Visited_eq by done.
  cbn [mbind option_bind]. by rewrite bool_decide_eq_true_2.
Qed.

(** What [Check_best_tour] writes into the best tour when it replaces it. *)
Definition committed (tour : tour_t) (w : Z) (g : globals) : globals :=
  {| best_tour :=
       {| cities := <[Z.to_nat n := 0]>
                      (take (Z.to_nat (count tour)) (cities tour)
                       ++ drop (Z.to_nat (count tour)) (cities (best_tour g)));
          count := n + 1;
          cost := int_add (cost tour) w |};
     threads_in_cond_wait := threads_in_cond_wait g;
     new_stack := new_stack g;
     new_stack_size := new_stack_size g;
     new_stack_top := new_stack_top g |}.

Lemma Check_best_tour_eq (city : Z) (tour local_best : tour_t) (g : globals) (w : Z) :
  arr_get mat (city * n + 0) = Some w ->
  0 <= count tour <= Z.of_nat (length (cities tour)) ->
  count tour <= Z.of_nat (length (cities (best_tour g))) ->
  0 <= n < Z.of_nat (length (cities (best_tour g))) ->
  Check_best_tour n mat city tour local_best g
  = Some (if decide (int_add (cost tour) w < cost (best_tour g))
          then ({| cities := cities local_best; count := count local_best;
                   cost := int_add (cost tour) w |}, committed tour w g)
          else (local_best, g)).
Proof.
  intros Hw Hc Hb Hn. unfold Check_best_tour. rewrite Hw. cbn [mbind option_bind].
  case_decide; [|done].
  rewrite <- (Z2Nat.id (count tour)) at 2 by lia.
  rewrite copy_loop by lia. cbn [mbind option_bind].
  unfold arr_set. rewrite decide_True; [done|].
  rewrite length_app, length_take, length_drop. lia.
Qed.

End ProgramFacts.

(** ** What a step does to the best tour and to the local best tours *)

(** How a step acts on the condition variable. *)
Variant wake_mode := WakeNone | WakeAll | WakeOne (w : nat).

Definition apply_wake (m : wake_mode) (ths : list thread_t) : option (list thread_t) :=
  match m with
  | WakeNone => Some ths
  | WakeAll => Some (cond_broadcast ths)
  | WakeOne w => cond_signal w ths
  end.

Lemma is_null_true (p : option (list (option stack_elt_t))) : is_null p = true <-> p = None.
Proof. by destruct p. Qed.

Lemma is_null_false (p : option (list (option stack_elt_t))) : is_null p = false <-> p <> None.
Proof. by destruct p. Qed.

(** *** The condition variable *)

Lemma wake_cases thr :
  wake thr = thr /\ pc thr <> InCondWait \/
  wake thr = set_pc Woken thr /\ pc thr = InCondWait.
Proof. unfold wake, waiting. destruct (pc thr) eqn:E; auto. Qed.

Lemma cond_broadcast_lookup ths u thr' :
  cond_broadcast ths !! u = Some thr' ->
  exists thr, ths !! u = Some thr /\ thr' = wake thr.
Proof.
  unfold cond_broadcast. rewrite list_lookup_fmap.
  destruct (ths !! u) as [thr|]; [|done]. intros [= <-]. by exists thr.
Qed.

Lemma existsb_waiting ths :
  existsb waiting ths = true <-> exists u thr, ths !! u = Some thr /\ pc thr = InCondWait.
Proof.
  rewrite existsb_exists. split.
  - intros (thr & Hin & Hw). apply list_elem_of_In, list_elem_of_lookup in Hin as [u Hu].
    exists u, thr. split; [done|]. unfold waiting in Hw. by destruct (pc thr).
  - intros (u & thr & Hu & Hpc). exists thr. split.
    + apply list_elem_of_In. by eapply list_elem_of_lookup_2.
    + unfold waiting. by rewrite Hpc.
Qed.

(** A signal unblocks the chosen thread, which was waiting; it does nothing
    only when no thread is waiting. *)
Lemma cond_signal_cases w ths ths' :
  cond_signal w ths = Some ths' ->
  (ths' = ths /\ forall u thr, ths !! u = Some thr -> pc thr <> InCondWait) \/
  (exists thr, ths !! w = Some thr /\ pc thr = InCondWait /\
               ths' = <[w := set_pc Woken thr]> ths).
Proof.
  unfold cond_signal. destruct (existsb waiting ths) eqn:E.
  - destruct (ths !! w) as [thr|] eqn:Hw; [|done].
    destruct (waiting thr) eqn:Hwt; [|done]. intros [= <-]. right.
    exists thr. unfold wake. rewrite Hwt. unfold waiting in Hwt.
    by destruct (pc thr).
  - intros [= <-]. left. split; [done|]. intros u thr Hu Hpc.
    assert (existsb waiting ths = true) as E'; [|congruence].
    apply existsb_waiting. eauto.
Qed.

(** [others_woken ths ths']: from [ths] to [ths'] nothing happens but that
    waiting threads are unblocked. *)
Definition others_woken (ths ths' : list thread_t) : Prop :=
  length ths' = length ths /\
  forall u thr', ths' !! u = Some thr' ->
    exists thr, ths !! u = Some thr /\
                (thr' = thr \/ pc thr = InCondWait /\ thr' = set_pc Woken thr).

Lemma others_woken_refl ths : others_woken ths ths.
Proof. split; [done|]. intros u thr' Hu. exists thr'. auto. Qed.

Lemma others_woken_broadcast ths : others_woken ths (cond_broadcast ths).
Proof.
  split; [unfold cond_broadcast; by rewrite length_fmap|].
  intros u thr' (thr & Hu & ->)%cond_broadcast_lookup. exists thr. split; [done|].
  destruct (wake_cases thr) as [[-> _]|[-> ?]]; auto.
Qed.

Lemma others_woken_signal w ths ths' :
  cond_signal w ths = Some ths' -> others_woken ths ths'.
Proof.
  intros [[-> _]|(thr & Hw & Hpc & ->)]%cond_signal_cases; [apply others_woken_refl|].
  split; [by rewrite length_insert|].
  intros u thr' [(<- & <- & _)|[_ Hu]]%list_lookup_insert_Some; eauto.
Qed.

Lemma apply_wake_others m ths ths' :
  apply_wake m ths = Some ths' -> others_woken ths ths'.
Proof.
  destruct m; cbn.
  - intros [= <-]. apply others_woken_refl.
  - intros [= <-]. apply others_woken_broadcast.
  - apply others_woken_signal.
Qed.

(** A property of the single threads that unblocking keeps holds after a
    step when it holds for the running thread. *)
Lemma others_woken_forall (P : thread_t -> Prop) ths ths' t thr' :
  others_woken (<[t := thr']> ths) ths' ->
  (forall u thr, ths !! u = Some thr -> P thr) ->
  P thr' ->
  (forall thr, P thr -> pc thr = InCondWait -> P (set_pc Woken thr)) ->
  forall u thr, ths' !! u = Some thr -> P thr.
Proof.
  intros [_ Hw] Hall Ht Hwake u thr1 Hu.
  destruct (Hw u thr1 Hu) as (thr & Hthr & Hcase).
  assert (P thr) as HP.
  { apply list_lookup_insert_Some in Hthr as [(_ & <- & _)|[_ Hthr]]; eauto. }
  destruct Hcase as [->|[Hpc ->]]; auto.
Qed.

Section StepFacts.

Variable n : Z.
Variable mat : list Z.
Variable thread_count : Z.
Variable garbage : Z -> Z.

Lemma Check_best_tour_cases city tour local_best g local_best' g' :
  Check_best_tour n mat city tour local_best g = Some (local_best', g') ->
  (g' = g /\ local_best' = local_best) \/
  (cost (best_tour g') < cost (best_tour g) /\
   cost local_best' = cost (best_tour g') /\
   threads_in_cond_wait g' = threads_in_cond_wait g /\
   new_stack g' = new_stack g /\
   new_stack_size g' = new_stack_size g /\
   new_stack_top g' = new_stack_top g).
Proof.
  unfold Check_best_tour. intros H.
  destruct (arr_get mat (city * n + 0)) as [w|]; [|done]. cbn [mbind option_bind] in H.
  case_decide as Hlt.
  - destruct (for_loop _ _ _ _ _ _) as [cs|]; [|done]. cbn [mbind option_bind] in H.
    destruct (arr_set cs n 0) as [cs'|]; [|done]. cbn [mbind option_bind] in H.
    injection H as <- <-. right. by cbn.
  - injection H as <- <-. by left.
Qed.

Lemma Split_stack_globals stack top g stack' top' g' :
  Split_stack stack top g = Some (stack', top', g') ->
  best_tour g' = best_tour g /\
  threads_in_cond_wait g' = threads_in_cond_wait g /\
  new_stack_size g' = top.
Proof.
  unfold Split_stack. intros H.
  destruct (for_loop _ _ _ _ _ _) as [[[ms nw] nt]|]; [|done]. cbn [mbind option_bind] in H.
  destruct (for_loop _ _ _ _ _ _) as [[ms' i]|]; [|done]. cbn [mbind option_bind] in H.
  injection H as <- <- <-. by cbn.
Qed.

Lemma Search_body_cases thr g thr' g' :
  Search_body n mat thr g = Some (thr', g') ->
  pc thr' = AtTerminated /\
  ((g' = g /\ local_best thr' = local_best thr) \/
   (cost (best_tour g') < cost (best_tour g) /\
    cost (local_best thr') = cost (best_tour g') /\
    threads_in_cond_wait g' = threads_in_cond_wait g /\
    new_stack g' = new_stack g /\
    new_stack_size g' = new_stack_size g /\
    new_stack_top g' = new_stack_top g)).
Proof.
  unfold Search_body. intros H.
  destruct (Pop _ _) as [[[[[temp city] c] st] tp]|]; [|done]. cbn [mbind option_bind] in H.
  destruct (arr_set _ _ _) as [cs|]; [|done]. cbn [mbind option_bind] in H.
  cbn [count] in H. case_decide as Hn.
  - destruct (Check_best_tour _ _ _ _ _ _) as [[lb g1]|] eqn:Hc; [|done].
    cbn [mbind option_bind] in H. injection H as <- <-. split; [done|].
    apply Check_best_tour_cases in Hc. by cbn.
  - destruct (for_down _ _ _ _ _) as [[[st' tp'] sz']|]; [|done].
    cbn [mbind option_bind] in H. injection H as <- <-. split; [done|]. by left.
Qed.

(** The steps of a thread, one case for each branch of the code.
    [thread_step a t thr g thr' g' m]: by the action [a], thread [t] goes from
    [thr] to [thr'] and the globals from [g] to [g']. *)
Variant thread_step (a : action) (t : nat) (thr : thread_t) (g : globals)
    : thread_t -> globals -> wake_mode -> Prop :=
  | ts_start thr' :
      (exists w, a = Step t w) ->
      pc thr = AtStart ->
      Search_start n mat thread_count garbage (Z.of_nat t) = Some thr' ->
      thread_step a t thr g thr' g WakeNone
  | ts_to_trylock :
      (exists w, a = Step t w) ->
      pc thr = AtTerminated ->
      top thr >= 2 -> threads_in_cond_wait g > 0 -> new_stack g = None ->
      thread_step a t thr g (set_pc AtTrylock thr) g WakeNone
  | ts_to_body :
      (exists w, a = Step t w) ->
      pc thr = AtTerminated ->
      Terminated_test (top thr) g = false ->
      top thr <> 0 ->
      thread_step a t thr g (set_pc InBody thr) g WakeNone
  | ts_last :
      (exists w, a = Step t w) ->
      pc thr = AtTerminated ->
      top thr = 0 ->
      threads_in_cond_wait g = thread_count - 1 -> new_stack g = None ->
      thread_step a t thr g (set_pc Exited thr)
        (set_waiting (threads_in_cond_wait g + 1) g) WakeAll
  | ts_wait :
      (exists w, a = Step t w) ->
      pc thr = AtTerminated ->
      top thr = 0 ->
      ~ (threads_in_cond_wait g = thread_count - 1 /\ new_stack g = None) ->
      thread_step a t thr g (set_pc InCondWait thr)
        (set_waiting (threads_in_cond_wait g + 1) g) WakeNone
  | ts_split w stack' top' g' :
      a = Step t w ->
      pc thr = AtTrylock ->
      threads_in_cond_wait g > 0 -> new_stack g = None ->
      Split_stack (stack thr) (top thr) g = Some (stack', top', g') ->
      thread_step a t thr g (Thread InBody stack' top' (size thr) (local_best thr)) g'
        (WakeOne w)
  | ts_no_split :
      (exists w, a = Step t w) ->
      pc thr = AtTrylock ->
      ~ (threads_in_cond_wait g > 0 /\ new_stack g = None) ->
      thread_step a t thr g (set_pc InBody thr) g WakeNone
  | ts_trylock_fails :
      a = TrylockFails t ->
      pc thr = AtTrylock ->
      thread_step a t thr g (set_pc InBody thr) g WakeNone
  | ts_take :
      (exists w, a = Step t w) ->
      pc thr = Woken ->
      threads_in_cond_wait g < thread_count \/ new_stack g <> None ->
      thread_step a t thr g
        (Thread InBody (new_stack g) (new_stack_top g) (new_stack_size g) (local_best thr))
        (Globals (best_tour g) (threads_in_cond_wait g - 1) None
           (new_stack_size g) (new_stack_top g))
        WakeNone
  | ts_exit :
      (exists w, a = Step t w) ->
      pc thr = Woken ->
      ~ threads_in_cond_wait g < thread_count -> new_stack g = None ->
      thread_step a t thr g (set_pc Exited thr) g WakeNone
  | ts_body thr' g' :
      (exists w, a = Step t w) ->
      pc thr = InBody ->
      Search_body n mat thr g = Some (thr', g') ->
      thread_step a t thr g thr' g' WakeNone
  | ts_spurious :
      a = SpuriousWakeup t ->
      pc thr = InCondWait ->
      thread_step a t thr g (set_pc Woken thr) g WakeNone.

Lemma step_inv a s s' :
  step n mat thread_count garbage a s = Ok s' ->
  exists t thr thr' g' m,
    threads s !! t = Some thr /\
    thread_step a t thr (glob s) thr' g' m /\
    (exists ths', apply_wake m (<[t := thr']> (threads s)) = Some ths' /\ s' = State g' ths').
Proof.
  intros H. destruct a as [t w|t|t]; cbn [step] in H;
    destruct (threads s !! t) as [thr|] eqn:Ht; try discriminate H;
    exists t, thr.
  - unfold step_thread in H. destruct (pc thr) eqn:Hpc; try discriminate H.
    + destruct (Search_start _ _ _ _ _) as [thr'|] eqn:Hs; [|done].
      injection H as <-. do 3 eexists. split; [done|].
      split; [eapply ts_start; eauto|]. by eexists.
    + destruct (Terminated_test _ _) eqn:Htest.
      * injection H as <-. unfold Terminated_test in Htest.
        apply andb_prop in Htest as [[H1 H2]%andb_prop H3].
        apply bool_decide_eq_true in H1, H2. apply is_null_true in H3.
        do 3 eexists. split; [done|].
        split; [eapply ts_to_trylock; eauto|]. by eexists.
      * destruct (Empty (top thr)) eqn:He; cbn [negb] in H.
        -- apply bool_decide_eq_true in He. unfold Terminated_idle in H.
           destruct (bool_decide _ && is_null _) eqn:Hl; injection H as <-.
           ++ apply andb_prop in Hl as [H1 H2].
              apply bool_decide_eq_true in H1. apply is_null_true in H2.
              do 3 eexists. split; [done|].
              split; [eapply ts_last; eauto|]. by eexists.
           ++ do 3 eexists. split; [done|].
              split; [eapply ts_wait; eauto|by eexists]. intros [H1 H2].
              rewrite (bool_decide_eq_true_2 _ H1) in Hl.
              apply is_null_true in H2. by rewrite H2 in Hl.
        -- injection H as <-. apply bool_decide_eq_false in He.
           do 3 eexists. split; [done|].
           split; [eapply ts_to_body; eauto|]. by eexists.
    + unfold Terminated_split in H.
      destruct (bool_decide _ && is_null _) eqn:Hl.
      * apply andb_prop in Hl as [H1 H2].
        apply bool_decide_eq_true in H1. apply is_null_true in H2.
        destruct (Split_stack _ _ _) as [[[st' tp'] g']|] eqn:Hsp; [|done].
        cbn [mbind option_bind] in H.
        destruct (cond_signal _ _) as [ths|] eqn:Hsig; [|done].
        injection H as <-. do 3 eexists. split; [done|].
        split; [eapply ts_split; eauto|]. by eexists.
      * injection H as <-. do 3 eexists. split; [done|].
        split; [eapply ts_no_split; eauto|by eexists]. intros [H1 H2].
        rewrite (bool_decide_eq_true_2 _ H1) in Hl.
        apply is_null_true in H2. by rewrite H2 in Hl.
    + unfold Terminated_awakened in H.
      destruct (bool_decide _ || negb (is_null _)) eqn:Hl; injection H as <-.
      * do 3 eexists. split; [done|].
        split; [eapply ts_take; eauto|by eexists]. apply orb_prop in Hl as [H1|H2].
        -- left. by apply bool_decide_eq_true in H1.
        -- right. apply is_null_false. by destruct (is_null _).
      * apply orb_false_elim in Hl as [H1 H2]. apply bool_decide_eq_false in H1.
        do 3 eexists. split; [done|].
        split; [eapply ts_exit; eauto|by eexists].
        apply is_null_true. by destruct (is_null _).
    + destruct (Search_body _ _ _ _) as [[thr' g']|] eqn:Hb; [|done].
      injection H as <-. do 3 eexists. split; [done|].
      split; [eapply ts_body; eauto|]. by eexists.
  - destruct (pc thr) eqn:Hpc; try discriminate H. injection H as <-.
    do 3 eexists. split; [done|]. split; [by eapply ts_trylock_fails|]. by eexists.
  - destruct (pc thr) eqn:Hpc; try discriminate H. injection H as <-.
    do 3 eexists. split; [done|]. split; [by eapply ts_spurious|]. by eexists.
Qed.

Lemma Search_start_shape my_rank thr :
  Search_start n mat thread_count garbage my_rank = Some thr ->
  pc thr = AtTerminated /\ size thr = n * 2 /\
  local_best thr = Tour [] 0 INFINITY /\
  Fill_stack n mat thread_count garbage (Some (malloc_ptrs (n * 2))) 0 my_rank
  = Some (stack thr, top thr).
Proof.
  unfold Search_start. intros H.
  destruct (Fill_stack _ _ _ _ _ _ _) as [[st tp]|]; [|done].
  cbn [mbind option_bind] in H. by injection H as <-.
Qed.

(** *** The best cost and the local best costs *)

Lemma thread_step_best_cost_le a t thr g thr' g' m :
  thread_step a t thr g thr' g' m ->
  cost (best_tour g') <= cost (best_tour g).
Proof.
  intros [ | | | | | w st' tp' g1 _ _ _ _ Hsp | | | | | thr1 g1 _ _ Hb | ]; cbn; try lia.
  - apply Split_stack_globals in Hsp as [-> _]. lia.
  - apply Search_body_cases in Hb as [_ [[-> _]|[? _]]]; lia.
Qed.

Lemma step_best_cost_le a s s' :
  step n mat thread_count garbage a s = Ok s' ->
  cost (best_tour (glob s')) <= cost (best_tour (glob s)).
Proof.
  intros (t & thr & thr' & g' & m & _ & H & ths' & _ & ->)%step_inv.
  by eapply thread_step_best_cost_le.
Qed.

Lemma run_best_cost_le sched s s' :
  run n mat thread_count garbage sched s = Ok s' ->
  cost (best_tour (glob s')) <= cost (best_tour (glob s)).
Proof.
  revert s. induction sched as [|a sched IH]; intros s H; cbn in H.
  - injection H as <-. lia.
  - destruct (step _ _ _ _ a s) as [s1| |] eqn:Hs; try discriminate H.
    apply step_best_cost_le in Hs. apply IH in H. lia.
Qed.

Lemma initial_state_shape s :
  initial_state n thread_count = Some s ->
  glob s = Globals (Tour (replicate (Z.to_nat (n + 1)) NO_CITY) 0 INFINITY) 0 None 0 0 /\
  threads s = replicate (Z.to_nat thread_count)
                (Thread AtStart None 0 0 (Tour [] 0 0)).
Proof.
  unfold initial_state. rewrite Initialize_tour_eq. cbn. by intros [= <-].
Qed.

(** The local best cost of a thread that has started is never below the
    best cost. *)
Definition local_bounds_above (s : state) : Prop :=
  cost (best_tour (glob s)) <= INFINITY /\
  forall t thr, threads s !! t = Some thr -> pc thr <> AtStart ->
                cost (best_tour (glob s)) <= cost (local_best thr).

Lemma local_bounds_above_initial s :
  initial_state n thread_count = Some s -> local_bounds_above s.
Proof.
  intros [Hg Ht]%initial_state_shape. split.
  - rewrite Hg. cbn. lia.
  - intros t thr Hthr. rewrite Ht in Hthr.
    apply lookup_replicate in Hthr as [-> _]. done.
Qed.

(** The local best of the running thread after its step. *)
Lemma thread_step_local_best a t thr g thr' g' m :
  thread_step a t thr g thr' g' m ->
  (pc thr = AtStart /\ cost (local_best thr') = INFINITY /\ g' = g) \/
  (pc thr <> AtStart /\ local_best thr' = local_best thr /\
   best_tour g' = best_tour g) \/
  (pc thr = InBody /\ cost (best_tour g') < cost (best_tour g) /\
   cost (local_best thr') = cost (best_tour g')).
Proof.
  intros [thr1 _ Hpc Hs| _ Hpc| _ Hpc| _ Hpc| _ Hpc| w st' tp' g1 _ Hpc _ _ Hsp| _ Hpc
         | _ Hpc| _ Hpc| _ Hpc| thr1 g1 _ Hpc Hb| _ Hpc];
    try (right; left; rewrite Hpc; by cbn).
  - left. apply Search_start_shape in Hs as (_ & _ & -> & _). by cbn.
  - right; left. apply Split_stack_globals in Hsp as [-> _]. by rewrite Hpc.
  - apply Search_body_cases in Hb as [_ [[-> ->]|(? & ? & _)]].
    + right; left. by rewrite Hpc.
    + right; right. done.
Qed.

Lemma local_bounds_above_step a s s' :
  step n mat thread_count garbage a s = Ok s' ->
  local_bounds_above s -> local_bounds_above s'.
Proof.
  intros H [Hinf Hloc]. pose proof (step_best_cost_le _ _ _ H) as Hle.
  split; [lia|].
  apply step_inv in H as (t & thr & thr' & g' & m & Ht & H & ths' & Hw & ->).
  apply apply_wake_others in Hw. cbn [glob threads] in *.
  apply (others_woken_forall
           (fun thr => pc thr <> AtStart -> cost (best_tour g') <= cost (local_best thr))
           _ _ _ _ Hw).
  - intros u thr0 Hu Hpc. specialize (Hloc u thr0 Hu Hpc). lia.
  - intros _.
    destruct (thread_step_local_best _ _ _ _ _ _ _ H)
      as [(_ & -> & ->)|[(Hpc & -> & ->)|(_ & _ & ->)]]; [lia| |lia].
    by apply (Hloc t thr).
  - intros thr0 HP Hpc _. apply HP. by rewrite Hpc.
Qed.

Lemma local_bounds_above_run sched s s' :
  run n mat thread_count garbage sched s = Ok s' ->
  local_bounds_above s -> local_bounds_above s'.
Proof.
  revert s. induction sched as [|a sched IH]; intros s H Hs; cbn in H.
  - by injection H as <-.
  - destruct (step _ _ _ _ a s) as [s1| |] eqn:Hstep; try discriminate H.
    eapply IH; [done|]. by eapply local_bounds_above_step.
Qed.

(** When a step changes the best cost, it lowers it, the running thread is
    in the body of its loop, its local best cost is the new best cost, and
    the other threads are as they were. *)
Lemma step_changes_best_cost a s s' :
  step n mat thread_count garbage a s = Ok s' ->
  cost (best_tour (glob s')) <> cost (best_tour (glob s)) ->
  exists t w thr thr',
    a = Step t w /\ threads s !! t = Some thr /\ pc thr = InBody /\
    threads s' = <[t := thr']> (threads s) /\
    cost (best_tour (glob s')) < cost (best_tour (glob s)) /\
    cost (local_best thr') = cost (best_tour (glob s')).
Proof.
  intros (t & thr & thr' & g' & m & Ht & H & ths' & Hw & ->)%step_inv Hne.
  cbn [glob threads] in *.
  destruct H as [ | | | | | w st' tp' g1 _ _ _ _ Hsp | | | | | thr1 g1 [w ->] Hpc Hb | ];
    cbn in Hne; try done.
  - apply Split_stack_globals in Hsp as [Hb _]. by rewrite Hb in Hne.
  - apply Search_body_cases in Hb as [_ [[-> _]|(Hlt & Hl & _)]]; [done|].
    cbn in Hw. injection Hw as <-. by exists t, w, thr, thr1.
Qed.

End StepFacts.

(** ** Tours and their costs *)

(** The input that the search is for: at least two cities, an [n] by [n]
    matrix of weights between 0 and [B], and [n * B], which bounds the cost
    of every tour, fits in an [int]. *)
Class valid_matrix (n : Z) (mat : list Z) (B : Z) : Prop := {
  n_ge_2 : 2 <= n;
  mat_length : Z.of_nat (length mat) = n * n;
  mat_range : forall w, w ∈ mat -> 0 <= w <= B;
  n_B_fits : n * B <= INT_MAX
}.

(** The number of threads that [main] accepts. *)
Class valid_threads (n thread_count : Z) : Prop :=
  thread_count_range : 1 <= thread_count < n.

Ltac valid_facts :=
  repeat match goal with
  | H : valid_matrix _ _ _ |- _ =>
      lazymatch goal with
      | _ : 2 <= _ |- _ => fail
      | _ => let H1 := fresh "Hv_n" in let H2 := fresh "Hv_len" in
             let H3 := fresh "Hv_range" in let H4 := fresh "Hv_fits" in
             pose proof (@n_ge_2 _ _ _ H) as H1; pose proof (@mat_length _ _ _ H) as H2;
             pose proof (@mat_range _ _ _ H) as H3; pose proof (@n_B_fits _ _ _ H) as H4
      end
  | H : valid_threads _ _ |- _ =>
      lazymatch goal with
      | _ : 1 <= _ < _ |- _ => fail
      | _ => let H1 := fresh "Hv_tc" in pose proof (H : 1 <= _ < _) as H1
      end
  end.

Section Tours.

Context (n : Z) (mat : list Z).

(** The cost of going from city [a] to city [b]. *)
Definition edge (a b : Z) : Z := default 0 (arr_get mat (n * a + b)).

(** The sum of the costs along a path of cities. *)
Fixpoint path_cost (l : list Z) : Z :=
  match l with
  | a :: l' => match l' with b :: _ => edge a b + path_cost l' | [] => 0 end
  | [] => 0
  end.

(** A tour is given by the order [p] in which it visits the cities
    [1 .. n-1]; it starts from city 0 and returns there. *)
Definition is_tour (p : list Z) : Prop := p ≡ₚ seqZ 1 (n - 1).

Definition tour_cost (p : list Z) : Z := path_cost (0 :: p ++ [0]).

Context (B : Z) {Hvalid : valid_matrix n mat B}.

Lemma B_nonneg : 0 <= B.
Proof.
  valid_facts. destruct mat as [|w ?]; [simpl in *; nia|].
  assert (0 <= w <= B) by (apply mat_range, list_elem_of_here). lia.
Qed.

Lemma edge_range a b : 0 <= edge a b <= B.
Proof.
  unfold edge. destruct (arr_get mat (n * a + b)) as [w|] eqn:E; simpl.
  - apply mat_range. apply arr_get_Some in E as [_ E]. by eapply list_elem_of_lookup_2.
  - pose proof B_nonneg. lia.
Qed.

Lemma edge_get a b :
  0 <= a < n -> 0 <= b < n -> arr_get mat (n * a + b) = Some (edge a b).
Proof.
  intros Ha Hb. valid_facts. unfold edge.
  destruct (arr_get mat (n * a + b)) as [w|] eqn:E; [done|].
  unfold arr_get in E. rewrite decide_True in E by nia.
  apply lookup_ge_None in E. nia.
Qed.

Lemma path_cost_cons a b l : path_cost (a :: b :: l) = edge a b + path_cost (b :: l).
Proof. done. Qed.

Lemma path_cost_snoc l a b : path_cost (l ++ [a; b]) = path_cost (l ++ [a]) + edge a b.
Proof.
  induction l as [|x l IH]; [simpl; lia|].
  destruct l as [|y l]; [simpl; lia|].
  change ((x :: y :: l) ++ [a; b]) with (x :: y :: (l ++ [a; b])).
  change ((x :: y :: l) ++ [a]) with (x :: y :: (l ++ [a])).
  rewrite !path_cost_cons. change (y :: l ++ [a; b]) with ((y :: l) ++ [a; b]).
  rewrite IH. simpl. lia.
Qed.

Lemma path_cost_range l : 0 <= path_cost l <= (Z.of_nat (length l) - 1) * B \/ l = [].
Proof.
  induction l as [|a l IH]; [by right|]. left.
  destruct l as [|b l]; [simpl; lia|].
  rewrite path_cost_cons. destruct IH as [IH|?]; [|done].
  pose proof (edge_range a b). simpl length in *. lia.
Qed.

Lemma path_cost_nonneg l : 0 <= path_cost l.
Proof.
  destruct (path_cost_range l) as [?| ->]; [lia|done].
Qed.

Lemma path_cost_fits l :
  Z.of_nat (length l) <= n + 1 -> - 2 ^ 31 <= path_cost l <= INT_MAX.
Proof.
  intros Hl. valid_facts. pose proof B_nonneg.
  destruct (path_cost_range l) as [?| ->]; [|unfold INT_MAX; simpl; lia].
  assert (path_cost l <= n * B) by nia. lia.
Qed.

Lemma path_cost_app_le l k : path_cost l <= path_cost (l ++ k).
Proof.
  induction l as [|a l IH]; [apply path_cost_nonneg|].
  destruct l as [|b l].
  - simpl. destruct k; [done|]. pose proof (edge_range a z).
    pose proof (path_cost_nonneg (z :: k)). lia.
  - change ((a :: b :: l) ++ k) with (a :: b :: (l ++ k)).
    rewrite !path_cost_cons. change (b :: l ++ k) with ((b :: l) ++ k). lia.
Qed.

(** *** Tours are the paths through all the cities *)

Lemma is_tour_length p : is_tour p -> Z.of_nat (length p) = n - 1.
Proof. valid_facts. unfold is_tour. intros ->. rewrite length_seqZ. lia. Qed.

Lemma is_tour_elem p x : is_tour p -> x ∈ p <-> 1 <= x < n.
Proof. unfold is_tour. intros ->. rewrite elem_of_seqZ. lia. Qed.

Lemma is_tour_NoDup p : is_tour p -> NoDup (0 :: p).
Proof.
  intros Hp. apply list.NoDup_cons. split.
  - rewrite (is_tour_elem _ _ Hp). lia.
  - unfold is_tour in Hp. rewrite Hp. apply NoDup_seqZ.
Qed.

(** A path of [n] different cities that starts at 0 is a tour. *)
Lemma full_path_is_tour q :
  NoDup q -> (forall x, x ∈ q -> 0 <= x < n) -> Z.of_nat (length q) = n ->
  head q = Some 0 ->
  exists p, q = 0 :: p /\ is_tour p.
Proof.
  intros Hnd Hr Hl Hh. valid_facts. destruct q as [|x p]; [done|]. injection Hh as ->.
  exists p. split; [done|].
  apply list.NoDup_cons in Hnd as [H0 Hnd].
  apply submseteq_length_Permutation.
  - apply NoDup_submseteq; [done|]. intros x Hx. apply elem_of_seqZ.
    specialize (Hr x (list_elem_of_further _ _ _ Hx)).
    assert (x <> 0) by (intros ->; done). lia.
  - rewrite length_seqZ. simpl in Hl. lia.
Qed.

End Tours.

(** ** The stack operations, on the elements *)

(** The elements below the top of a stack. *)
Definition frames_of (p : option (list (option stack_elt_t))) (top : Z) : list stack_elt_t :=
  match p with
  | Some a => omap id (take (Z.to_nat top) a)
  | None => []
  end.

(** A stack in good shape: the array has [size >= 1] cells, and the cells
    below [top] hold the elements [fs]. *)
Definition stack_wf (p : option (list (option stack_elt_t))) (top size : Z)
    (fs : list stack_elt_t) : Prop :=
  stack_holds p top fs /\
  exists a, p = Some a /\ Z.of_nat (length a) = size /\ 1 <= size.

Lemma stack_holds_take a top fs :
  stack_holds (Some a) top fs -> take (Z.to_nat top) a = Some <$> fs.
Proof.
  intros Hs. destruct (stack_holds_length _ _ _ Hs) as (a' & [= <-] & Hlen).
  destruct Hs as (a' & [= <-] & -> & H). rewrite Nat2Z.id.
  apply list_eq. intros i. rewrite list_lookup_fmap.
  destruct (decide (i < length fs)%nat) as [Hi|Hi].
  - rewrite lookup_take_lt by done.
    destruct (lookup_lt_is_Some_2 fs i Hi) as [f Hf]. rewrite Hf. by apply H.
  - rewrite lookup_take_ge by lia. by rewrite (proj2 (lookup_ge_None fs i)) by lia.
Qed.

Lemma stack_holds_frames p top fs : stack_holds p top fs -> frames_of p top = fs.
Proof.
  intros Hs. pose proof Hs as (a & -> & _). unfold frames_of.
  rewrite (stack_holds_take _ _ _ Hs). clear Hs.
  induction fs as [|f fs IH]; [done|]. cbn. by rewrite IH.
Qed.

Lemma stack_wf_frames p top size fs : stack_wf p top size fs -> frames_of p top = fs.
Proof. intros [Hs _]. by apply stack_holds_frames. Qed.

Lemma stack_wf_top p top size fs :
  stack_wf p top size fs -> top = Z.of_nat (length fs) /\ top <= size.
Proof.
  intros [Hs (a & -> & <- & _)]. destruct (stack_holds_length _ _ _ Hs) as (a' & [= <-] & Hlen).
  destruct Hs as (a' & [= <-] & -> & _). lia.
Qed.

Lemma Pop_ok p top size fs e :
  stack_wf p top size (fs ++ [e]) ->
  exists p', Pop p top = Some (tour_p e, elt_city e, elt_cost e, p', top - 1) /\
             stack_wf p' (top - 1) size fs.
Proof.
  intros [Hs (a & -> & Hsz & Hsz1)].
  destruct (stack_holds_length _ _ _ Hs) as (a' & [= <-] & Hlen).
  destruct Hs as (a' & [= <-] & -> & H). rewrite length_app in *. simpl in *.
  unfold Pop.
  replace (Z.of_nat (length fs + 1) - 1) with (Z.of_nat (length fs)) by lia.
  rewrite ptr_get_nat, (H (length fs) e) by (by rewrite lookup_app_r, Nat.sub_diag by lia).
  cbn [mbind option_bind]. rewrite ptr_set_nat by lia. cbn [mbind option_bind].
  eexists. split; [done|]. split.
  - eexists. split; [done|]. split; [done|]. intros i f Hf.
    rewrite list_lookup_insert_ne by (apply lookup_lt_Some in Hf; lia).
    apply H. by apply lookup_app_l_Some.
  - eexists. split; [done|]. by rewrite length_insert.
Qed.

Lemma put_on_top (b : list (option stack_elt_t)) top size fs e :
  Z.of_nat (length b) = size -> top = Z.of_nat (length fs) -> top < size ->
  (forall i f, fs !! i = Some f -> b !! i = Some (Some f)) ->
  exists b', ptr_set (Some b) top (Some e) = Some (Some b') /\
             stack_wf (Some b') (top + 1) size (fs ++ [e]).
Proof.
  intros Hb -> Hlt Hb'. rewrite ptr_set_nat by lia.
  eexists. split; [done|]. split.
  - eexists. split; [done|]. split; [rewrite length_app; simpl; lia|].
    intros i f Hf. apply lookup_app_Some in Hf as [Hf|[Hi Hf]].
    + rewrite list_lookup_insert_ne by (apply lookup_lt_Some in Hf; lia). by apply Hb'.
    + destruct (i - length fs)%nat as [|k] eqn:Hk; [|by destruct k].
      injection Hf as <-. replace i with (length fs) by lia.
      apply list_lookup_insert_eq. lia.
  - eexists. split; [done|]. rewrite length_insert. lia.
Qed.

Lemma Push_ok (n : Z) tour city c p top size fs :
  stack_wf p top size fs ->
  n <= Z.of_nat (length (cities tour)) ->
  exists p' size',
    Push n tour city c p top size = Some (p', top + 1, size') /\
    stack_wf p' (top + 1) size'
      (fs ++ [Elt (Tour (take (Z.to_nat n) (cities tour)) (count tour) (cost tour)) city c]).
Proof.
  intros Hwf Hn. destruct (stack_wf_top _ _ _ _ Hwf) as [Htop Hle].
  destruct Hwf as [Hs (a & -> & Hsz & Hsz1)].
  destruct Hs as (a' & [= <-] & _ & H).
  unfold Push. case_decide as Hfull.
  - rewrite Dup_tour_eq by done. cbn [mbind option_bind realloc_ptrs].
    edestruct (put_on_top (take (Z.to_nat (size * 2)) a
                           ++ malloc_ptrs (size * 2 - Z.of_nat (length a)))
                 top (size * 2) fs) as (b' & -> & Hwf'); [| done | lia | |].
    + rewrite length_app, length_take. unfold malloc_ptrs. rewrite length_replicate. lia.
    + intros i f Hf. rewrite lookup_app_l.
      * rewrite lookup_take_lt by (apply lookup_lt_Some in Hf; lia). by apply H.
      * rewrite length_take. apply lookup_lt_Some in Hf. lia.
    + cbn [mbind option_bind]. by do 2 eexists.
  - rewrite Dup_tour_eq by done. cbn [mbind option_bind].
    edestruct (put_on_top a top size fs) as (b' & -> & Hwf'); [done | done | lia | done |].
    cbn [mbind option_bind]. by do 2 eexists.
Qed.

(** *** The first elements of the stacks *)

Lemma seqZ_snoc m k : 0 <= k -> seqZ m (k + 1) = seqZ m k ++ [m + k].
Proof.
  intros Hk. rewrite seqZ_app by lia. by rewrite (seqZ_cons _ 1), (seqZ_nil _ (Z.pred 1)) by lia.
Qed.

Section FillStack.

Context (n : Z) (mat : list Z) (B : Z) (thread_count : Z) (garbage : Z -> Z).
Context {Hvalid : valid_matrix n mat B} {Hthreads : valid_threads n thread_count}.

(** The division of the cities [1 .. n-1] among the threads. *)
Lemma share_division :
  exists q r, n - 1 = thread_count * q + r /\ 0 <= r < thread_count /\ 1 <= q /\
              forall my_rank,
                partial_tour_count n thread_count my_rank
                = (if decide (my_rank < r) then q + 1 else q) /\
                first_final_city n thread_count my_rank
                = (if decide (my_rank < r) then my_rank * (q + 1) + 1
                   else my_rank * q + r + 1).
Proof.
  valid_facts. exists ((n - 1) / thread_count), ((n - 1) mod thread_count).
  pose proof (Z.div_mod (n - 1) thread_count).
  pose proof (Z.mod_pos_bound (n - 1) thread_count).
  split; [lia|]. split; [lia|]. split; [nia|].
  intros my_rank. unfold first_final_city, partial_tour_count.
  rewrite Z.quot_div_nonneg, Z.rem_mod_nonneg by lia.
  by case_decide.
Qed.

Lemma share_bounds my_rank :
  0 <= my_rank < thread_count ->
  1 <= partial_tour_count n thread_count my_rank /\
  1 <= first_final_city n thread_count my_rank /\
  last_final_city n thread_count my_rank <= n - 1.
Proof.
  intros Hr. valid_facts. destruct share_division as (q & r & Hn & Hrr & Hq & Hshare).
  unfold last_final_city. destruct (Hshare my_rank) as [-> ->].
  case_decide; nia.
Qed.

(** Every city but 0 is in the share of one of the threads. *)
Lemma share_cover i :
  1 <= i <= n - 1 ->
  exists my_rank,
    0 <= my_rank < thread_count /\
    first_final_city n thread_count my_rank <= i <= last_final_city n thread_count my_rank.
Proof.
  intros Hi. valid_facts. destruct share_division as (q & r & Hn & Hrr & Hq & Hshare).
  unfold last_final_city.
  destruct (decide (i <= r * (q + 1))) as [Hlow|Hhigh].
  - exists ((i - 1) / (q + 1)).
    pose proof (Z.div_mod (i - 1) (q + 1)).
    pose proof (Z.mod_pos_bound (i - 1) (q + 1)).
    assert (0 <= (i - 1) / (q + 1)) by (apply Z.div_pos; lia).
    assert ((i - 1) / (q + 1) < r) by (apply Z.div_lt_upper_bound; nia).
    destruct (Hshare ((i - 1) / (q + 1))) as [-> ->].
    rewrite !decide_True by done. split; [lia|]. nia.
  - set (j := i - 1 - r * (q + 1)).
    exists (r + j / q).
    pose proof (Z.div_mod j q).
    pose proof (Z.mod_pos_bound j q).
    assert (0 <= j / q) by (apply Z.div_pos; lia).
    assert (j / q < thread_count - r) by (apply Z.div_lt_upper_bound; nia).
    destruct (Hshare (r + j / q)) as [-> ->].
    rewrite !decide_False by lia. split; [lia|]. nia.
Qed.

(** The element for the city [i] in the first stack of a thread. *)
Definition first_frame (i : Z) : stack_elt_t :=
  Elt (Tour (0 :: replicate (Z.to_nat n) NO_CITY) 1 0) i
      (int_add (garbage i) (edge n mat 0 i)).

Definition initial_frames (my_rank : Z) : list stack_elt_t :=
  first_frame <$> seqZ (first_final_city n thread_count my_rank)
                       (partial_tour_count n thread_count my_rank).

Lemma Fill_stack_ok my_rank :
  0 <= my_rank < thread_count ->
  exists p,
    Fill_stack n mat thread_count garbage (Some (malloc_ptrs (n * 2))) 0 my_rank
    = Some (p, partial_tour_count n thread_count my_rank) /\
    stack_wf p (partial_tour_count n thread_count my_rank) (n * 2) (initial_frames my_rank).
Proof.
  intros Hr. valid_facts. destruct (share_bounds my_rank Hr) as (Hc & Hf & Hl).
  unfold Fill_stack, initial_frames, last_final_city in *.
  set (first := first_final_city n thread_count my_rank) in *.
  set (cnt := partial_tour_count n thread_count my_rank) in *.
  match goal with
  | |- exists _, for_loop ?fu ?lo ?hi ?st ?body ?init = _ /\ _ =>
      destruct (for_loop_inv
        (fun (i : Z) (x : option (list (option stack_elt_t)) * Z) =>
           first <= i <= first + cnt /\ x.2 = i - first /\
           stack_wf x.1 x.2 (n * 2) (first_frame <$> seqZ first (i - first)))
        fu lo hi st body init) as (i' & [p tp] & Hrun & (Hi & Htp & Hwf) & Hi1 & Hi2)
  end.
  - lia.
  - lia.
  - split; [lia|]. split; [simpl; lia|]. simpl. rewrite Z.sub_diag. simpl. split.
    + eexists. split; [done|]. split; [done|]. by intros i f ?.
    + eexists. split; [done|]. unfold malloc_ptrs. rewrite length_replicate. lia.
  - intros i [p tp] Hi (_ & Htp & Hwf). simpl in Htp, Hwf. subst tp.
    rewrite Initialize_tour_eq. cbn [mbind option_bind cities cost].
    unfold arr_set at 1. rewrite decide_True by (rewrite length_replicate; lia).
    cbn [mbind option_bind].
    assert (arr_get mat i = Some (edge n mat 0 i)) as ->.
    { replace i with (n * 0 + i) at 1 by lia. apply (edge_get n mat B); lia. }
    cbn [mbind option_bind].
    pose proof Hwf as [(a & -> & _ & Ha) (a' & [= <-] & Hsz & _)].
    edestruct (put_on_top a (i - first) (n * 2) (first_frame <$> seqZ first (i - first)))
      as (b' & -> & Hwf'); [done | rewrite length_fmap, length_seqZ; lia | lia | done |].
    cbn [mbind option_bind]. eexists. split; [done|]. simpl.
    split; [lia|]. split; [lia|].
    replace (i + 1 - first) with (i - first + 1) by lia.
    rewrite seqZ_snoc, fmap_app by lia. simpl.
    replace (first + (i - first)) with i by lia.
    replace (<[Z.to_nat 0:=0]> (replicate (Z.to_nat (n + 1)) NO_CITY))
      with (0 :: replicate (Z.to_nat n) NO_CITY) in Hwf'; [done|].
    replace (Z.to_nat (n + 1)) with (S (Z.to_nat n)) by lia. done.
  - simpl in Htp, Hwf. subst tp. replace i' with (first + cnt) in * by lia.
    replace (first + cnt - first) with cnt in * by lia.
    exists p. split; [|done]. rewrite Hrun. done.
Qed.

End FillStack.

(** ** The elements of the stacks as nodes of the search tree *)

(** The path of an element: the cities of its partial tour, then its
    city. *)
Definition frame_path (e : stack_elt_t) : list Z :=
  take (Z.to_nat (count (tour_p e))) (cities (tour_p e)) ++ [elt_city e].

(** An element covers the tours that begin with its path. *)
Definition covers (e : stack_elt_t) (p : list Z) : Prop := frame_path e `prefix_of` 0 :: p.

Section Frames.

Context (n : Z) (mat : list Z) (B : Z) {Hvalid : valid_matrix n mat B}.

(** The elements that the search keeps on its stacks: the path starts at
    city 0, visits no city twice, is not complete without its last city, and
    the two costs of the element add up to the cost of the path. *)
Definition valid_frame (e : stack_elt_t) : Prop :=
  n <= Z.of_nat (length (cities (tour_p e))) /\
  1 <= count (tour_p e) <= n - 1 /\
  head (frame_path e) = Some 0 /\
  NoDup (frame_path e) /\
  (forall x, x ∈ frame_path e -> 0 <= x < n) /\
  cost (tour_p e) + elt_cost e = path_cost n mat (frame_path e).

Lemma frame_path_length e :
  valid_frame e -> Z.of_nat (length (frame_path e)) = count (tour_p e) + 1.
Proof.
  intros (Hl & Hc & _). unfold frame_path. rewrite length_app, length_take. simpl. lia.
Qed.

Lemma valid_frame_city e : valid_frame e -> 0 <= elt_city e < n.
Proof.
  intros (_ & _ & _ & _ & Hr & _). apply Hr. unfold frame_path.
  apply elem_of_app. right. apply list_elem_of_here.
Qed.

(** The tour of an element after [Search] has put the city of the element
    at its end. *)
Definition extended (e : stack_elt_t) : tour_t :=
  Tour (<[Z.to_nat (count (tour_p e)) := elt_city e]> (cities (tour_p e)))
       (count (tour_p e) + 1)
       (path_cost n mat (frame_path e)).

Lemma extended_take e :
  valid_frame e ->
  take (Z.to_nat (count (extended e))) (cities (extended e)) = frame_path e.
Proof.
  intros (Hl & Hc & _). unfold extended, frame_path. cbn [count cities].
  replace (Z.to_nat (count (tour_p e) + 1)) with (S (Z.to_nat (count (tour_p e)))) by lia.
  erewrite take_S_r; [|apply list_lookup_insert_eq; lia].
  by rewrite take_insert_ge by lia.
Qed.

(** The children of an element: one for each city that the path has not
    visited and that can be reached below the bound, the city with the
    greatest number first. *)
Definition child (e : stack_elt_t) (nbr : Z) : stack_elt_t :=
  Elt (Tour (take (Z.to_nat n) (cities (extended e))) (count (extended e))
            (cost (extended e)))
      nbr (edge n mat (elt_city e) nbr).

Definition reachable (e : stack_elt_t) (bound : Z) (nbr : Z) : Prop :=
  (nbr ∉ frame_path e) /\ path_cost n mat (frame_path e) + edge n mat (elt_city e) nbr < bound.

Definition children_above (e : stack_elt_t) (bound : Z) (j : Z) : list stack_elt_t :=
  child e <$> filter (reachable e bound) (reverse (seqZ (j + 1) (n - 1 - j))).

Definition children (e : stack_elt_t) (bound : Z) : list stack_elt_t :=
  children_above e bound 0.

Lemma children_above_step e bound j :
  0 <= j <= n - 1 ->
  children_above e bound (j - 1)
  = children_above e bound j ++ (if decide (reachable e bound j) then [child e j] else []).
Proof.
  intros Hj. unfold children_above.
  replace (j - 1 + 1) with j by lia. replace (n - 1 - (j - 1)) with (n - j) by lia.
  rewrite seqZ_cons by lia. replace (Z.succ j) with (j + 1) by lia.
  replace (Z.pred (n - j)) with (n - 1 - j) by lia.
  rewrite reverse_cons, filter_app, fmap_app. f_equal.
  rewrite filter_cons, filter_nil. by case_decide.
Qed.

Lemma frame_path_child e nbr :
  valid_frame e -> count (tour_p e) + 1 < n ->
  frame_path (child e nbr) = frame_path e ++ [nbr].
Proof.
  intros He Hc. unfold frame_path at 1. cbn [child tour_p elt_city cities count].
  rewrite take_take, Nat.min_l by (cbn; lia). by rewrite extended_take.
Qed.

Lemma path_cost_child e nbr :
  path_cost n mat (frame_path e ++ [nbr])
  = path_cost n mat (frame_path e) + edge n mat (elt_city e) nbr.
Proof.
  unfold frame_path. rewrite <- app_assoc. cbn [app]. apply path_cost_snoc.
Qed.

Lemma valid_child e nbr :
  valid_frame e -> count (tour_p e) + 1 < n ->
  0 <= nbr < n -> nbr ∉ frame_path e ->
  valid_frame (child e nbr).
Proof.
  intros He Hc Hnbr Hnew. pose proof He as (Hl & Hc' & Hh & Hnd & Hr & Hcost).
  unfold valid_frame. rewrite (frame_path_child _ _ He Hc).
  cbn [child tour_p elt_cost cities count cost extended].
  split; [rewrite length_take, length_insert; lia|]. split; [lia|].
  split; [|split; [|split]].
  - destruct (frame_path e); [done|]. done.
  - apply NoDup_app. split; [done|]. split; [|apply NoDup_singleton].
    intros x Hx ->%list_elem_of_singleton. done.
  - intros x [Hx| ->%list_elem_of_singleton]%elem_of_app; auto.
  - by rewrite path_cost_child.
Qed.

(** A tour under an element that has children is under the child for its
    next city, unless that child is out of reach: then the tour costs the
    bound at least. *)
Lemma covers_children e bound p :
  valid_frame e -> count (tour_p e) + 1 < n ->
  is_tour n p -> covers e p ->
  (exists e', e' ∈ children e bound /\ covers e' p) \/ bound <= tour_cost n mat p.
Proof.
  intros He Hc Hp [k Hk].
  pose proof (frame_path_length _ He) as Hlq.
  pose proof (is_tour_length n mat B _ Hp) as Hlp.
  destruct k as [|nbr k].
  { apply (f_equal length) in Hk. rewrite app_nil_r in Hk. simpl in Hk. lia. }
  assert (nbr ∈ p) as Hin.
  { assert (nbr ∈ 0 :: p) as [->|?]%elem_of_cons; [| |done].
    - rewrite Hk. apply elem_of_app. right. apply list_elem_of_here.
    - exfalso. pose proof (is_tour_NoDup n _ Hp) as Hnd. rewrite Hk in Hnd.
      apply NoDup_app in Hnd as (_ & Hnd & _).
      destruct He as (_ & _ & Hh & _). destruct (frame_path e) as [|x q]; [done|].
      injection Hh as ->. apply (Hnd 0); apply list_elem_of_here. }
  apply (is_tour_elem n _ _ Hp) in Hin.
  assert (nbr ∉ frame_path e) as Hnew.
  { pose proof (is_tour_NoDup n _ Hp) as Hnd. rewrite Hk in Hnd.
    apply NoDup_app in Hnd as (_ & Hnd & _). intros Hx. apply (Hnd _ Hx), list_elem_of_here. }
  destruct (decide (path_cost n mat (frame_path e) + edge n mat (elt_city e) nbr < bound))
    as [Hlt|Hge].
  - left. exists (child e nbr). split.
    + unfold children, children_above. apply list_elem_of_fmap_2.
      apply list_elem_of_filter. split; [done|].
      apply elem_of_reverse, elem_of_seqZ. lia.
    + unfold covers. rewrite (frame_path_child _ _ He Hc). exists k.
      by rewrite <- app_assoc.
  - right. rewrite <- path_cost_child in Hge. unfold tour_cost.
    assert (path_cost n mat (frame_path e ++ [nbr]) <= path_cost n mat (0 :: p ++ [0])); [|lia].
    rewrite app_comm_cons, Hk.
    replace ((frame_path e ++ nbr :: k) ++ [0]) with ((frame_path e ++ [nbr]) ++ (k ++ [0])).
    + by apply (path_cost_app_le n mat B).
    + rewrite <- !app_assoc. done.
Qed.

Lemma valid_children e bound :
  valid_frame e -> count (tour_p e) + 1 < n ->
  Forall valid_frame (children e bound).
Proof.
  intros He Hc. apply Forall_forall. intros e' He'.
  unfold children, children_above in He'.
  apply list_elem_of_fmap in He' as (nbr & -> & Hnbr).
  apply list_elem_of_filter in Hnbr as [[Hnew _] Hnbr].
  apply elem_of_reverse, elem_of_seqZ in Hnbr.
  apply valid_child; try done. lia.
Qed.

(** *** One turn of the loop of [Search] *)

(** What the turn starts with: [Pop], and the city at the end of the tour. *)
Lemma Search_body_pop thr fs e :
  stack_wf (stack thr) (top thr) (size thr) (fs ++ [e]) ->
  valid_frame e ->
  exists stack',
    stack_wf stack' (top thr - 1) (size thr) fs /\
    Pop (stack thr) (top thr)
    = Some (tour_p e, elt_city e, elt_cost e, stack', top thr - 1) /\
    arr_set (cities (tour_p e)) (count (tour_p e)) (elt_city e)
    = Some (cities (extended e)) /\
    int_add (cost (tour_p e)) (elt_cost e) = cost (extended e).
Proof.
  intros Hwf He. destruct (Pop_ok _ _ _ _ _ Hwf) as (stack' & HPop & Hwf').
  exists stack'. split; [done|]. split; [done|].
  pose proof He as (Hl & Hc & _ & _ & _ & Hcost). split.
  - unfold arr_set. by rewrite decide_True by lia.
  - cbn [extended cost]. rewrite <- Hcost. apply int_add_small. rewrite Hcost.
    apply (path_cost_fits n mat B). rewrite (frame_path_length _ He). lia.
Qed.

Lemma Search_body_expand thr g fs e :
  stack_wf (stack thr) (top thr) (size thr) (fs ++ [e]) ->
  valid_frame e ->
  count (tour_p e) + 1 < n ->
  exists stack' top' size',
    Search_body n mat thr g
    = Some (Thread AtTerminated stack' top' size' (local_best thr), g) /\
    stack_wf stack' top' size' (fs ++ children e (cost (local_best thr))).
Proof.
  intros Hwf He Hc. valid_facts.
  destruct (Search_body_pop _ _ _ Hwf He) as (stack1 & Hwf1 & HPop & Hset & Hadd).
  unfold Search_body. rewrite HPop. cbn [mbind option_bind].
  rewrite Hset. cbn [mbind option_bind]. rewrite Hadd. cbn [count].
  rewrite decide_False by lia.
  set (bound := cost (local_best thr)).
  pose proof He as (Hl & Hc' & _ & _ & _ & _).
  pose proof (valid_frame_city _ He) as Hcity.
  match goal with
  | |- exists _ _ _, (for_down ?fu ?i ?lo ?body ?init ≫= _) = _ /\ _ =>
      destruct (for_down_inv
        (fun (j : Z) (x : option (list (option stack_elt_t)) * Z * Z) =>
           stack_wf x.1.1 x.1.2 x.2 (fs ++ children_above e bound j))
        fu i lo body init) as ([[st tp] sz] & Hrun & Hinv)
  end.
  - lia.
  - lia.
  - cbn. unfold children_above. rewrite seqZ_nil by lia. cbn. by rewrite app_nil_r.
  - intros j [[st tp] sz] Hj Hinv. cbn in Hinv.
    rewrite (Feasible_eq n mat _ _ _ _ (edge n mat (elt_city e) j)).
    2:{ cbn [extended count cities]. rewrite length_insert. lia. }
    2:{ apply (edge_get n mat B); lia. }
    cbn [mbind option_bind].
    change {| cities := cities (extended e); count := count (tour_p e) + 1;
              cost := cost (extended e) |} with (extended e).
    rewrite (extended_take _ He).
    assert (int_add (cost (extended e)) (edge n mat (elt_city e) j)
            = path_cost n mat (frame_path e) + edge n mat (elt_city e) j) as ->.
    { cbn [extended cost]. apply int_add_small. rewrite <- path_cost_child.
      apply (path_cost_fits n mat B). rewrite length_app, Nat2Z.inj_add.
      rewrite (frame_path_length _ He). simpl. lia. }
    rewrite (children_above_step e bound j) by lia.
    fold (reachable e bound j).
    destruct (decide (reachable e bound j)) as [Hr|Hr].
    + rewrite bool_decide_eq_true_2 by done.
      rewrite (edge_get n mat B) by lia. cbn [mbind option_bind].
      destruct (Push_ok n (extended e) j (edge n mat (elt_city e) j) _ _ _ _ Hinv)
        as (p' & size' & -> & Hwf').
      { cbn [extended cities]. rewrite length_insert. lia. }
      eexists. split; [done|]. cbn. by rewrite app_assoc.
    + rewrite bool_decide_eq_false_2 by done.
      eexists. split; [done|]. cbn. by rewrite app_nil_r.
  - rewrite Hrun. cbn [mbind option_bind]. cbn in Hinv. by exists st, tp, sz.
Qed.

Lemma Search_body_complete thr g fs e :
  stack_wf (stack thr) (top thr) (size thr) (fs ++ [e]) ->
  valid_frame e ->
  count (tour_p e) + 1 = n ->
  Z.of_nat (length (cities (best_tour g))) = n + 1 ->
  exists p stack',
    frame_path e = 0 :: p /\ is_tour n p /\
    stack_wf stack' (top thr - 1) (size thr) fs /\
    Search_body n mat thr g
    = Some (if decide (tour_cost n mat p < cost (best_tour g))
            then (Thread AtTerminated stack' (top thr - 1) (size thr)
                    (Tour (cities (local_best thr)) (count (local_best thr))
                       (tour_cost n mat p)),
                  Globals (Tour (0 :: p ++ [0]) (n + 1) (tour_cost n mat p))
                    (threads_in_cond_wait g) (new_stack g) (new_stack_size g)
                    (new_stack_top g))
            else (Thread AtTerminated stack' (top thr - 1) (size thr) (local_best thr), g)).
Proof.
  intros Hwf He Hc Hbest. valid_facts.
  destruct (Search_body_pop _ _ _ Hwf He) as (stack1 & Hwf1 & HPop & Hset & Hadd).
  pose proof He as (Hl & Hc' & Hh & Hnd & Hr & _).
  pose proof (valid_frame_city _ He) as Hcity.
  pose proof (frame_path_length _ He) as Hlq.
  destruct (full_path_is_tour n mat B (frame_path e)) as (p & Hq & Hp); [done|done|lia|done|].
  exists p, stack1. split; [done|]. split; [done|]. split; [done|].
  unfold Search_body. rewrite HPop. cbn [mbind option_bind].
  rewrite Hset. cbn [mbind option_bind]. rewrite Hadd. cbn [count].
  rewrite decide_True by lia.
  change {| cities := cities (extended e); count := count (tour_p e) + 1;
            cost := cost (extended e) |} with (extended e).
  assert (tour_cost n mat p
          = path_cost n mat (frame_path e) + edge n mat (elt_city e) 0) as Htc.
  { unfold tour_cost. rewrite app_comm_cons, <- Hq. apply path_cost_child. }
  rewrite (Check_best_tour_eq n mat _ _ _ _ (edge n mat (elt_city e) 0)).
  2:{ replace (elt_city e * n + 0) with (n * elt_city e + 0) by lia.
      apply (edge_get n mat B); lia. }
  2:{ cbn [extended count cities]. rewrite length_insert. lia. }
  2:{ cbn [extended count]. lia. }
  2:{ lia. }
  cbn [mbind option_bind].
  assert (int_add (cost (extended e)) (edge n mat (elt_city e) 0) = tour_cost n mat p) as Hia.
  { rewrite Htc. cbn [extended cost]. apply int_add_small. rewrite <- path_cost_child.
    apply (path_cost_fits n mat B). rewrite length_app, Nat2Z.inj_add. simpl. lia. }
  unfold committed. rewrite Hia.
  case_decide; [|done]. do 4 f_equal.
  rewrite (extended_take _ He).
  destruct (drop (Z.to_nat (count (extended e))) (cities (best_tour g))) as [|x [|y l]] eqn:Hd.
  - apply (f_equal length) in Hd. rewrite length_drop in Hd. cbn in Hd. lia.
  - rewrite Hq. replace (Z.to_nat n) with (length (0%Z :: p) + 0)%nat by (rewrite <- Hq; lia).
    by rewrite insert_app_r.
  - apply (f_equal length) in Hd. rewrite length_drop in Hd. cbn in Hd. lia.
Qed.

End Frames.

(** ** The invariant of the search *)

#[global] Instance pc_eq_dec : EqDecision pc_t.
Proof. solve_decision. Defined.

(** The number of threads that stand at [p]. *)
Definition cnt (p : pc_t) (ths : list thread_t) : Z :=
  Z.of_nat (length (filter (fun thr => pc thr = p) ths)).

Definition ind (P : Prop) `{Decision P} : Z := if decide P then 1 else 0.

Lemma cnt_nil p : cnt p [] = 0.
Proof. done. Qed.

Lemma cnt_cons p thr ths : cnt p (thr :: ths) = ind (pc thr = p) + cnt p ths.
Proof.
  unfold cnt, ind. rewrite filter_cons. case_decide; simpl; lia.
Qed.

Lemma cnt_nonneg p ths : 0 <= cnt p ths.
Proof. unfold cnt. lia. Qed.

Lemma cnt_insert p ths t thr thr' :
  ths !! t = Some thr ->
  cnt p (<[t := thr']> ths) = cnt p ths - ind (pc thr = p) + ind (pc thr' = p).
Proof.
  revert t. induction ths as [|x ths IH]; intros [|t] Ht; try done.
  - injection Ht as ->. cbn [insert list_insert]. rewrite !cnt_cons. lia.
  - cbn in Ht. change (<[S t := thr']> (x :: ths)) with (x :: <[t := thr']> ths).
    rewrite !cnt_cons, (IH _ Ht). lia.
Qed.

Lemma cnt_total ths :
  cnt AtStart ths + cnt AtTerminated ths + cnt AtTrylock ths + cnt InCondWait ths
  + cnt Woken ths + cnt InBody ths + cnt Exited ths = Z.of_nat (length ths).
Proof.
  induction ths as [|x ths IH]; [done|]. rewrite !cnt_cons. cbn [length].
  unfold ind. destruct (pc x); repeat case_decide; try done; lia.
Qed.

Lemma cnt_zero p ths :
  cnt p ths = 0 <-> forall t thr, ths !! t = Some thr -> pc thr <> p.
Proof.
  induction ths as [|x ths IH].
  - split; [by intros _ t thr ?|done].
  - rewrite cnt_cons. pose proof (cnt_nonneg p ths). unfold ind.
    destruct IH as [IH1 IH2]. split.
    + intros H0 [|t] thr Ht.
      * injection Ht as ->. case_decide; [lia|done].
      * eapply IH1; [|exact Ht]. case_decide; lia.
    + intros Hall. rewrite decide_False by (apply (Hall 0%nat); done).
      rewrite IH2; [done|]. intros t thr Ht. by apply (Hall (S t)).
Qed.

Lemma cnt_pos p ths :
  0 < cnt p ths -> exists t thr, ths !! t = Some thr /\ pc thr = p.
Proof.
  induction ths as [|x ths IH]; [rewrite cnt_nil; lia|].
  rewrite cnt_cons. unfold ind. case_decide as Hx.
  - intros _. by exists 0%nat, x.
  - intros H0. destruct IH as (t & thr & Ht & Hp); [lia|]. by exists (S t), thr.
Qed.

Lemma cnt_broadcast p ths :
  cnt p (cond_broadcast ths)
  = if decide (p = InCondWait) then 0
    else if decide (p = Woken) then cnt Woken ths + cnt InCondWait ths
    else cnt p ths.
Proof.
  induction ths as [|x ths IH].
  - by repeat case_decide.
  - unfold cond_broadcast in *. rewrite fmap_cons, !cnt_cons, IH. unfold ind.
    destruct (wake_cases x) as [[-> Hx]|[-> Hx]]; cbn [set_pc pc];
      repeat case_decide; subst; try done; try lia; congruence.
Qed.

Section Invariant.

Context (n : Z) (mat : list Z) (B : Z) (thread_count : Z) (garbage : Z -> Z).
Context {Hvalid : valid_matrix n mat B} {Hthreads : valid_threads n thread_count}.

(** The elements that a thread has to work on: those on its stack, or those
    that it will put there when it starts. *)
Definition thread_frames (t : nat) (thr : thread_t) : list stack_elt_t :=
  match pc thr with
  | AtStart => initial_frames n mat thread_count garbage (Z.of_nat t)
  | _ => frames_of (stack thr) (top thr)
  end.

(** The elements in the stack that waits for a thread to take it. *)
Definition mailbox_frames (g : globals) : list stack_elt_t :=
  frames_of (new_stack g) (new_stack_top g).

Definition stack_ok (p : option (list (option stack_elt_t))) (top size : Z) : Prop :=
  stack_wf p top size (frames_of p top) /\ Forall (valid_frame n mat) (frames_of p top).

(** What holds of a thread, by the place where it stands. *)
Definition thread_ok (thr : thread_t) : Prop :=
  match pc thr with
  | AtStart => True
  | AtTerminated => stack_ok (stack thr) (top thr) (size thr)
  | AtTrylock => stack_ok (stack thr) (top thr) (size thr) /\ 2 <= top thr
  | InBody => stack_ok (stack thr) (top thr) (size thr) /\ 1 <= top thr
  | InCondWait | Woken | Exited => top thr = 0
  end.

(** The best tour is the one that [main] has made, or a tour with its
    cost. *)
Definition best_ok (b : tour_t) : Prop :=
  b = Tour (replicate (Z.to_nat (n + 1)) NO_CITY) 0 INFINITY \/
  exists p, is_tour n p /\ tour_cost n mat p < INFINITY /\
            b = Tour (0 :: p ++ [0]) (n + 1) (tour_cost n mat p).

(** The count of the idle threads and the mailbox: a stack in the mailbox
    has a thread that is woken to take it; without one, either no thread is
    woken or has left and some thread is not idle, or all the threads are
    leaving. *)
Definition idle_ok (s : state) : Prop :=
  threads_in_cond_wait (glob s)
  = cnt InCondWait (threads s) + cnt Woken (threads s) + cnt Exited (threads s) /\
  match new_stack (glob s) with
  | Some _ =>
      cnt Woken (threads s) = 1 /\ cnt Exited (threads s) = 0 /\
      stack_ok (new_stack (glob s)) (new_stack_top (glob s)) (new_stack_size (glob s)) /\
      1 <= new_stack_top (glob s)
  | None =>
      (cnt Woken (threads s) = 0 /\ cnt Exited (threads s) = 0 /\
       threads_in_cond_wait (glob s) < thread_count) \/
      (cnt InCondWait (threads s) = 0 /\ threads_in_cond_wait (glob s) = thread_count)
  end.

(** Every tour costs the best cost at least, or is still to come: it begins
    with the path of an element that a thread has to work on or that is in
    the mailbox. *)
Definition covered (s : state) (p : list Z) : Prop :=
  cost (best_tour (glob s)) <= tour_cost n mat p \/
  (exists t thr e, threads s !! t = Some thr /\ e ∈ thread_frames t thr /\ covers e p) \/
  (exists e, e ∈ mailbox_frames (glob s) /\ covers e p).

Record inv (s : state) : Prop := {
  inv_length : Z.of_nat (length (threads s)) = thread_count;
  inv_threads : forall t thr, threads s !! t = Some thr -> thread_ok thr;
  inv_best : best_ok (best_tour (glob s));
  inv_bounds : local_bounds_above s;
  inv_idle : idle_ok s;
  inv_covered : forall p, is_tour n p -> covered s p
}.

(** *** Changes that keep the invariant *)

Lemma frames_of_0 p : frames_of p 0 = [].
Proof. by destruct p. Qed.

Lemma thread_frames_woken t thr :
  pc thr = InCondWait -> thread_frames t (set_pc Woken thr) = thread_frames t thr.
Proof. intros Hpc. unfold thread_frames. by rewrite Hpc. Qed.

Lemma thread_ok_woken thr :
  thread_ok thr -> pc thr = InCondWait -> thread_ok (set_pc Woken thr).
Proof. intros H Hpc. unfold thread_ok in *. by rewrite Hpc in H. Qed.

Lemma cnt_ge_1 ths t thr : ths !! t = Some thr -> 1 <= cnt (pc thr) ths.
Proof.
  intros Ht. destruct (decide (cnt (pc thr) ths = 0)) as [H0|H0].
  - by destruct (proj1 (cnt_zero _ _) H0 t thr Ht).
  - pose proof (cnt_nonneg (pc thr) ths). lia.
Qed.

(** A thread that is not idle keeps the count of the idle threads below the
    number of threads. *)
Lemma busy_thread_idle_count ths t thr :
  ths !! t = Some thr ->
  pc thr <> InCondWait -> pc thr <> Woken -> pc thr <> Exited ->
  cnt InCondWait ths + cnt Woken ths + cnt Exited ths < Z.of_nat (length ths).
Proof.
  intros Ht H1 H2 H3. pose proof (cnt_total ths). pose proof (cnt_ge_1 _ _ _ Ht).
  pose proof (cnt_nonneg AtStart ths). pose proof (cnt_nonneg AtTerminated ths).
  pose proof (cnt_nonneg AtTrylock ths). pose proof (cnt_nonneg InBody ths).
  destruct (pc thr); try done; lia.
Qed.

Lemma idle_count_le ths :
  cnt InCondWait ths + cnt Woken ths + cnt Exited ths <= Z.of_nat (length ths).
Proof.
  pose proof (cnt_total ths). pose proof (cnt_nonneg AtStart ths).
  pose proof (cnt_nonneg AtTerminated ths). pose proof (cnt_nonneg AtTrylock ths).
  pose proof (cnt_nonneg InBody ths). lia.
Qed.

(** The other threads after a step. *)
Lemma others_woken_other ths ths' t thr' u thr_u :
  others_woken (<[t := thr']> ths) ths' ->
  u <> t -> ths !! u = Some thr_u ->
  exists thr_u', ths' !! u = Some thr_u' /\
    (thr_u' = thr_u \/ pc thr_u = InCondWait /\ thr_u' = set_pc Woken thr_u).
Proof.
  intros [Hlen Hw] Hne Hu.
  destruct (lookup_lt_is_Some_2 ths' u) as [thr_u' Hu'].
  { rewrite Hlen, length_insert. by eapply lookup_lt_Some. }
  exists thr_u'. split; [done|].
  destruct (Hw u thr_u' Hu') as (thr0 & H0 & Hcase).
  rewrite list_lookup_insert_ne in H0 by done. by simplify_eq.
Qed.

Lemma covered_step s s' t thr thr' p :
  threads s !! t = Some thr ->
  others_woken (<[t := thr']> (threads s)) (threads s') ->
  cost (best_tour (glob s')) <= cost (best_tour (glob s)) ->
  (forall e, e ∈ thread_frames t thr -> covers e p -> covered s' p) ->
  (forall e, e ∈ mailbox_frames (glob s) -> covers e p -> covered s' p) ->
  covered s p -> covered s' p.
Proof.
  intros Ht Hw Hle Hthr Hmail [Hc|[(u & thr_u & e & Hu & He & Hc)|(e & He & Hc)]].
  - left. lia.
  - destruct (decide (u = t)) as [->|Hne].
    + simplify_eq. by eapply Hthr.
    + destruct (others_woken_other _ _ _ _ _ _ Hw Hne Hu) as (thr_u' & Hu' & Hcase).
      right. left. exists u, thr_u', e. split; [done|]. split; [|done].
      destruct Hcase as [->|[Hpc ->]]; [done|]. by rewrite thread_frames_woken.
  - by eapply Hmail.
Qed.

(** The invariant after a step, from what the step does to the running
    thread, to the counts and to the elements. *)
Lemma inv_preserved s s' t thr thr' :
  inv s ->
  threads s !! t = Some thr ->
  others_woken (<[t := thr']> (threads s)) (threads s') ->
  local_bounds_above s' ->
  thread_ok thr' ->
  best_ok (best_tour (glob s')) ->
  cost (best_tour (glob s')) <= cost (best_tour (glob s)) ->
  idle_ok s' ->
  (forall p e, is_tour n p -> e ∈ thread_frames t thr -> covers e p -> covered s' p) ->
  (forall p e, is_tour n p -> e ∈ mailbox_frames (glob s) -> covers e p -> covered s' p) ->
  inv s'.
Proof.
  intros [Hlen Hths Hbest Hbounds Hidle Hcov] Ht Hw Hbounds' Hthr' Hbest' Hle Hidle' Hf Hm.
  split; try done.
  - destruct Hw as [-> _]. by rewrite length_insert.
  - apply (others_woken_forall thread_ok _ _ _ _ Hw); [done|done|].
    apply thread_ok_woken.
  - intros p Hp. apply (covered_step s s' t thr thr' p); try done.
    + intros e. by apply Hf.
    + intros e. by apply Hm.
    + by apply Hcov.
Qed.

End Invariant.

(** ** The steps keep the invariant *)

(** The counts after the running thread has changed. *)
Ltac cnt_after Ht Hpc :=
  rewrite ?(cnt_insert _ _ _ _ _ Ht); unfold ind; rewrite ?Hpc; cbn [pc set_pc];
  repeat case_decide; try congruence.

Section Preservation.

Context (n : Z) (mat : list Z) (B : Z) (thread_count : Z) (garbage : Z -> Z).
Context {Hvalid : valid_matrix n mat B} {Hthreads : valid_threads n thread_count}.

(** The memory that [malloc] returns in [Fill_stack] holds zeros. *)
Hypothesis garbage_zero : forall i, garbage i = 0.

Abbreviation Inv := (inv n mat thread_count garbage).
Abbreviation IdleOk := (idle_ok n mat thread_count).
Abbreviation ThreadOk := (thread_ok n mat).
Abbreviation ThreadFrames := (thread_frames n mat thread_count garbage).
Abbreviation Covered := (covered n mat thread_count garbage).
Abbreviation StackOk := (stack_ok n mat).

Definition busy (p : pc_t) : Prop := p = AtTerminated \/ p = AtTrylock \/ p = InBody.

Definition not_idle (p : pc_t) : Prop := p <> InCondWait /\ p <> Woken /\ p <> Exited.

Lemma busy_not_idle p : busy p -> not_idle p.
Proof. intros [->|[->| ->]]; by repeat split. Qed.

(** A step of a thread that is not idle before and after it, and that leaves
    the count of the idle threads and the mailbox alone, keeps them fit. *)
Lemma idle_ok_not_idle s t thr thr' g' :
  IdleOk s ->
  threads s !! t = Some thr ->
  not_idle (pc thr) -> not_idle (pc thr') ->
  threads_in_cond_wait g' = threads_in_cond_wait (glob s) ->
  new_stack g' = new_stack (glob s) ->
  new_stack_size g' = new_stack_size (glob s) ->
  new_stack_top g' = new_stack_top (glob s) ->
  IdleOk (State g' (<[t := thr']> (threads s))).
Proof.
  intros [HW HNS] Ht (H1 & H2 & H3) (H1' & H2' & H3') EW ENS Esz Etop.
  assert (forall q, q = InCondWait \/ q = Woken \/ q = Exited ->
            cnt q (<[t := thr']> (threads s)) = cnt q (threads s)) as Hcnt.
  { intros q Hq. rewrite (cnt_insert _ _ _ _ _ Ht). unfold ind.
    destruct Hq as [->|[->| ->]]; repeat case_decide; try congruence; lia. }
  split; cbn [glob threads]; rewrite ?EW, ?ENS, ?Esz, ?Etop, !Hcnt by auto; done.
Qed.

(** An idle thread has nothing to work on. *)
Lemma thread_frames_top_0 t thr :
  pc thr <> AtStart -> top thr = 0 -> ThreadFrames t thr = [].
Proof.
  intros Hpc Htop. unfold thread_frames. rewrite Htop, frames_of_0.
  by destruct (pc thr).
Qed.

Lemma thread_lookup_insert (ths : list thread_t) t thr thr' :
  ths !! t = Some thr -> <[t := thr']> ths !! t = Some thr'.
Proof. intros Ht. apply list_lookup_insert_eq. by eapply lookup_lt_Some. Qed.

(** A thread that is not idle goes on to a place where it is not idle
    either, with the stack that it has. *)
Lemma inv_busy_set_pc s t thr p :
  Inv s ->
  threads s !! t = Some thr ->
  busy (pc thr) -> busy p ->
  ThreadOk (set_pc p thr) ->
  Inv (State (glob s) (<[t := set_pc p thr]> (threads s))).
Proof.
  intros Hinv Ht Hb Hp Hok.
  apply (inv_preserved n mat thread_count garbage s _ t thr (set_pc p thr));
    try done; cbn [glob threads].
  - apply others_woken_refl.
  - destruct (inv_bounds _ _ _ _ _ Hinv) as [Hinf Hloc]. split; [done|].
    intros u thr_u [(<- & <- & _)|[_ Hu]]%list_lookup_insert_Some Hpc; cbn.
    + apply (Hloc t thr Ht). destruct Hb as [->|[->| ->]]; done.
    + by apply (Hloc u thr_u).
  - apply (inv_best _ _ _ _ _ Hinv).
  - destruct (inv_idle _ _ _ _ _ Hinv) as [HW HNS].
    assert (forall q, q = InCondWait \/ q = Woken \/ q = Exited ->
              cnt q (<[t := set_pc p thr]> (threads s)) = cnt q (threads s)) as Hcnt.
    { intros q Hq. rewrite (cnt_insert _ _ _ _ _ Ht). unfold ind. cbn [pc set_pc].
      destruct Hq as [->|[->| ->]], Hb as [Hb|[Hb|Hb]], Hp as [->|[->| ->]];
        rewrite Hb; repeat case_decide; try congruence; lia. }
    split; cbn [glob threads]; rewrite !Hcnt by auto; done.
  - intros q e Hq He Hc. right. left. exists t, (set_pc p thr), e.
    split; [apply list_lookup_insert_eq; by eapply lookup_lt_Some|]. split; [|done].
    unfold ThreadFrames in *. cbn [pc set_pc stack top].
    destruct Hb as [Hb|[Hb|Hb]], Hp as [->|[->| ->]]; by rewrite Hb in He.
  - intros q e Hq He Hc. right. right. by exists e.
Qed.

(** *** A thread starts *)

Lemma valid_first_frame i :
  1 <= i <= n - 1 -> valid_frame n mat (first_frame n mat garbage i).
Proof.
  intros Hi. valid_facts. pose proof (B_nonneg n mat B).
  pose proof (edge_range n mat B 0 i).
  unfold valid_frame, frame_path, first_frame. cbn [tour_p elt_city elt_cost cities count cost].
  change (take (Z.to_nat 1) (0 :: replicate (Z.to_nat n) NO_CITY)) with [0].
  split; [cbn [length]; rewrite length_replicate; lia|]. split; [lia|]. split; [done|].
  split; [|split].
  - apply NoDup_cons. split; [|apply NoDup_singleton].
    intros Hx%list_elem_of_singleton. lia.
  - intros x [->|[->|?%elem_of_nil]%elem_of_cons]%elem_of_cons; (done || lia).
  - rewrite garbage_zero. cbn. rewrite int_add_small; [lia|]. unfold INT_MAX in *. nia.
Qed.

Lemma Search_start_ok (t : nat) :
  Z.of_nat t < thread_count ->
  exists thr',
    Search_start n mat thread_count garbage (Z.of_nat t) = Some thr' /\
    pc thr' = AtTerminated /\
    local_best thr' = Tour [] 0 INFINITY /\
    frames_of (stack thr') (top thr') = initial_frames n mat thread_count garbage (Z.of_nat t) /\
    StackOk (stack thr') (top thr') (size thr').
Proof.
  intros Ht. valid_facts.
  destruct (Fill_stack_ok n mat B thread_count garbage (Z.of_nat t)) as (p & Hfill & Hwf); [lia|].
  unfold Search_start. rewrite Hfill. cbn [mbind option_bind].
  eexists. split; [done|]. cbn [pc local_best stack top size].
  split; [done|]. split; [done|].
  pose proof (stack_wf_frames _ _ _ _ Hwf) as Hfr. split; [done|].
  split; rewrite Hfr; [done|].
  apply Forall_forall. intros e (i & -> & Hi)%list_elem_of_fmap.
  apply elem_of_seqZ in Hi.
  destruct (share_bounds n mat B thread_count (Z.of_nat t)) as (Hc & Hf & Hl); [lia|].
  unfold last_final_city in Hl. apply valid_first_frame. lia.
Qed.

Lemma inv_start s t thr thr' :
  Inv s ->
  threads s !! t = Some thr ->
  pc thr = AtStart ->
  Search_start n mat thread_count garbage (Z.of_nat t) = Some thr' ->
  Inv (State (glob s) (<[t := thr']> (threads s))).
Proof.
  intros Hinv Ht Hpc Hstart.
  destruct (Search_start_ok t) as (thr1 & Hs1 & Hpc' & Hlb & Hfr & Hok).
  { rewrite <- (inv_length _ _ _ _ _ Hinv). apply lookup_lt_Some in Ht. lia. }
  rewrite Hstart in Hs1. injection Hs1 as <-.
  apply (inv_preserved n mat thread_count garbage s _ t thr thr');
    try done; cbn [glob threads].
  - apply others_woken_refl.
  - destruct (inv_bounds _ _ _ _ _ Hinv) as [Hinf Hloc]. split; [done|].
    intros u thr_u [(<- & <- & _)|[_ Hu]]%list_lookup_insert_Some Hpcu; cbn.
    + by rewrite Hlb.
    + by apply (Hloc u thr_u).
  - unfold thread_ok. by rewrite Hpc'.
  - apply (inv_best _ _ _ _ _ Hinv).
  - destruct (inv_idle _ _ _ _ _ Hinv) as [HW HNS].
    assert (forall q, q = InCondWait \/ q = Woken \/ q = Exited ->
              cnt q (<[t := thr']> (threads s)) = cnt q (threads s)) as Hcnt.
    { intros q Hq. rewrite (cnt_insert _ _ _ _ _ Ht). unfold ind. rewrite Hpc, Hpc'.
      destruct Hq as [->|[->| ->]]; repeat case_decide; try congruence; lia. }
    split; cbn [glob threads]; rewrite !Hcnt by auto; done.
  - intros q e Hq He Hc. right. left. exists t, thr', e.
    split; [apply list_lookup_insert_eq; by eapply lookup_lt_Some|]. split; [|done].
    unfold thread_frames in *. rewrite Hpc in He. by rewrite Hpc', Hfr.
  - intros q e Hq He Hc. right. right. by exists e.
Qed.

(** *** A thread goes idle, or leaves *)

Lemma inv_wait s t thr :
  Inv s ->
  threads s !! t = Some thr ->
  pc thr = AtTerminated ->
  top thr = 0 ->
  ~ (threads_in_cond_wait (glob s) = thread_count - 1 /\ new_stack (glob s) = None) ->
  local_bounds_above (State (set_waiting (threads_in_cond_wait (glob s) + 1) (glob s))
                        (<[t := set_pc InCondWait thr]> (threads s))) ->
  Inv (State (set_waiting (threads_in_cond_wait (glob s) + 1) (glob s))
         (<[t := set_pc InCondWait thr]> (threads s))).
Proof.
  intros Hinv Ht Hpc Htop Hnl Hb.
  apply (inv_preserved n mat thread_count garbage s _ t thr (set_pc InCondWait thr));
    try done; cbn [glob threads].
  - apply others_woken_refl.
  - apply (inv_best _ _ _ _ _ Hinv).
  - destruct (inv_idle _ _ _ _ _ Hinv) as [HW HNS]. split; cbn [glob threads].
    + cbn. cnt_after Ht Hpc. lia.
    + cbn [set_waiting new_stack new_stack_size new_stack_top threads_in_cond_wait].
      cnt_after Ht Hpc. rewrite !Z.sub_0_r, !Z.add_0_r.
      destruct (new_stack (glob s)); [done|].
      destruct HNS as [(HnW & HnE & Hlt)|[HC HWt]].
      { left. split; [done|]. split; [done|].
        assert (threads_in_cond_wait (glob s) <> thread_count - 1) by (intros ?; by apply Hnl).
        lia. }
      exfalso.
      assert (cnt InCondWait (threads s) + cnt Woken (threads s) + cnt Exited (threads s)
              < Z.of_nat (length (threads s))) as Hlt
        by (apply (busy_thread_idle_count _ _ _ Ht); by rewrite Hpc).
      rewrite (inv_length _ _ _ _ _ Hinv) in Hlt. lia.
  - intros q e Hq He. rewrite thread_frames_top_0 in He by (done || by rewrite Hpc).
    by apply elem_of_nil in He.
  - intros q e Hq He Hc. right. right. by exists e.
Qed.

Lemma inv_last s t thr :
  Inv s ->
  threads s !! t = Some thr ->
  pc thr = AtTerminated ->
  top thr = 0 ->
  threads_in_cond_wait (glob s) = thread_count - 1 ->
  new_stack (glob s) = None ->
  local_bounds_above (State (set_waiting (threads_in_cond_wait (glob s) + 1) (glob s))
                        (cond_broadcast (<[t := set_pc Exited thr]> (threads s)))) ->
  Inv (State (set_waiting (threads_in_cond_wait (glob s) + 1) (glob s))
         (cond_broadcast (<[t := set_pc Exited thr]> (threads s)))).
Proof.
  intros Hinv Ht Hpc Htop HWl HNl Hb.
  apply (inv_preserved n mat thread_count garbage s _ t thr (set_pc Exited thr));
    try done; cbn [glob threads].
  - apply others_woken_broadcast.
  - apply (inv_best _ _ _ _ _ Hinv).
  - destruct (inv_idle _ _ _ _ _ Hinv) as [HW HNS]. split; cbn [glob threads].
    + cbn. rewrite !cnt_broadcast. cbn. cnt_after Ht Hpc. lia.
    + cbn [set_waiting new_stack new_stack_size new_stack_top threads_in_cond_wait].
      rewrite HNl. right. rewrite cnt_broadcast, decide_True by done. lia.
  - intros q e Hq He. rewrite thread_frames_top_0 in He by (done || by rewrite Hpc).
    by apply elem_of_nil in He.
  - intros q e Hq He Hc. right. right. by exists e.
Qed.

Lemma inv_exit s t thr :
  Inv s ->
  threads s !! t = Some thr ->
  pc thr = Woken ->
  ~ threads_in_cond_wait (glob s) < thread_count ->
  new_stack (glob s) = None ->
  local_bounds_above (State (glob s) (<[t := set_pc Exited thr]> (threads s))) ->
  Inv (State (glob s) (<[t := set_pc Exited thr]> (threads s))).
Proof.
  intros Hinv Ht Hpc HWl HNl Hb.
  pose proof (inv_threads _ _ _ _ _ Hinv t thr Ht) as Hok.
  unfold thread_ok in Hok. rewrite Hpc in Hok.
  apply (inv_preserved n mat thread_count garbage s _ t thr (set_pc Exited thr));
    try done; cbn [glob threads].
  - apply others_woken_refl.
  - apply (inv_best _ _ _ _ _ Hinv).
  - destruct (inv_idle _ _ _ _ _ Hinv) as [HW HNS]. rewrite HNl in HNS.
    pose proof (cnt_ge_1 _ _ _ Ht) as Hge. rewrite Hpc in Hge.
    split; cbn [glob threads].
    + cnt_after Ht Hpc. lia.
    + rewrite HNl. cnt_after Ht Hpc. right. lia.
  - intros q e Hq He. rewrite thread_frames_top_0 in He by (done || by rewrite Hpc).
    by apply elem_of_nil in He.
  - intros q e Hq He Hc. right. right. by exists e.
Qed.

(** *** A thread takes the stack in the mailbox *)

Lemma inv_take s t thr :
  Inv s ->
  threads s !! t = Some thr ->
  pc thr = Woken ->
  threads_in_cond_wait (glob s) < thread_count \/ new_stack (glob s) <> None ->
  let s' := State (Globals (best_tour (glob s)) (threads_in_cond_wait (glob s) - 1) None
                     (new_stack_size (glob s)) (new_stack_top (glob s)))
                  (<[t := Thread InBody (new_stack (glob s)) (new_stack_top (glob s))
                           (new_stack_size (glob s)) (local_best thr)]> (threads s)) in
  local_bounds_above s' -> Inv s'.
Proof.
  intros Hinv Ht Hpc Hwork s' Hb.
  pose proof (inv_threads _ _ _ _ _ Hinv t thr Ht) as Hok.
  unfold thread_ok in Hok. rewrite Hpc in Hok.
  destruct (inv_idle _ _ _ _ _ Hinv) as [HW HNS].
  pose proof (cnt_ge_1 _ _ _ Ht) as Hge. rewrite Hpc in Hge.
  destruct (new_stack (glob s)) as [a|] eqn:ENS.
  2:{ exfalso. destruct Hwork as [Hlt|?]; [|done]. lia. }
  destruct HNS as (HnW & HnE & Hsok & Htop).
  apply (inv_preserved n mat thread_count garbage s _ t thr
           (Thread InBody (Some a) (new_stack_top (glob s)) (new_stack_size (glob s))
              (local_best thr)));
    try done; unfold s'; cbn [glob threads].
  - apply others_woken_refl.
  - apply (inv_best _ _ _ _ _ Hinv).
  - pose proof (idle_count_le (threads s)) as Hle.
    rewrite (inv_length _ _ _ _ _ Hinv) in Hle.
    split; cbn [glob threads new_stack threads_in_cond_wait].
    + cnt_after Ht Hpc. lia.
    + left. cnt_after Ht Hpc. lia.
  - intros q e Hq He. rewrite thread_frames_top_0 in He by (done || by rewrite Hpc).
    by apply elem_of_nil in He.
  - intros q e Hq He Hc. right. left. eexists t, _, e.
    split; [by eapply thread_lookup_insert|]. split; [|done].
    unfold mailbox_frames in He. by rewrite ENS in He.
Qed.

(** *** A thread gives half of its stack away *)

Lemma evens_odds_elem {A} (l : list A) x : x ∈ l <-> x ∈ evens l \/ x ∈ odds l.
Proof. by rewrite <- elem_of_app, evens_odds_perm. Qed.

Lemma inv_split s t thr w stack' top' g' ths' :
  Inv s ->
  threads s !! t = Some thr ->
  pc thr = AtTrylock ->
  threads_in_cond_wait (glob s) > 0 ->
  new_stack (glob s) = None ->
  Split_stack (stack thr) (top thr) (glob s) = Some (stack', top', g') ->
  cond_signal w (<[t := Thread InBody stack' top' (size thr) (local_best thr)]> (threads s))
  = Some ths' ->
  local_bounds_above (State g' ths') ->
  Inv (State g' ths').
Proof.
  intros Hinv Ht Hpc HWp HNl Hsplit Hsig Hb.
  pose proof (inv_threads _ _ _ _ _ Hinv t thr Ht) as Hok.
  unfold thread_ok in Hok. rewrite Hpc in Hok.
  destruct Hok as [[Hwf Hval] Htop].
  set (fs := frames_of (stack thr) (top thr)) in *.
  destruct (Split_stack_ok _ _ (glob s) _ (proj1 Hwf) Htop)
    as (a & a2 & na & g1 & Hst & Hrun & Hl2 & Hkept & Hns & Hlna & Hgiven & Hnt & Hnsz
        & Hbest & HW1).
  rewrite Hsplit in Hrun. injection Hrun as -> -> <-.
  pose proof (stack_holds_frames _ _ _ Hkept) as Hfk.
  pose proof (stack_holds_frames _ _ _ Hgiven) as Hfg.
  set (thr' := Thread InBody (Some a2) ((top thr + 1) / 2) (size thr) (local_best thr)) in *.
  assert (IdleOk s) as [HW HNS] by apply (inv_idle _ _ _ _ _ Hinv).
  rewrite HNl in HNS.
  assert (cnt InCondWait (threads s) + cnt Woken (threads s) + cnt Exited (threads s)
          < thread_count) as Hlt.
  { rewrite <- (inv_length _ _ _ _ _ Hinv).
    apply (busy_thread_idle_count _ _ _ Ht); by rewrite Hpc. }
  destruct HNS as [(HnW & HnE & _)|[_ ?]]; [|lia].
  (* the signal wakes a thread *)
  apply cond_signal_cases in Hsig as [[-> Hnone]|(thr_w & Hw & Hpcw & ->)].
  { exfalso. apply cnt_zero in Hnone. rewrite (cnt_insert _ _ _ _ _ Ht) in Hnone.
    unfold ind in Hnone. rewrite Hpc in Hnone. cbn in Hnone.
    rewrite !decide_False in Hnone by done. lia. }
  assert (w <> t) as Hne.
  { intros ->. rewrite (thread_lookup_insert _ _ _ _ Ht) in Hw. by injection Hw as <-. }
  assert (threads s !! w = Some thr_w) as Hw0 by (by rewrite list_lookup_insert_ne in Hw).
  apply (inv_preserved n mat thread_count garbage s _ t thr thr');
    try done; cbn [glob threads].
  - split; [by rewrite length_insert|].
    intros u thr_u [(<- & <- & _)|[_ Hu]]%list_lookup_insert_Some; eauto.
  - unfold thread_ok. cbn [thr' pc stack top size].
    split; [|Z.to_euclidean_division_equations; lia]. split.
    + rewrite Hfk. split; [done|]. destruct Hwf as [_ (a0 & Ha0 & Hsz & Hsz1)].
      exists a2. split; [done|]. split; [|done]. rewrite Hst in Ha0. injection Ha0 as <-. lia.
    + rewrite Hfk. apply Forall_forall. intros e He. apply (proj1 (Forall_forall _ _) Hval).
      apply evens_odds_elem. by left.
  - rewrite Hbest. apply (inv_best _ _ _ _ _ Hinv).
  - rewrite Hbest. lia.
  - split; cbn [glob threads].
    + rewrite HW1, HW. rewrite !(cnt_insert _ _ _ _ _ Hw), !(cnt_insert _ _ _ _ _ Ht).
      unfold ind. rewrite Hpc, Hpcw. cbn. repeat case_decide; try congruence; lia.
    + rewrite Hns. rewrite !(cnt_insert _ _ _ _ _ Hw), !(cnt_insert _ _ _ _ _ Ht).
      unfold ind. rewrite Hpc, Hpcw. cbn [pc set_pc thr'].
      split; [repeat case_decide; try congruence; lia|].
      split; [repeat case_decide; try congruence; lia|].
      split; [|Z.to_euclidean_division_equations; lia].
      rewrite <- Hns. split.
      * rewrite Hfg. split; [done|]. exists na. split; [done|]. split; lia.
      * rewrite Hfg. apply Forall_forall. intros e He.
        apply (proj1 (Forall_forall _ _) Hval). apply evens_odds_elem. by right.
  - intros q e Hq He Hc. unfold thread_frames in He. rewrite Hpc in He.
    apply evens_odds_elem in He as [He|He].
    + right. left. exists t, thr', e. cbn [threads].
      split; [rewrite list_lookup_insert_ne by done; by eapply thread_lookup_insert|].
      split; [|done]. unfold thread_frames. cbn [thr' pc stack top]. by rewrite Hfk.
    + right. right. exists e. split; [|done]. unfold mailbox_frames. cbn [glob].
      by rewrite Hfg.
  - intros q e Hq He. unfold mailbox_frames in He. rewrite HNl in He.
    by apply elem_of_nil in He.
Qed.

(** *** A thread works on the element on top of its stack *)

Lemma best_ok_length b : best_ok n mat b -> Z.of_nat (length (cities b)) = n + 1.
Proof.
  valid_facts. intros [->|(p & Hp & _ & ->)]; cbn [cities].
  - rewrite length_replicate. lia.
  - cbn [length]. rewrite length_app. cbn [length].
    pose proof (is_tour_length n mat B p Hp). lia.
Qed.

Lemma covers_full e p q :
  valid_frame n mat e -> count (tour_p e) + 1 = n ->
  frame_path e = 0 :: p -> is_tour n q -> covers e q -> q = p.
Proof.
  intros He Hc Hp Hq [k Hk].
  pose proof (frame_path_length n mat e He) as Hl.
  pose proof (is_tour_length n mat B q Hq) as Hlq.
  destruct k as [|x k].
  - rewrite app_nil_r, Hp in Hk. by injection Hk.
  - apply (f_equal length) in Hk. rewrite length_app in Hk. cbn [length] in Hk. lia.
Qed.

Lemma inv_body s t thr thr' g' :
  Inv s ->
  threads s !! t = Some thr ->
  pc thr = InBody ->
  Search_body n mat thr (glob s) = Some (thr', g') ->
  local_bounds_above (State g' (<[t := thr']> (threads s))) ->
  Inv (State g' (<[t := thr']> (threads s))).
Proof.
  intros Hinv Ht Hpc Hbody Hb. valid_facts.
  pose proof (inv_threads _ _ _ _ _ Hinv t thr Ht) as Hok.
  unfold thread_ok in Hok. rewrite Hpc in Hok.
  destruct Hok as [[Hwf Hval] Htop].
  assert (exists fs e, frames_of (stack thr) (top thr) = fs ++ [e]) as (fs & e & Hfs).
  { destruct (stack_wf_top _ _ _ _ Hwf) as [Hlen _].
    destruct (frames_of (stack thr) (top thr)) as [|e fs _] using rev_ind; [simpl in Hlen; lia|].
    by exists fs, e. }
  rewrite Hfs in Hwf, Hval. apply Forall_app in Hval as [Hvfs [He _]%Forall_cons].
  assert (ThreadFrames t thr = fs ++ [e]) as Hframes.
  { unfold thread_frames. by rewrite Hpc. }
  assert (not_idle (pc thr)) as Hni by (rewrite Hpc; by repeat split).
  pose proof (inv_bounds _ _ _ _ _ Hinv) as [Hinf Hloc].
  assert (cost (best_tour (glob s)) <= cost (local_best thr)) as Hlb.
  { apply (Hloc t thr Ht). by rewrite Hpc. }
  pose proof He as (_ & Hc & _).
  destruct (decide (count (tour_p e) + 1 = n)) as [Hfull|Hpart].
  - (* the tour is complete *)
    destruct (Search_body_complete n mat B thr (glob s) fs e Hwf He Hfull)
      as (p & stack' & Hq & Hp & Hwf' & Hrun).
    { apply best_ok_length, (inv_best _ _ _ _ _ Hinv). }
    rewrite Hbody in Hrun. pose proof (stack_wf_frames _ _ _ _ Hwf') as Hfr'.
    assert (forall lb, ThreadOk (Thread AtTerminated stack' (top thr - 1) (size thr) lb))
      as Hok'.
    { intros lb. unfold thread_ok. cbn [pc stack top size]. split; by rewrite Hfr'. }
    assert (forall lb e0, e0 ∈ fs ->
              e0 ∈ ThreadFrames t (Thread AtTerminated stack' (top thr - 1) (size thr) lb))
      as Hkeep.
    { intros lb e0 He0. unfold thread_frames. cbn [pc stack top]. by rewrite Hfr'. }
    case_decide as Hlt; injection Hrun as -> ->.
    + lazymatch goal with
      | |- inv _ _ _ _ (State _ (<[t := ?x]> _)) =>
          apply (inv_preserved n mat thread_count garbage s _ t thr x Hinv Ht)
      end;
        try done; cbn [glob threads best_tour cost].
      * apply others_woken_refl.
      * right. exists p. split; [done|]. split; [lia|done].
      * lia.
      * apply (idle_ok_not_idle s t thr); try done;
        first [apply (inv_idle _ _ _ _ _ Hinv) | by repeat split].
      * intros q e0 Hq0 He0 Hcov. rewrite Hframes in He0.
        apply elem_of_app in He0 as [He0| ->%list_elem_of_singleton].
        -- right. left. eexists t, _, e0. split; [by eapply thread_lookup_insert|].
           split; [apply Hkeep|]; done.
        -- left. cbn [glob best_tour cost].
           by rewrite (covers_full _ _ _ He Hfull Hq Hq0 Hcov).
      * intros q e0 Hq0 He0 Hcov. right. right. by exists e0.
    + lazymatch goal with
      | |- inv _ _ _ _ (State _ (<[t := ?x]> _)) =>
          apply (inv_preserved n mat thread_count garbage s _ t thr x Hinv Ht)
      end;
        try done; cbn [glob threads].
      * apply others_woken_refl.
      * apply (inv_best _ _ _ _ _ Hinv).
      * apply (idle_ok_not_idle s t thr); try done;
        first [apply (inv_idle _ _ _ _ _ Hinv) | by repeat split].
      * intros q e0 Hq0 He0 Hcov. rewrite Hframes in He0.
        apply elem_of_app in He0 as [He0| ->%list_elem_of_singleton].
        -- right. left. eexists t, _, e0. split; [by eapply thread_lookup_insert|].
           split; [apply Hkeep|]; done.
        -- left. cbn [glob best_tour cost].
           rewrite (covers_full _ _ _ He Hfull Hq Hq0 Hcov). lia.
      * intros q e0 Hq0 He0 Hcov. right. right. by exists e0.
  - (* the tour goes on *)
    destruct (Search_body_expand n mat B thr (glob s) fs e Hwf He)
      as (stack' & top' & size' & Hrun & Hwf'); [lia|].
    rewrite Hbody in Hrun. injection Hrun as -> ->.
    pose proof (stack_wf_frames _ _ _ _ Hwf') as Hfr'.
    lazymatch goal with
      | |- inv _ _ _ _ (State _ (<[t := ?x]> _)) =>
          apply (inv_preserved n mat thread_count garbage s _ t thr x Hinv Ht)
      end;
      try done; cbn [glob threads].
    + apply others_woken_refl.
    + unfold thread_ok, stack_ok. cbn [pc stack top size].
      rewrite Hfr'. split; [done|].
      apply Forall_app. split; [done|]. apply valid_children; [done|lia].
    + apply (inv_best _ _ _ _ _ Hinv).
    + apply (idle_ok_not_idle s t thr); try done;
        first [apply (inv_idle _ _ _ _ _ Hinv) | by repeat split].
    + intros q e0 Hq0 He0 Hcov. rewrite Hframes in He0.
      assert (forall e1, e1 ∈ fs ++ children n mat e (cost (local_best thr)) ->
                covers e1 q ->
                Covered (State (glob s)
                           (<[t := Thread AtTerminated stack' top' size' (local_best thr)]>
                              (threads s))) q) as Hin.
      { intros e1 He1 Hc1. right. left. eexists t, _, e1.
        split; [by eapply thread_lookup_insert|]. split; [|done].
        unfold thread_frames. cbn [pc stack top]. by rewrite Hfr'. }
      apply elem_of_app in He0 as [He0| ->%list_elem_of_singleton].
      * apply (Hin e0); [|done]. apply elem_of_app. by left.
      * destruct (covers_children n mat B e (cost (local_best thr)) q He) as
          [(e1 & He1 & Hc1)|Hge]; [lia|done|done| |].
        -- apply (Hin e1); [|done]. apply elem_of_app. by right.
        -- left. cbn [glob best_tour cost]. lia.
    + intros q e0 Hq0 He0 Hcov. right. right. by exists e0.
Qed.

(** *** Every step but a spurious wakeup keeps the invariant *)

Definition no_spurious (a : action) : Prop := forall t, a <> SpuriousWakeup t.

Lemma inv_step a s s' :
  no_spurious a ->
  Inv s ->
  step n mat thread_count garbage a s = Ok s' ->
  Inv s'.
Proof.
  intros Hns Hinv Hstep.
  pose proof (local_bounds_above_step _ _ _ _ _ _ _ Hstep (inv_bounds _ _ _ _ _ Hinv)) as Hb.
  apply step_inv in Hstep as (t & thr & thr' & g' & m & Ht & H & ths' & Hw & ->).
  pose proof (inv_threads _ _ _ _ _ Hinv t thr Ht) as Hok.
  unfold thread_ok in Hok.
  destruct H as [thr1 _ Hpc Hs| _ Hpc Htop HW HN| _ Hpc Htest Htop| _ Hpc Htop HW HN
                | _ Hpc Htop Hnl| w st' tp' g1 _ Hpc HW HN Hsp| _ Hpc Hno| _ Hpc
                | _ Hpc Hwork| _ Hpc HW HN| thr1 g1 _ Hpc Hbody| Ha Hpc];
    cbn [apply_wake] in Hw; try injection Hw as <-; rewrite Hpc in Hok.
  - by apply inv_start with thr.
  - apply (inv_busy_set_pc s t thr AtTrylock Hinv Ht).
    + rewrite Hpc. by left.
    + right. by left.
    + unfold thread_ok. cbn. split; [done|lia].
  - apply (inv_busy_set_pc s t thr InBody Hinv Ht).
    + rewrite Hpc. by left.
    + right. by right.
    + unfold thread_ok. cbn. split; [done|].
      destruct (stack_wf_top _ _ _ _ (proj1 Hok)). lia.
  - by apply inv_last.
  - by apply inv_wait.
  - by apply (inv_split s t thr w st' tp' g1 ths').
  - apply (inv_busy_set_pc s t thr InBody Hinv Ht).
    + rewrite Hpc. right. by left.
    + right. by right.
    + unfold thread_ok. cbn. split; [apply Hok|]. destruct Hok. lia.
  - apply (inv_busy_set_pc s t thr InBody Hinv Ht).
    + rewrite Hpc. right. by left.
    + right. by right.
    + unfold thread_ok. cbn. split; [apply Hok|]. destruct Hok. lia.
  - by apply inv_take.
  - by apply inv_exit.
  - by apply inv_body with thr.
  - by destruct (Hns t).
Qed.

(** *** No step runs into undefined behaviour *)

Lemma step_defined a s :
  Inv s -> step n mat thread_count garbage a s <> Undefined.
Proof.
  intros Hinv. destruct a as [t w|t|t]; cbn [step];
    destruct (threads s !! t) as [thr|] eqn:Ht; try done.
  2,3: by destruct (pc thr).
  pose proof (inv_threads _ _ _ _ _ Hinv t thr Ht) as Hok.
  unfold thread_ok in Hok.
  unfold step_thread. destruct (pc thr) eqn:Hpc; try done.
  - destruct (Search_start_ok t) as (thr' & -> & _); [|done].
    rewrite <- (inv_length _ _ _ _ _ Hinv). apply lookup_lt_Some in Ht. lia.
  - destruct (Terminated_test _ _); [done|]. destruct (negb _); [done|].
    unfold Terminated_idle. by destruct (_ && _).
  - unfold Terminated_split. destruct (_ && _); [|done].
    destruct Hok as [[Hwf _] Htop].
    destruct (Split_stack_ok _ _ (glob s) _ (proj1 Hwf) Htop)
      as (a & a2 & na & g1 & _ & -> & _).
    cbn [mbind option_bind]. by destruct (cond_signal _ _).
  - by destruct (Terminated_awakened _ _) as [[[[? ?] ?] ?]|].
  - destruct Hok as [[Hwf Hval] Htop].
    assert (exists fs e, frames_of (stack thr) (top thr) = fs ++ [e]) as (fs & e & Hfs).
    { destruct (stack_wf_top _ _ _ _ Hwf) as [Hlen _].
      destruct (frames_of (stack thr) (top thr)) as [|e fs _] using rev_ind;
        [simpl in Hlen; lia|]. by exists fs, e. }
    rewrite Hfs in Hwf, Hval. apply Forall_app in Hval as [_ [He _]%Forall_cons].
    pose proof He as (_ & Hc & _).
    destruct (decide (count (tour_p e) + 1 = n)) as [Hfull|Hpart].
    + destruct (Search_body_complete n mat B thr (glob s) fs e Hwf He Hfull)
        as (p & stack' & _ & _ & _ & ->); [|by case_decide].
      apply best_ok_length, (inv_best _ _ _ _ _ Hinv).
    + destruct (Search_body_expand n mat B thr (glob s) fs e Hwf He)
        as (stack' & top' & size' & -> & _); [lia|done].
Qed.

(** *** The initial state *)

Lemma cnt_replicate p k thr : pc thr <> p -> cnt p (replicate k thr) = 0.
Proof.
  intros Hne. apply cnt_zero. intros t thr' [-> _]%lookup_replicate. done.
Qed.

Lemma inv_initial s :
  initial_state n thread_count = Some s -> Inv s.
Proof.
  intros H0. valid_facts. pose proof (initial_state_shape _ _ _ H0) as [Hg Hths].
  split.
  - rewrite Hths, length_replicate. lia.
  - intros t thr Ht. rewrite Hths in Ht. apply lookup_replicate in Ht as [-> _]. done.
  - rewrite Hg. by left.
  - by eapply local_bounds_above_initial.
  - split; rewrite Hg, Hths; cbn [threads_in_cond_wait new_stack].
    + by rewrite !cnt_replicate.
    + left. rewrite !cnt_replicate by done. lia.
  - intros p Hp. pose proof (is_tour_length n mat B p Hp) as Hlen.
    destruct p as [|i p]; [simpl in Hlen; lia|].
    assert (1 <= i < n) as Hi by (apply (is_tour_elem n _ _ Hp), list_elem_of_here).
    destruct (share_cover n mat B thread_count i) as (r & Hr & Hfirst & Hlast); [lia|].
    right. left. exists (Z.to_nat r), (Thread AtStart None 0 0 (Tour [] 0 0)),
      (first_frame n mat garbage i).
    split; [rewrite Hths; apply lookup_replicate; split; [done|lia]|]. split.
    + unfold thread_frames. cbn [pc]. rewrite Z2Nat.id by lia.
      unfold initial_frames. apply list_elem_of_fmap_2, elem_of_seqZ.
      unfold last_final_city in Hlast. lia.
    + exists p. done.
Qed.

(** *** Runs *)

Lemma inv_run sched s s' :
  Forall no_spurious sched ->
  Inv s ->
  run n mat thread_count garbage sched s = Ok s' ->
  Inv s'.
Proof.
  revert s. induction sched as [|a sched IH]; intros s Hns Hinv Hrun; cbn in Hrun.
  - by injection Hrun as <-.
  - apply Forall_cons in Hns as [Ha Hns].
    destruct (step _ _ _ _ a s) as [s1| |] eqn:Hstep; try discriminate Hrun.
    apply (IH s1); [done| |done]. by apply (inv_step a s).
Qed.

Lemma run_defined sched s :
  Forall no_spurious sched ->
  Inv s ->
  run n mat thread_count garbage sched s <> Undefined.
Proof.
  revert s. induction sched as [|a sched IH]; intros s Hns Hinv; cbn; [done|].
  apply Forall_cons in Hns as [Ha Hns].
  destruct (step _ _ _ _ a s) as [s1| |] eqn:Hstep; [| |done].
  - apply IH; [done|]. by apply (inv_step a s).
  - by destruct (step_defined a s Hinv).
Qed.

(** When all the threads have left, no tour is cheaper than the best
    tour. *)
Lemma inv_all_exited s p :
  Inv s ->
  (forall t thr, threads s !! t = Some thr -> pc thr = Exited) ->
  is_tour n p ->
  cost (best_tour (glob s)) <= tour_cost n mat p.
Proof.
  intros Hinv Hall Hp. valid_facts.
  destruct (inv_covered _ _ _ _ _ Hinv p Hp)
    as [Hle|[(t & thr & e & Ht & He & _)|(e & He & _)]]; [done| |]; exfalso.
  - pose proof (inv_threads _ _ _ _ _ Hinv t thr Ht) as Hok.
    unfold thread_ok in Hok. rewrite (Hall t thr Ht) in Hok.
    rewrite thread_frames_top_0 in He; [by apply elem_of_nil in He| |done].
    by rewrite (Hall t thr Ht).
  - destruct (inv_idle _ _ _ _ _ Hinv) as [_ HNS].
    unfold mailbox_frames in He.
    destruct (new_stack (glob s)) as [a|]; [|by apply elem_of_nil in He].
    destruct HNS as (_ & HE & _).
    destruct (lookup_lt_is_Some_2 (threads s) 0) as [thr Hthr].
    { pose proof (inv_length _ _ _ _ _ Hinv). lia. }
    pose proof (cnt_ge_1 _ _ _ Hthr) as Hge. rewrite (Hall 0%nat thr Hthr) in Hge. lia.
Qed.

End Preservation.

(** ** Every run comes to an end *)

(** The work that an element of a stack stands for: an element with [d]
    cities to come after its own is popped once, and leaves at most [n - 1]
    elements with [d - 1] cities to come. *)
Fixpoint wt (n : Z) (d : nat) : Z :=
  match d with
  | O => 1
  | S d => 1 + (n - 1) * wt n d
  end.

Definition frame_weight (n : Z) (e : stack_elt_t) : Z :=
  wt n (Z.to_nat (n - 1 - count (tour_p e))).

Definition sumZ (l : list Z) : Z := foldr Z.add 0 l.

Definition frames_weight (n : Z) (fs : list stack_elt_t) : Z :=
  sumZ (frame_weight n <$> fs).

(** The steps that a thread takes at most from a place of [Search] to the
    next [Pop], or to its end. *)
Definition rank (p : pc_t) : Z :=
  match p with
  | AtStart => 6
  | AtTerminated => 5
  | AtTrylock => 4
  | InCondWait => 3
  | Woken => 2
  | InBody => 1
  | Exited => 0
  end.

Definition all_exited (s : state) : Prop :=
  forall t thr, threads s !! t = Some thr -> pc thr = Exited.

Lemma wt_pos n d : 2 <= n -> 1 <= wt n d.
Proof. intros Hn. induction d as [|d IH]; cbn [wt]; nia. Qed.

Lemma sumZ_app l1 l2 : sumZ (l1 ++ l2) = sumZ l1 + sumZ l2.
Proof. unfold sumZ. induction l1 as [|x l1 IH]; cbn; lia. Qed.

Lemma sumZ_perm l1 l2 : l1 ≡ₚ l2 -> sumZ l1 = sumZ l2.
Proof. unfold sumZ. induction 1; cbn; lia. Qed.

Lemma sumZ_imap_insert {A} (f : nat -> A -> Z) l t x x' :
  l !! t = Some x ->
  sumZ (imap f (<[t := x']> l)) = sumZ (imap f l) - f t x + f t x'.
Proof.
  revert f t. induction l as [|y l IH]; intros f [|t] Ht; try done.
  - injection Ht as ->. cbn. unfold sumZ. cbn. lia.
  - cbn in Ht. change (<[S t := x']> (y :: l)) with (y :: <[t := x']> l).
    rewrite !imap_cons. unfold sumZ in *. cbn [foldr].
    rewrite (IH (f ∘ S) t Ht). cbn. lia.
Qed.

Lemma sumZ_imap_le {A} (f : nat -> A -> Z) l l' :
  length l' = length l ->
  (forall u x x', l !! u = Some x -> l' !! u = Some x' -> f u x' <= f u x) ->
  sumZ (imap f l') <= sumZ (imap f l).
Proof.
  revert f l'. induction l as [|y l IH]; intros f [|y' l'] Hlen Hle; try done.
  rewrite !imap_cons. unfold sumZ in *. cbn [foldr].
  pose proof (Hle 0%nat y y' eq_refl eq_refl).
  pose proof (IH (f ∘ S) l' ltac:(by injection Hlen)
                (fun u x x' Hx Hx' => Hle (S u) x x' Hx Hx')).
  lia.
Qed.

Lemma sumZ_imap_nonneg {A} (f : nat -> A -> Z) l :
  (forall u x, 0 <= f u x) -> 0 <= sumZ (imap f l).
Proof.
  revert f. induction l as [|y l IH]; intros f Hf; [done|].
  rewrite imap_cons. unfold sumZ in *. cbn [foldr].
  pose proof (Hf 0%nat y). pose proof (IH (f ∘ S) (fun u x => Hf (S u) x)). lia.
Qed.

Lemma sumZ_imap_bound {A} (f : nat -> A -> Z) l b :
  (forall u x, l !! u = Some x -> f u x <= b) ->
  sumZ (imap f l) <= Z.of_nat (length l) * b.
Proof.
  revert f. induction l as [|y l IH]; intros f Hf; [done|].
  rewrite imap_cons. unfold sumZ in *. cbn [foldr length].
  pose proof (Hf 0%nat y eq_refl).
  pose proof (IH (f ∘ S) (fun u x Hx => Hf (S u) x Hx)). lia.
Qed.

Lemma frames_weight_app n fs1 fs2 :
  frames_weight n (fs1 ++ fs2) = frames_weight n fs1 + frames_weight n fs2.
Proof. unfold frames_weight. by rewrite fmap_app, sumZ_app. Qed.

Lemma frames_weight_perm n fs1 fs2 :
  fs1 ≡ₚ fs2 -> frames_weight n fs1 = frames_weight n fs2.
Proof. intros H. unfold frames_weight. apply sumZ_perm. by rewrite H. Qed.

Lemma frames_weight_nonneg n fs : 2 <= n -> 0 <= frames_weight n fs.
Proof.
  intros Hn. unfold frames_weight, sumZ. induction fs as [|e fs IH]; cbn; [done|].
  pose proof (wt_pos n (Z.to_nat (n - 1 - count (tour_p e))) Hn).
  unfold frame_weight at 1. lia.
Qed.

(** Elements of one weight. *)
Lemma frames_weight_const n fs w :
  (forall e, e ∈ fs -> frame_weight n e = w) ->
  frames_weight n fs = Z.of_nat (length fs) * w.
Proof.
  unfold frames_weight, sumZ. induction fs as [|e fs IH]; intros Hw; [done|].
  cbn [fmap list_fmap foldr length].
  rewrite (Hw e) by apply list_elem_of_here.
  fold (frame_weight n <$> fs). rewrite IH; [lia|].
  intros e' He'. apply Hw. by apply list_elem_of_further.
Qed.

Lemma run_app n mat thread_count garbage sched1 sched2 s :
  run n mat thread_count garbage (sched1 ++ sched2) s
  = match run n mat thread_count garbage sched1 s with
    | Ok s1 => run n mat thread_count garbage sched2 s1
    | o => o
    end.
Proof.
  revert s. induction sched1 as [|a sched1 IH]; intros s; cbn; [done|].
  by destruct (step _ _ _ _ a s).
Qed.

Lemma all_exited_dec s :
  all_exited s \/ exists t thr, threads s !! t = Some thr /\ pc thr <> Exited.
Proof.
  destruct (decide (Forall (fun thr => pc thr = Exited) (threads s))) as [Hall|Hex].
  - left. intros t thr Ht. by apply (proj1 (Forall_lookup _ _) Hall t).
  - right. apply not_Forall_Exists in Hex; [|apply _].
    apply Exists_exists in Hex as (thr & [t Ht]%list_elem_of_lookup & Hpc).
    by exists t, thr.
Qed.

Section Termination.

Context (n : Z) (mat : list Z) (B : Z) (thread_count : Z) (garbage : Z -> Z).
Context {Hvalid : valid_matrix n mat B} {Hthreads : valid_threads n thread_count}.

Hypothesis garbage_zero : forall i, garbage i = 0.

Abbreviation Inv := (inv n mat thread_count garbage).

(** What is left to do for a thread, and in all. *)
Definition thread_measure (t : nat) (thr : thread_t) : Z :=
  5 * frames_weight n (thread_frames n mat thread_count garbage t thr) + rank (pc thr).

Definition measure (s : state) : Z :=
  sumZ (imap thread_measure (threads s)) + 5 * frames_weight n (mailbox_frames (glob s)).

(** A bound of the measure of the initial state. *)
Definition search_bound : Z := thread_count * (5 * wt n (Z.to_nat (n - 1)) + 1).

Lemma thread_measure_nonneg t thr : 0 <= thread_measure t thr.
Proof.
  valid_facts. unfold thread_measure.
  pose proof (frames_weight_nonneg n (thread_frames n mat thread_count garbage t thr)).
  destruct (pc thr); cbn; lia.
Qed.

Lemma measure_nonneg s : 0 <= measure s.
Proof.
  valid_facts. unfold measure.
  pose proof (sumZ_imap_nonneg thread_measure (threads s) thread_measure_nonneg).
  pose proof (frames_weight_nonneg n (mailbox_frames (glob s))). lia.
Qed.

(** *** The work goes down with the elements *)

Lemma children_weight e bound :
  valid_frame n mat e -> count (tour_p e) + 1 < n ->
  frames_weight n (children n mat e bound) + 1 <= frame_weight n e.
Proof.
  intros He Hc. valid_facts. pose proof He as (_ & Hc' & _).
  set (d := Z.to_nat (n - 1 - (count (tour_p e) + 1))).
  rewrite (frames_weight_const n _ (wt n d)).
  - unfold frame_weight.
    replace (Z.to_nat (n - 1 - count (tour_p e))) with (S d) by lia. cbn [wt].
    unfold children, children_above. rewrite length_fmap.
    pose proof (length_filter (reachable n mat e bound) (reverse (seqZ (0 + 1) (n - 1 - 0))))
      as Hlen.
    rewrite length_reverse, length_seqZ in Hlen.
    pose proof (wt_pos n d Hv_n). nia.
  - intros e' He'. unfold children, children_above in He'.
    by apply list_elem_of_fmap in He' as (nbr & -> & _).
Qed.

Lemma initial_frames_weight my_rank :
  0 <= my_rank < thread_count ->
  5 * frames_weight n (initial_frames n mat thread_count garbage my_rank) + 6
  <= 5 * wt n (Z.to_nat (n - 1)) + 1.
Proof.
  intros Hr. valid_facts.
  destruct (share_bounds n mat B thread_count my_rank Hr) as (Hc & Hf & Hl).
  unfold last_final_city in Hl.
  set (d := Z.to_nat (n - 2)).
  rewrite (frames_weight_const n _ (wt n d)).
  - unfold initial_frames. rewrite length_fmap, length_seqZ.
    replace (Z.to_nat (n - 1)) with (S d) by lia. cbn [wt].
    pose proof (wt_pos n d Hv_n). nia.
  - intros e (i & -> & _)%list_elem_of_fmap. unfold frame_weight, first_frame. cbn.
    by replace (n - 1 - 1) with (n - 2) by lia.
Qed.

(** *** Every step but a spurious wakeup takes from the measure *)

Lemma thread_step_measure a s t thr thr' g' m :
  no_spurious a ->
  Inv s ->
  threads s !! t = Some thr ->
  thread_step n mat thread_count garbage a t thr (glob s) thr' g' m ->
  thread_measure t thr' + 5 * frames_weight n (mailbox_frames g')
  < thread_measure t thr + 5 * frames_weight n (mailbox_frames (glob s)).
Proof.
  intros Hns Hinv Ht H. valid_facts.
  pose proof (inv_threads _ _ _ _ _ Hinv t thr Ht) as Hok. unfold thread_ok in Hok.
  unfold thread_measure, thread_frames.
  destruct H as [thr1 _ Hpc Hs| _ Hpc Htop HW HN| _ Hpc Htest Htop| _ Hpc Htop HW HN
                | _ Hpc Htop Hnl| w st' tp' g1 _ Hpc HW HN Hsp| _ Hpc Hno| _ Hpc
                | _ Hpc Hwork| _ Hpc HW HN| thr1 g1 _ Hpc Hbody| Ha Hpc];
    rewrite Hpc in *; cbn [set_pc pc stack top rank].
  - destruct (Search_start_ok n mat B thread_count garbage garbage_zero t)
      as (thr2 & Hs2 & Hpc' & _ & Hfr & _).
    { rewrite <- (inv_length _ _ _ _ _ Hinv). apply lookup_lt_Some in Ht. lia. }
    rewrite Hs in Hs2. injection Hs2 as <-. rewrite Hpc', Hfr. cbn [rank]. lia.
  - lia.
  - lia.
  - unfold mailbox_frames. cbn [set_waiting new_stack new_stack_top]. lia.
  - unfold mailbox_frames. cbn [set_waiting new_stack new_stack_top]. lia.
  - destruct Hok as [[Hwf Hval] Htop].
    destruct (Split_stack_ok _ _ (glob s) _ (proj1 Hwf) Htop)
      as (a0 & a2 & na & g2 & Hst & Hrun & Hl2 & Hkept & Hns' & Hlna & Hgiven & _).
    rewrite Hsp in Hrun. injection Hrun as -> -> <-.
    rewrite (stack_holds_frames _ _ _ Hkept). unfold mailbox_frames.
    rewrite (stack_holds_frames _ _ _ Hgiven), HN. cbn [frames_of].
    pose proof (frames_weight_perm n _ _ (evens_odds_perm (frames_of (stack thr) (top thr))))
      as Hperm.
    rewrite frames_weight_app in Hperm. change (frames_weight n []) with 0. lia.
  - lia.
  - lia.
  - rewrite Hok, frames_of_0. unfold mailbox_frames. cbn [new_stack new_stack_top frames_of].
    change (frames_weight n []) with 0. lia.
  - lia.
  - destruct Hok as [[Hwf Hval] Htop].
    assert (exists fs e, frames_of (stack thr) (top thr) = fs ++ [e]) as (fs & e & Hfs).
    { destruct (stack_wf_top _ _ _ _ Hwf) as [Hlen _].
      destruct (frames_of (stack thr) (top thr)) as [|e fs _] using rev_ind;
        [simpl in Hlen; lia|]. by exists fs, e. }
    rewrite Hfs in Hwf, Hval. apply Forall_app in Hval as [_ [He _]%Forall_cons].
    pose proof He as (_ & Hc & _).
    rewrite Hfs, frames_weight_app.
    assert (frames_weight n [e] = frame_weight n e) as -> by (unfold frames_weight; cbn; lia).
    pose proof (wt_pos n (Z.to_nat (n - 1 - count (tour_p e))) Hv_n) as Hpos.
    fold (frame_weight n e) in Hpos.
    destruct (decide (count (tour_p e) + 1 = n)) as [Hfull|Hpart].
    + destruct (Search_body_complete n mat B thr (glob s) fs e Hwf He Hfull)
        as (p & stack' & _ & _ & Hwf' & Hrun).
      { apply (best_ok_length n mat B thread_count), (inv_best _ _ _ _ _ Hinv). }
      rewrite Hbody in Hrun. pose proof (stack_wf_frames _ _ _ _ Hwf') as Hfr'.
      case_decide; injection Hrun as -> ->; cbn [pc stack top rank];
        rewrite Hfr'; unfold mailbox_frames; cbn [new_stack new_stack_top]; lia.
    + destruct (Search_body_expand n mat B thr (glob s) fs e Hwf He)
        as (stack' & top' & size' & Hrun & Hwf'); [lia|].
      rewrite Hbody in Hrun. injection Hrun as -> ->. cbn [pc stack top rank].
      rewrite (stack_wf_frames _ _ _ _ Hwf'), frames_weight_app.
      pose proof (children_weight e (cost (local_best thr)) He). lia.
  - by destruct (Hns t).
Qed.

Lemma measure_step a s s' :
  no_spurious a ->
  Inv s ->
  step n mat thread_count garbage a s = Ok s' ->
  measure s' < measure s.
Proof.
  intros Hns Hinv Hstep.
  apply step_inv in Hstep as (t & thr & thr' & g' & m & Ht & H & ths' & Hw & ->).
  pose proof (thread_step_measure a s t thr thr' g' m Hns Hinv Ht H) as Hlt.
  apply apply_wake_others in Hw. unfold measure. cbn [glob threads].
  assert (sumZ (imap thread_measure ths')
          <= sumZ (imap thread_measure (<[t := thr']> (threads s)))) as Hle.
  { destruct Hw as [Hlen Hw]. apply sumZ_imap_le; [done|].
    intros u x x' Hx Hx'. destruct (Hw u x' Hx') as (x0 & Hx0 & Hcase).
    rewrite Hx in Hx0. injection Hx0 as <-.
    destruct Hcase as [->|[Hpc ->]]; [lia|].
    unfold thread_measure, thread_frames. cbn [set_pc pc stack top]. rewrite Hpc.
    cbn [rank]. lia. }
  rewrite (sumZ_imap_insert _ _ _ _ _ Ht) in Hle. lia.
Qed.

(** A run without a spurious wakeup is no longer than the measure of the
    state from which it starts. *)
Lemma run_measure sched s s' :
  Forall no_spurious sched ->
  Inv s ->
  run n mat thread_count garbage sched s = Ok s' ->
  Z.of_nat (length sched) + measure s' <= measure s.
Proof.
  revert s. induction sched as [|a sched IH]; intros s Hns Hinv Hrun; cbn in Hrun.
  - injection Hrun as <-. cbn [length]. lia.
  - apply Forall_cons in Hns as [Ha Hns].
    destruct (step _ _ _ _ a s) as [s1| |] eqn:Hstep; try discriminate Hrun.
    pose proof (measure_step a s s1 Ha Hinv Hstep).
    pose proof (inv_step n mat B thread_count garbage garbage_zero a s s1 Ha Hinv Hstep).
    specialize (IH s1 Hns ltac:(done) Hrun). cbn [length]. lia.
Qed.

Lemma measure_initial s :
  initial_state n thread_count = Some s -> measure s <= search_bound.
Proof.
  intros H0. valid_facts. pose proof (initial_state_shape _ _ _ H0) as [Hg Hths].
  unfold measure, search_bound. rewrite Hg, Hths. unfold mailbox_frames.
  cbn [new_stack frames_of]. change (frames_weight n []) with 0.
  pose proof (sumZ_imap_bound thread_measure
                (replicate (Z.to_nat thread_count) (Thread AtStart None 0 0 (Tour [] 0 0)))
                (5 * wt n (Z.to_nat (n - 1)) + 1)) as Hb.
  rewrite length_replicate in Hb. rewrite Z2Nat.id in Hb by lia.
  rewrite Z.mul_0_r, Z.add_0_r. apply Hb.
  intros u x [-> Hu]%lookup_replicate. unfold thread_measure, thread_frames. cbn [pc rank].
  apply initial_frames_weight. lia.
Qed.

(** *** A thread that does not wait can take its step *)

Lemma cond_signal_enabled ths : exists w ths', cond_signal w ths = Some ths'.
Proof.
  destruct (existsb waiting ths) eqn:E.
  - pose proof E as (u & thr & Hu & Hpc)%existsb_waiting.
    exists u. eexists. unfold cond_signal. rewrite E, Hu. unfold waiting. by rewrite Hpc.
  - exists 0%nat. eexists. unfold cond_signal. by rewrite E.
Qed.

Lemma step_enabled s t thr :
  Inv s ->
  threads s !! t = Some thr ->
  pc thr <> InCondWait -> pc thr <> Exited ->
  exists w s', step n mat thread_count garbage (Step t w) s = Ok s'.
Proof.
  intros Hinv Ht H1 H2.
  assert (forall w, step n mat thread_count garbage (Step t w) s <> Undefined) as Hdef.
  { intros w. by apply (step_defined n mat B thread_count garbage garbage_zero). }
  cbn [step] in *. rewrite Ht in *. unfold step_thread in *.
  destruct (pc thr) eqn:Hpc; try done.
  - exists 0%nat. specialize (Hdef 0%nat).
    destruct (Search_start _ _ _ _ _); [by eexists|done].
  - exists 0%nat. destruct (Terminated_test _ _); [by eexists|].
    destruct (negb _); [by eexists|]. destruct (Terminated_idle _ _) as [g1 [|]]; by eexists.
  - destruct (Terminated_split (stack thr) (top thr) (glob s)) as [[[[st tp] g1] [|]]|].
    + destruct (cond_signal_enabled
                  (<[t := Thread InBody st tp (size thr) (local_best thr)]> (threads s)))
        as (w & ths' & Hsig).
      exists w. rewrite Hsig. by eexists.
    + exists 0%nat. by eexists.
    + by destruct (Hdef 0%nat).
  - exists 0%nat. destruct (Terminated_awakened _ _) as [[[[? ?] ?] ?]|]; by eexists.
  - exists 0%nat. specialize (Hdef 0%nat).
    destruct (Search_body _ _ _ _) as [[? ?]|]; [by eexists|done].
Qed.

(** *** No deadlock: while a thread has not left, some thread does not wait *)

Lemma not_deadlocked s :
  Inv s ->
  (exists t thr, threads s !! t = Some thr /\ pc thr <> Exited) ->
  exists t thr, threads s !! t = Some thr /\ pc thr <> InCondWait /\ pc thr <> Exited.
Proof.
  intros Hinv (t0 & thr0 & Ht0 & Hpc0). valid_facts.
  assert (forall p, p <> InCondWait -> p <> Exited -> 0 < cnt p (threads s) ->
            exists t thr, threads s !! t = Some thr /\ pc thr <> InCondWait /\ pc thr <> Exited)
    as Hfound.
  { intros p Hp1 Hp2 (t & thr & Ht & <-)%cnt_pos. by exists t, thr. }
  destruct (decide (0 < cnt AtStart (threads s))); [by apply (Hfound AtStart)|].
  destruct (decide (0 < cnt AtTerminated (threads s))); [by apply (Hfound AtTerminated)|].
  destruct (decide (0 < cnt AtTrylock (threads s))); [by apply (Hfound AtTrylock)|].
  destruct (decide (0 < cnt Woken (threads s))); [by apply (Hfound Woken)|].
  destruct (decide (0 < cnt InBody (threads s))); [by apply (Hfound InBody)|].
  exfalso.
  pose proof (cnt_total (threads s)) as Htot. rewrite (inv_length _ _ _ _ _ Hinv) in Htot.
  pose proof (cnt_nonneg AtStart (threads s)). pose proof (cnt_nonneg AtTerminated (threads s)).
  pose proof (cnt_nonneg AtTrylock (threads s)). pose proof (cnt_nonneg Woken (threads s)).
  pose proof (cnt_nonneg InBody (threads s)). pose proof (cnt_nonneg InCondWait (threads s)).
  pose proof (cnt_nonneg Exited (threads s)).
  pose proof (cnt_ge_1 _ _ _ Ht0) as Hge.
  destruct (inv_idle _ _ _ _ _ Hinv) as [HW HNS].
  destruct (new_stack (glob s)).
  - destruct HNS as (? & _). lia.
  - destruct HNS as [(? & ? & ?)|[? ?]]; [lia|].
    destruct (pc thr0); try done; lia.
Qed.

(** *** Every run can be brought to its end *)

Lemma run_completes s :
  Inv s ->
  exists sched s',
    Forall no_spurious sched /\
    run n mat thread_count garbage sched s = Ok s' /\
    all_exited s'.
Proof.
  remember (Z.to_nat (measure s)) as k eqn:Hk. revert s Hk.
  induction k as [k IH] using lt_wf_ind. intros s Hk Hinv.
  destruct (all_exited_dec s) as [Hall|Hex].
  - exists [], s. split; [apply Forall_nil_2|]. done.
  - destruct (not_deadlocked s Hinv Hex) as (t & thr & Ht & Hp1 & Hp2).
    destruct (step_enabled s t thr Hinv Ht Hp1 Hp2) as (w & s1 & Hstep).
    assert (no_spurious (Step t w)) as Hns by (intros u; discriminate).
    pose proof (measure_step _ s s1 Hns Hinv Hstep) as Hlt.
    pose proof (inv_step n mat B thread_count garbage garbage_zero _ s s1 Hns Hinv Hstep)
      as Hinv1.
    pose proof (measure_nonneg s1).
    destruct (IH (Z.to_nat (measure s1)) ltac:(lia) s1 eq_refl Hinv1)
      as (sched & s' & Hsched & Hrun & Hall).
    exists (Step t w :: sched), s'. split; [by apply Forall_cons|]. split; [|done].
    cbn [run]. by rewrite Hstep.
Qed.

End Termination.

(** * The claims *)

(** C3: [Check_best_tour] replaces the shared best tour and its cost if and
    only if the cost of the candidate, the cost of the partial tour plus the
    edge from [city] (in [Search] the last city of the tour) back to city 0,
    is strictly less than the current best cost.  Then the best tour holds
    the cities of the candidate followed by city 0 in cell [n], the count
    [n + 1] and the cost of the candidate, which the local best receives
    too.  Otherwise, also at equal cost, the globals (cities, count and cost
    of the best tour) and the local best are unchanged.  The sum is the
    machine sum [int_add]; it is the sum of integers when that fits in an
    [int]. *)
Theorem Check_best_tour_replaces_iff_strictly_better
    (n : Z) (mat : list Z) (city : Z) (tour local_best : tour_t) (g : globals) (w : Z) :
  arr_get mat (city * n + 0) = Some w ->
  0 <= count tour <= Z.of_nat (length (cities tour)) ->
  count tour <= Z.of_nat (length (cities (best_tour g))) ->
  0 <= n < Z.of_nat (length (cities (best_tour g))) ->
  exists local_best' g',
    Check_best_tour n mat city tour local_best g = Some (local_best', g') /\
    (int_add (cost tour) w < cost (best_tour g) ->
       cost (best_tour g') = int_add (cost tour) w /\
       count (best_tour g') = n + 1 /\
       cities (best_tour g') =
         <[Z.to_nat n := 0]> (take (Z.to_nat (count tour)) (cities tour)
                              ++ drop (Z.to_nat (count tour)) (cities (best_tour g))) /\
       cost local_best' = int_add (cost tour) w) /\
    (~ int_add (cost tour) w < cost (best_tour g) ->
       g' = g /\ local_best' = local_best) /\
    (best_tour g' <> best_tour g <-> int_add (cost tour) w < cost (best_tour g)) /\
    (- 2 ^ 31 <= cost tour + w <= INT_MAX -> int_add (cost tour) w = cost tour + w).
Proof.
  intros Hw Hc Hb Hn.
  rewrite (Check_best_tour_eq n mat city tour local_best g w) by done.
  case_decide as Hlt; do 2 eexists; (split; [done|]).
  - split; [by intros _|]. split; [by intros []|]. split; [|apply int_add_small].
    split; [done|]. intros _ Heq. apply (f_equal cost) in Heq. cbn in Heq. lia.
  - split; [by intros ?|]. split; [by intros _|]. split; [|apply int_add_small].
    split; [by intros []|done].
Qed.

Lemma Check_best_tour_replaces_witness :
  exists r, Check_best_tour 2 [0; 5; 5; 0] 1 (Tour [0; 1] 2 5) (Tour [] 0 INFINITY)
              (Globals (Tour [NO_CITY; NO_CITY; NO_CITY] 0 INFINITY) 0 None 0 0) = Some r
            /\ cost (best_tour r.2) = 10.
Proof.
  destruct (Check_best_tour_replaces_iff_strictly_better 2 [0; 5; 5; 0] 1 (Tour [0; 1] 2 5)
              (Tour [] 0 INFINITY)
              (Globals (Tour [NO_CITY; NO_CITY; NO_CITY] 0 INFINITY) 0 None 0 0) 5)
    as (l & g & Hrun & Hlt & _); [reflexivity | cbn; lia | cbn; lia | cbn; lia |].
  exists (l, g). split; [exact Hrun|].
  destruct Hlt as [Hcost _]; [vm_compute; reflexivity | exact Hcost].
Defined.

(** C4: [Feasible city nbr tour local_best] returns true if and only if
    [nbr] does not occur among the first [count] cities of the tour and the
    cost of the tour plus [mat[n*city + nbr]] is strictly less than the cost
    of the local best tour.  The function is one of its arguments and of the
    constants [n] and [mat] only: it takes no shared variable and returns
    nothing but the boolean, so the globals and the tour are as they were.
    The sum is the machine sum; it is the sum of integers when that fits in
    an [int]. *)
Theorem Feasible_iff_unvisited_and_below_local_best
    (n : Z) (mat : list Z) (city nbr : Z) (tour local_best : tour_t) (w : Z) :
  count tour <= Z.of_nat (length (cities tour)) ->
  arr_get mat (n * city + nbr) = Some w ->
  exists b : bool,
    Feasible n mat city nbr tour local_best = Some b /\
    (b = true <->
       (nbr ∉ take (Z.to_nat (count tour)) (cities tour)) /\
       int_add (cost tour) w < cost local_best) /\
    (- 2 ^ 31 <= cost tour + w <= INT_MAX ->
       (b = true <->
          (nbr ∉ take (Z.to_nat (count tour)) (cities tour)) /\
          cost tour + w < cost local_best)).
Proof.
  intros Hlen Hw. rewrite (Feasible_eq n mat city nbr tour local_best w) by done.
  eexists. split; [done|]. split.
  - apply bool_decide_eq_true.
  - intros Hr. rewrite <- (int_add_small _ _ Hr). apply bool_decide_eq_true.
Qed.

Lemma Feasible_iff_witness :
  exists b, Feasible 3 [0; 1; 10; 10; 0; 1; 1; 10; 0] 1 2 (Tour [0; 1; NO_CITY] 2 1)
              (Tour [] 0 INFINITY) = Some b.
Proof.
  destruct (Feasible_iff_unvisited_and_below_local_best 3 [0; 1; 10; 10; 0; 1; 1; 10; 0] 1 2
              (Tour [0; 1; NO_CITY] 2 1) (Tour [] 0 INFINITY) 1)
    as (b & Hrun & _ & _); [cbn; lia | reflexivity |].
  exists b. exact Hrun.
Defined.

(** C5: on a stack of [k >= 2] elements, [Split_stack] moves the elements
    at the odd positions 1, 3, 5, ... to the new stack, in their order, and
    moves the elements at the even positions 0, 2, 4, ... down to the bottom
    of the stack they are in: the new stack has [k / 2] elements, the old one
    keeps [(k + 1) / 2], together [k], and the two hold the elements of the
    stack once each. *)
Theorem Split_stack_odd_given_even_kept
    (stack : option (list (option stack_elt_t))) (top : Z) (g : globals)
    (fs : list stack_elt_t) :
  stack_holds stack top fs ->
  2 <= top ->
  exists stack' top' g' kept given,
    Split_stack stack top g = Some (stack', top', g') /\
    stack_holds stack' top' kept /\
    stack_holds (new_stack g') (new_stack_top g') given /\
    (forall j : nat, given !! j = fs !! (2 * j + 1)%nat) /\
    (forall j : nat, kept !! j = fs !! (2 * j)%nat) /\
    new_stack_top g' = top / 2 /\
    top' = (top + 1) / 2 /\
    top' + new_stack_top g' = top /\
    kept ++ given ≡ₚ fs.
Proof.
  intros Hs Htop.
  destruct (Split_stack_ok stack top g fs Hs Htop)
    as (a & a2 & na & g' & _ & Hrun & _ & Hk & _ & _ & Hg & Hnt & _).
  exists (Some a2), ((top + 1) / 2), g', (evens fs), (odds fs).
  split; [done|]. split; [done|]. split; [done|].
  split; [apply odds_lookup|]. split; [apply evens_lookup|].
  split; [done|]. split; [done|]. split.
  - rewrite Hnt. Z.to_euclidean_division_equations; lia.
  - apply evens_odds_perm.
Qed.

Lemma Split_stack_witness :
  exists r, Split_stack
              (Some [Some (Elt (Tour [0] 1 0) 1 1); Some (Elt (Tour [0] 1 0) 2 2);
                     Some (Elt (Tour [0] 1 0) 3 3); None])
              3 (Globals (Tour [] 0 INFINITY) 1 None 0 0) = Some r.
Proof.
  destruct (Split_stack_odd_given_even_kept
              (Some [Some (Elt (Tour [0] 1 0) 1 1); Some (Elt (Tour [0] 1 0) 2 2);
                     Some (Elt (Tour [0] 1 0) 3 3); None])
              3 (Globals (Tour [] 0 INFINITY) 1 None 0 0)
              [Elt (Tour [0] 1 0) 1 1; Elt (Tour [0] 1 0) 2 2; Elt (Tour [0] 1 0) 3 3])
    as (stack' & top' & g' & kept & given & Hrun & _).
  - eexists. split; [reflexivity|]. split; [reflexivity|].
    intros [|[|[|i]]] f; cbn; intros [= <-]; reflexivity.
  - lia.
  - exists (stack', top', g'). exact Hrun.
Defined.

(** C9: on a wrong number of arguments, on a file that cannot be read, on a
    thread count below 1 or not below [n], [main] prints the usage message
    on the error stream and exits.  Its events are the three lines of the
    usage message on the error stream, with the name of the program in the
    first, and then the exit, with the status 0; before them comes nothing,
    or, when the file cannot be opened, one more message on the error
    stream.  No thread is created, and [main] does not go on to the search.
    ([read_file] gives the [n] and the matrix when [fopen] and [Read_mat]
    have returned them.) *)
Theorem main_invalid_configuration_usage_and_exit
    (argc : Z) (argv : list string) (read_file : string -> option (Z * list Z))
    (strtol : string -> Z) :
  argc <> 3 \/
  read_file (arg argv 2) = None \/
  (exists n mat, read_file (arg argv 2) = Some (n, mat) /\
                 (wrap (strtol (arg argv 1)) < 1 \/ n <= wrap (strtol (arg argv 1)))) ->
  exists evs before,
    main argc argv read_file strtol = (evs, None) /\
    evs = before ++
          [Print_stderr ("usage: " ++ arg argv 0 ++ " <thread_count> <matrix file>" ++ newline);
           Print_stderr ("thread_count must be  greater than or equal to 1" ++ newline);
           Print_stderr ("and less than number of cities" ++ newline);
           Exit 0] /\
    (before = [] /\ ~ (argc = 3 /\ read_file (arg argv 2) = None) \/
     before = [Print_stderr ("Can't open " ++ arg argv 1 ++ newline)] /\
     argc = 3 /\ read_file (arg argv 2) = None) /\
    (forall e, e ∈ evs -> (exists msg, e = Print_stderr msg) \/ e = Exit 0) /\
    (forall rank, Pthread_create rank ∉ evs) /\
    list.last evs = Some (Exit 0).
Proof.
  intros Hbad.
  assert (forall before : list event,
            (before = [] \/
             before = [Print_stderr ("Can't open " ++ arg argv 1 ++ newline)]) ->
            (forall e, e ∈ before ++ Usage (arg argv 0) ->
                       (exists msg, e = Print_stderr msg) \/ e = Exit 0) /\
            (forall rank, Pthread_create rank ∉ before ++ Usage (arg argv 0)) /\
            list.last (before ++ Usage (arg argv 0)) = Some (Exit 0)) as Hok.
  { intros before Hb.
    assert (forall e, e ∈ before ++ Usage (arg argv 0) ->
                      (exists msg, e = Print_stderr msg) \/ e = Exit 0) as Hall.
    { intros e [Hin|Hin]%elem_of_app.
      - destruct Hb as [-> | ->]; [by apply elem_of_nil in Hin|].
        apply list_elem_of_singleton in Hin as ->. left. by eexists.
      - unfold Usage in Hin.
        repeat (apply elem_of_cons in Hin as [->|Hin]; [first [by (left; eexists) | by right]|]).
        by apply elem_of_nil in Hin. }
    split; [done|]. split.
    - intros rank Hin. destruct (Hall _ Hin) as [[msg ?]|?]; done.
    - by rewrite last_app. }
  unfold main. case_decide as Hargc.
  - exists (Usage (arg argv 0)), []. split; [done|]. split; [done|].
    split; [left; split; [done|]; by intros [? _]|]. apply (Hok []). by left.
  - assert (argc = 3) as Hargc3 by lia.
    destruct Hbad as [?|[Hnone|(n & mat & Hsome & Htc)]]; [done| |].
    + rewrite Hnone. eexists _, [_]. split; [done|]. split; [done|].
      split; [by right|]. apply (Hok [_]). by right.
    + rewrite Hsome. rewrite decide_True by done.
      exists (Usage (arg argv 0)), []. split; [done|]. split; [done|].
      split; [left; split; [done|]; intros [_ ?]; congruence|]. apply (Hok []). by left.
Qed.

Lemma main_invalid_configuration_witness :
  exists before,
    main 3 ["tsp"; "4"; "mat.txt"]%string
      (fun _ => Some (4, [0;1;2;3; 4;0;5;6; 7;8;0;9; 10;11;12;0])) (fun _ => 4)
    = (before ++ Usage "tsp", None).
Proof.
  destruct (main_invalid_configuration_usage_and_exit 3 ["tsp"; "4"; "mat.txt"]%string
              (fun _ => Some (4, [0;1;2;3; 4;0;5;6; 7;8;0;9; 10;11;12;0])) (fun _ => 4))
    as (evs & before & Hmain & -> & _).
  - right. right. do 2 eexists. split; [reflexivity|]. right. vm_compute. discriminate.
  - exists before. exact Hmain.
Defined.

(** C8: the best cost never goes up.  [main] sets it to [INFINITY]; a call
    of [Check_best_tour] leaves it at most what it was; and so does every
    step of every thread, hence every run. *)
Theorem best_cost_never_increases
    (n : Z) (mat : list Z) (thread_count : Z) (garbage : Z -> Z) :
  (forall s0, initial_state n thread_count = Some s0 ->
              cost (best_tour (glob s0)) = INFINITY) /\
  (forall city tour local_best g local_best' g',
     Check_best_tour n mat city tour local_best g = Some (local_best', g') ->
     cost (best_tour g') <= cost (best_tour g)) /\
  (forall sched s s',
     run n mat thread_count garbage sched s = Ok s' ->
     cost (best_tour (glob s')) <= cost (best_tour (glob s))).
Proof.
  split; [|split].
  - intros s0 [-> _]%initial_state_shape. done.
  - intros city tour lb g lb' g' [[-> _]|[? _]]%Check_best_tour_cases; lia.
  - intros sched s s'. apply run_best_cost_le.
Qed.

(** A complete run on three cities with two threads: thread 0 runs until it
    waits, thread 1 runs until it finds that it is the last one, thread 0
    wakes up and leaves. *)
Definition mat3 : list Z := [0; 1; 10; 10; 0; 1; 1; 10; 0].

Definition sched3 : list action :=
  [Step 0 0; Step 0 0; Step 0 0; Step 0 0; Step 0 0; Step 0 0;
   Step 1 0; Step 1 0; Step 1 0; Step 1 0; Step 1 0; Step 1 0;
   Step 0 0]%nat.

Lemma best_cost_never_increases_witness :
  exists s0 s, initial_state 3 2 = Some s0 /\
               run 3 mat3 2 (fun _ => 0) sched3 s0 = Ok s /\
               cost (best_tour (glob s)) <= cost (best_tour (glob s0)).
Proof.
  destruct (initial_state 3 2) as [s0|] eqn:H0; [|vm_compute in H0; discriminate].
  destruct (run 3 mat3 2 (fun _ => 0) sched3 s0) as [s| |] eqn:Hrun.
  2,3: injection H0 as <-; vm_compute in Hrun; discriminate.
  exists s0, s. split; [reflexivity|]. split; [exact Hrun|].
  exact (proj2 (proj2 (best_cost_never_increases 3 mat3 2 (fun _ => 0))) sched3 s0 s Hrun).
Defined.

(** C7, as the code has it: the local best cost of a thread is refreshed by
    the thread's own commits only.  When a step changes the best cost, it
    lowers it, the local best cost of the thread that runs is the new best
    cost, and the other threads, their local best costs too, are what they
    were.  In every state that a run reaches from the initial state, the
    local best cost of a thread that has started is at least the best
    cost: it may stay above it. *)
Theorem local_best_refreshed_by_own_commit_only
    (n : Z) (mat : list Z) (thread_count : Z) (garbage : Z -> Z)
    (sched : list action) (s0 s s' : state) (a : action) :
  initial_state n thread_count = Some s0 ->
  run n mat thread_count garbage sched s0 = Ok s ->
  step n mat thread_count garbage a s = Ok s' ->
  (forall t thr, threads s' !! t = Some thr -> pc thr <> AtStart ->
                 cost (best_tour (glob s')) <= cost (local_best thr)) /\
  (cost (best_tour (glob s')) <> cost (best_tour (glob s)) ->
   exists t w thr thr',
     a = Step t w /\ threads s !! t = Some thr /\ pc thr = InBody /\
     threads s' = <[t := thr']> (threads s) /\
     cost (best_tour (glob s')) < cost (best_tour (glob s)) /\
     cost (local_best thr') = cost (best_tour (glob s'))).
Proof.
  intros H0 Hrun Hstep. split.
  - apply (local_bounds_above_step n mat thread_count garbage a s s' Hstep).
    apply (local_bounds_above_run n mat thread_count garbage sched s0 s Hrun).
    eapply local_bounds_above_initial, H0.
  - by apply (step_changes_best_cost n mat thread_count garbage).
Qed.

Lemma local_best_refreshed_witness :
  exists s0 s s',
    initial_state 3 2 = Some s0 /\
    run 3 mat3 2 (fun _ => 0) (take 4 sched3) s0 = Ok s /\
    step 3 mat3 2 (fun _ => 0) (Step 0 0) s = Ok s' /\
    cost (best_tour (glob s)) = INFINITY /\
    cost (best_tour (glob s')) = 3 /\
    forall t thr, threads s' !! t = Some thr -> pc thr <> AtStart ->
                  cost (best_tour (glob s')) <= cost (local_best thr).
Proof.
  destruct (initial_state 3 2) as [s0|] eqn:H0; [|vm_compute in H0; discriminate].
  destruct (run 3 mat3 2 (fun _ => 0) (take 4 sched3) s0) as [s| |] eqn:Hrun.
  2,3: injection H0 as <-; vm_compute in Hrun; discriminate.
  destruct (step 3 mat3 2 (fun _ => 0) (Step 0 0) s) as [s'| |] eqn:Hstep.
  2,3: injection H0 as <-; vm_compute in Hrun; injection Hrun as <-;
       vm_compute in Hstep; discriminate.
  exists s0, s, s'. split; [reflexivity|]. split; [exact Hrun|]. split; [exact Hstep|].
  pose proof (local_best_refreshed_by_own_commit_only 3 mat3 2 (fun _ => 0)
                (take 4 sched3) s0 s s' (Step 0 0) H0 Hrun Hstep) as [Hinv _].
  injection H0 as <-. vm_compute in Hrun. injection Hrun as <-.
  vm_compute in Hstep. injection Hstep as <-.
  split; [reflexivity|]. split; [reflexivity|]. exact Hinv.
Defined.

(** C7, as the claim states it, fails: in the complete run [sched3] thread 0
    lowers the best cost to 3 before thread 1 has started; thread 1 does all
    its work after that with the local best cost [INFINITY], and leaves with
    it. *)
Lemma local_best_stays_above_best_cost :
  exists s0 s thr1,
    initial_state 3 2 = Some s0 /\
    run 3 mat3 2 (fun _ => 0) sched3 s0 = Ok s /\
    pc <$> threads s = [Exited; Exited] /\
    cost (best_tour (glob s)) = 3 /\
    threads s !! 1%nat = Some thr1 /\
    cost (local_best thr1) = 1000000.
Proof.
  do 3 eexists. split; [reflexivity|]. split; [vm_compute; reflexivity|].
  split; [reflexivity|]. split; [reflexivity|]. split; reflexivity.
Qed.

(** C6, at a failing input: [Fill_stack] adds the edge cost to the cost field
    of an element that [malloc] has just returned.  With two cities, one
    thread and the matrix 0 5 / 5 0, if that field holds 7, the element for
    city 1 records the cost 12 and not [mat[1] = 5]. *)
Lemma Fill_stack_adds_to_uninitialised_cost :
  Fill_stack 2 [0; 5; 5; 0] 1 (fun _ => 7) (Some (malloc_ptrs (2 * 2))) 0 0
  = Some (Some [Some (Elt (Tour [0; NO_CITY; NO_CITY] 1 0) 1 12); None; None; None], 1).
Proof. vm_compute. reflexivity. Qed.

(** A run on three cities with two threads in which thread 1 empties its
    stack, waits, and returns from [pthread_cond_wait] although no thread
    has signalled; thread 0 has not run yet. *)
Definition sched_spurious : list action :=
  [Step 1 0; Step 1 0; Step 1 0; Step 1 0; Step 1 0; Step 1 0;
   SpuriousWakeup 1; Step 1 0]%nat.

(** C10, at a failing input: after the spurious wakeup [Terminated] returns 0
    to thread 1 (the thread is about to [Pop]) with a null stack and
    [top = 0]; the mailbox was empty.  The [Pop] that follows is undefined
    behaviour. *)
Lemma Terminated_returns_0_with_empty_stack :
  exists s0 s thr1,
    initial_state 3 2 = Some s0 /\
    run 3 mat3 2 (fun _ => 0) sched_spurious s0 = Ok s /\
    threads s !! 1%nat = Some thr1 /\
    pc thr1 = InBody /\ stack thr1 = None /\ top thr1 = 0 /\
    run 3 mat3 2 (fun _ => 0) (sched_spurious ++ [Step 1 0]%nat) s0 = Undefined.
Proof.
  do 3 eexists. split; [reflexivity|]. split; [vm_compute; reflexivity|].
  split; [reflexivity|]. split; [reflexivity|]. split; [reflexivity|].
  split; [reflexivity|]. vm_compute. reflexivity.
Qed.

(** C2, at a failing input: thread 1 is woken while thread 0 is not idle and
    the mailbox is empty.  It does not go back to the test and to waiting:
    [Terminated_awakened] makes it take the empty mailbox as its stack and
    return 0, and the count of the idle threads goes down to 0. *)
Lemma Terminated_awakened_takes_empty_mailbox :
  exists s0 s,
    initial_state 3 2 = Some s0 /\
    run 3 mat3 2 (fun _ => 0) (take 7 sched_spurious) s0 = Ok s /\
    pc <$> threads s = [AtStart; Woken] /\
    threads_in_cond_wait (glob s) = 1 /\
    new_stack (glob s) = None /\
    Terminated_awakened 2 (glob s)
    = Some (None, 0, 0, Globals (best_tour (glob s)) 0 None 0 0).
Proof.
  do 2 eexists. split; [reflexivity|]. split; [vm_compute; reflexivity|].
  split; [reflexivity|]. split; [reflexivity|]. split; reflexivity.
Qed.

(** C1, as the code has it.  The input is valid: at least two cities, an
    [n] by [n] matrix of weights that are not negative, and a number of
    threads from 1 to [n - 1]; besides, [n] times the greatest weight fits in
    an [int], the cost fields to which [Fill_stack] adds hold 0, and no
    [pthread_cond_wait] returns without a signal.  Then no run is
    [Undefined] (no thread reads or writes outside an array or through a
    null pointer); a run has at most [search_bound] steps and can be
    continued until all the threads have left; and after a run in which all
    the threads have left: no tour costs less than the best cost; if some
    tour costs less than [INFINITY], the best tour holds the [n + 1] cities of
    a tour, from city 0 through each of the cities [1 .. n-1] once and back to
    city 0, its cost is the sum of the weights along it, and no tour is
    cheaper; if no tour costs less than [INFINITY], the best tour is what
    [main] has made of it, with the count 0 and the cost [INFINITY]. *)
Theorem search_finds_cheapest_tour_below_INFINITY
    (n : Z) (mat : list Z) (B : Z) (thread_count : Z) (garbage : Z -> Z)
    (sched : list action) (s0 : state) :
  2 <= n ->
  Z.of_nat (length mat) = n * n ->
  (forall w, w ∈ mat -> 0 <= w <= B) ->
  n * B <= INT_MAX ->
  1 <= thread_count < n ->
  (forall i, garbage i = 0) ->
  initial_state n thread_count = Some s0 ->
  Forall no_spurious sched ->
  run n mat thread_count garbage sched s0 <> Undefined /\
  (forall s,
     run n mat thread_count garbage sched s0 = Ok s ->
     Z.of_nat (length sched) <= search_bound n thread_count /\
     exists sched' s',
       Forall no_spurious sched' /\
       run n mat thread_count garbage (sched ++ sched') s0 = Ok s' /\
       all_exited s') /\
  forall s,
    run n mat thread_count garbage sched s0 = Ok s ->
    all_exited s ->
    (forall p, is_tour n p -> cost (best_tour (glob s)) <= tour_cost n mat p) /\
    ((exists p, is_tour n p /\ tour_cost n mat p < INFINITY) ->
     exists p, is_tour n p /\
               best_tour (glob s) = Tour (0 :: p ++ [0]) (n + 1) (tour_cost n mat p) /\
               forall q, is_tour n q -> tour_cost n mat p <= tour_cost n mat q) /\
    ((forall p, is_tour n p -> INFINITY <= tour_cost n mat p) ->
     best_tour (glob s) = Tour (replicate (Z.to_nat (n + 1)) NO_CITY) 0 INFINITY).
Proof.
  intros Hn Hlen Hrange Hfits Htc Hg H0 Hns.
  pose (Build_valid_matrix n mat B Hn Hlen Hrange Hfits) as Hvalid.
  assert (valid_threads n thread_count) as Hthreads by exact Htc.
  pose proof (inv_initial n mat B thread_count garbage s0 H0) as Hinv0.
  split; [by apply (run_defined n mat B thread_count garbage Hg)|].
  split.
  { intros s Hrun.
    pose proof (inv_run n mat B thread_count garbage Hg sched s0 s Hns Hinv0 Hrun) as Hinv.
    split.
    - pose proof (run_measure n mat B thread_count garbage Hg sched s0 s Hns Hinv0 Hrun).
      pose proof (measure_nonneg n mat B thread_count garbage s).
      pose proof (measure_initial n mat B thread_count garbage s0 H0). lia.
    - destruct (run_completes n mat B thread_count garbage Hg s Hinv)
        as (sched' & s' & Hns' & Hrun' & Hall).
      exists sched', s'. split; [done|]. split; [|done]. by rewrite run_app, Hrun. }
  intros s Hrun Hall.
  pose proof (inv_run n mat B thread_count garbage Hg sched s0 s Hns Hinv0 Hrun) as Hinv.
  assert (forall p, is_tour n p -> cost (best_tour (glob s)) <= tour_cost n mat p) as Hmin.
  { intros p Hp. by apply (inv_all_exited n mat B thread_count garbage). }
  split; [done|].
  destruct (inv_best _ _ _ _ _ Hinv) as [Hb|(p & Hp & Hlt & Hb)]; rewrite Hb in *;
    cbn [cost] in Hmin.
  - split; [|done]. intros (p & Hp & Hlt). specialize (Hmin p Hp). lia.
  - split.
    + intros _. exists p. split; [done|]. split; [done|]. apply Hmin.
    + intros Hinf. specialize (Hinf p Hp). lia.
Qed.

Lemma search_finds_cheapest_tour_witness :
  exists s0 s,
    initial_state 3 2 = Some s0 /\
    run 3 mat3 2 (fun _ => 0) sched3 s0 = Ok s /\
    forall p, is_tour 3 p -> cost (best_tour (glob s)) <= tour_cost 3 mat3 p.
Proof.
  destruct (initial_state 3 2) as [s0|] eqn:H0; [|vm_compute in H0; discriminate].
  destruct (run 3 mat3 2 (fun _ => 0) sched3 s0) as [s| |] eqn:Hrun.
  2,3: injection H0 as <-; vm_compute in Hrun; discriminate.
  exists s0, s. split; [reflexivity|]. split; [exact Hrun|].
  assert (all_exited s) as Hall.
  { injection H0 as <-. vm_compute in Hrun. injection Hrun as <-.
    intros [|[|t]] thr; cbn; intros [= <-]; reflexivity. }
  refine (proj1 (proj2 (proj2 (search_finds_cheapest_tour_below_INFINITY 3 mat3 10 2
                                 (fun _ => 0) sched3 s0 _ _ _ _ _ _ H0 _)) s Hrun Hall)).
  - lia.
  - reflexivity.
  - intros w Hw. unfold mat3 in Hw.
    repeat (apply elem_of_cons in Hw as [->|Hw]; [lia|]). by apply elem_of_nil in Hw.
  - vm_compute. discriminate.
  - lia.
  - reflexivity.
  - unfold sched3. repeat (apply Forall_cons; split; [intros t; discriminate|]).
    apply Forall_nil_2.
Defined.

(** C1, as the claim states it, fails: with two cities at the distance
    600000 the only tour costs 1200000, which is not below [INFINITY]; the
    single thread runs to its end and the best tour is still the one that
    [main] has made, without a city, with the cost 1000000. *)
Lemma best_tour_not_found_above_INFINITY :
  exists s0 s,
    initial_state 2 1 = Some s0 /\
    run 2 [0; 600000; 600000; 0] 1 (fun _ => 0)
      [Step 0 0; Step 0 0; Step 0 0; Step 0 0]%nat s0 = Ok s /\
    pc <$> threads s = [Exited] /\
    is_tour 2 [1] /\
    tour_cost 2 [0; 600000; 600000; 0] [1] = 1200000 /\
    best_tour (glob s) = Tour [NO_CITY; NO_CITY; NO_CITY] 0 1000000.
Proof.
  do 2 eexists. split; [reflexivity|]. split; [vm_compute; reflexivity|].
  split; [reflexivity|]. split; [unfold is_tour; reflexivity|]. split; reflexivity.
Qed.

(** * Further properties of the code *)

(** X1: what [Fill_stack] does build.  For a valid input and a rank below
    the number of threads, [Fill_stack] fills the empty stack with one
    element for each city of the share of the rank, from the first to the
    last, in this order: the tour of the element is city 0 alone, with the
    count 1 and the cost 0, its city is the city [i], and its cost is the sum
    of what the cost field held and of [mat[i]].  The share has
    [(n - 1) / thread_count] cities, and one more for the ranks below the
    remainder; the share of rank 0 begins with city 1, the share of the next
    rank begins after the last city of a share, and the share of the last
    rank ends with city [n - 1]. *)
Theorem Fill_stack_builds_the_share
    (n : Z) (mat : list Z) (B : Z) (thread_count : Z) (garbage : Z -> Z) (my_rank : Z) :
  2 <= n ->
  Z.of_nat (length mat) = n * n ->
  (forall w, w ∈ mat -> 0 <= w <= B) ->
  n * B <= INT_MAX ->
  1 <= thread_count < n ->
  0 <= my_rank < thread_count ->
  let first := first_final_city n thread_count my_rank in
  let share := partial_tour_count n thread_count my_rank in
  (exists stack fs,
     Fill_stack n mat thread_count garbage (Some (malloc_ptrs (n * 2))) 0 my_rank
     = Some (stack, share) /\
     stack_holds stack share fs /\
     forall j, 0 <= j < share ->
       exists w, arr_get mat (first + j) = Some w /\
                 fs !! Z.to_nat j
                 = Some (Elt (Tour (0 :: replicate (Z.to_nat n) NO_CITY) 1 0) (first + j)
                           (int_add (garbage (first + j)) w))) /\
  share = (n - 1) / thread_count + (if decide (my_rank < (n - 1) mod thread_count) then 1 else 0) /\
  first_final_city n thread_count 0 = 1 /\
  first_final_city n thread_count (my_rank + 1) = first + share /\
  first_final_city n thread_count thread_count = n.
Proof.
  intros Hn Hlen Hrange Hfits Htc Hr first share.
  pose (Build_valid_matrix n mat B Hn Hlen Hrange Hfits) as Hvalid.
  assert (valid_threads n thread_count) as Hthreads by exact Htc.
  destruct (share_bounds n mat B thread_count my_rank Hr) as (Hc & Hf & Hl).
  unfold last_final_city in Hl. fold first share in Hc, Hf, Hl.
  split.
  - destruct (Fill_stack_ok n mat B thread_count garbage my_rank Hr) as (p & Hfill & Hwf & _).
    exists p, (initial_frames n mat thread_count garbage my_rank).
    split; [done|]. split; [done|]. intros j Hj.
    exists (edge n mat 0 (first + j)). split.
    + replace (first + j) with (n * 0 + (first + j)) at 1 by lia.
      apply (edge_get n mat B); lia.
    + unfold initial_frames. rewrite list_lookup_fmap. fold first share.
      rewrite (proj2 (lookup_seqZ first share (Z.to_nat j) (first + j))) by lia. done.
  - destruct (share_division n mat B thread_count) as (q & r & Hq & Hrr & Hq1 & Hshare).
    assert ((n - 1) / thread_count = q) as Hdiv
      by (symmetry; apply (Z.div_unique _ _ q r); lia).
    assert ((n - 1) mod thread_count = r) as Hmod
      by (symmetry; apply (Z.mod_unique _ _ q r); lia).
    rewrite Hdiv, Hmod. unfold first, share.
    destruct (Hshare my_rank) as [-> ->]. destruct (Hshare 0) as [_ ->].
    destruct (Hshare (my_rank + 1)) as [_ ->]. destruct (Hshare thread_count) as [_ ->].
    repeat case_decide; split; try lia; split; try lia; split; nia.
Qed.

Lemma Fill_stack_builds_the_share_witness :
  exists stack,
    Fill_stack 3 mat3 2 (fun _ => 0) (Some (malloc_ptrs (3 * 2))) 0 1 = Some (stack, 1).
Proof.
  destruct (Fill_stack_builds_the_share 3 mat3 10 2 (fun _ => 0) 1)
    as [(stack & fs & Hrun & _) _].
  - lia.
  - reflexivity.
  - intros w Hw. unfold mat3 in Hw.
    repeat (apply elem_of_cons in Hw as [->|Hw]; [lia|]). by apply elem_of_nil in Hw.
  - vm_compute. discriminate.
  - lia.
  - lia.
  - exists stack. exact Hrun.
Defined.

(** X2: without spurious wakeups, and with the cost fields of [Fill_stack]
    at 0, [Terminated] returns 0 with a stack that is not empty: in every
    state that a run reaches, a thread that is about to [Pop] has
    [top >= 1], its stack is not null, the cell [top - 1] of the stack holds
    an element, which is a partial tour in the sense of [valid_frame], and
    the [Pop] returns the tour, the city and the cost of this element, with
    the cell freed and the top one less. *)
Theorem Pop_after_Terminated_finds_an_element
    (n : Z) (mat : list Z) (B : Z) (thread_count : Z) (garbage : Z -> Z)
    (sched : list action) (s0 s : state) (t : nat) (thr : thread_t) :
  2 <= n ->
  Z.of_nat (length mat) = n * n ->
  (forall w, w ∈ mat -> 0 <= w <= B) ->
  n * B <= INT_MAX ->
  1 <= thread_count < n ->
  (forall i, garbage i = 0) ->
  initial_state n thread_count = Some s0 ->
  Forall no_spurious sched ->
  run n mat thread_count garbage sched s0 = Ok s ->
  threads s !! t = Some thr ->
  pc thr = InBody ->
  1 <= top thr /\
  exists a e,
    stack thr = Some a /\
    top thr <= Z.of_nat (length a) /\
    a !! Z.to_nat (top thr - 1) = Some (Some e) /\
    valid_frame n mat e /\
    Pop (stack thr) (top thr)
    = Some (tour_p e, elt_city e, elt_cost e,
            Some (<[Z.to_nat (top thr - 1) := None]> a), top thr - 1).
Proof.
  intros Hn Hlen Hrange Hfits Htc Hg H0 Hns Hrun Ht Hpc.
  pose (Build_valid_matrix n mat B Hn Hlen Hrange Hfits) as Hvalid.
  assert (valid_threads n thread_count) as Hthreads by exact Htc.
  pose proof (inv_initial n mat B thread_count garbage s0 H0) as Hinv0.
  pose proof (inv_run n mat B thread_count garbage Hg sched s0 s Hns Hinv0 Hrun) as Hinv.
  pose proof (inv_threads _ _ _ _ _ Hinv t thr Ht) as Hok.
  unfold thread_ok in Hok. rewrite Hpc in Hok. destruct Hok as [[Hwf Hval] Htop].
  split; [done|].
  destruct (stack_wf_top _ _ _ _ Hwf) as [Hl Hsz].
  destruct (frames_of (stack thr) (top thr)) as [|e fs _] using rev_ind; [simpl in Hl; lia|].
  apply Forall_app in Hval as [_ [He _]%Forall_cons].
  destruct Hwf as [(a & Hst & _ & Hcells) (a' & Hst' & Hlen' & _)].
  rewrite Hst in Hst'. injection Hst' as <-.
  rewrite length_app in Hl. cbn [length] in Hl.
  assert (a !! Z.to_nat (top thr - 1) = Some (Some e)) as Ha.
  { apply Hcells. replace (Z.to_nat (top thr - 1)) with (length fs) by lia.
    by rewrite lookup_app_r, Nat.sub_diag by lia. }
  exists a, e. split; [done|]. split; [lia|]. split; [done|]. split; [done|].
  unfold Pop, ptr_get, ptr_set, arr_get, arr_set. rewrite Hst. cbn [mbind option_bind].
  rewrite decide_True by lia. rewrite Ha. cbn [mbind option_bind].
  apply lookup_lt_Some in Ha. by rewrite decide_True by lia.
Qed.

Lemma Pop_after_Terminated_witness :
  exists s0 s thr,
    initial_state 3 2 = Some s0 /\
    run 3 mat3 2 (fun _ => 0) (take 2 sched3) s0 = Ok s /\
    threads s !! 0%nat = Some thr /\
    1 <= top thr.
Proof.
  destruct (initial_state 3 2) as [s0|] eqn:H0; [|vm_compute in H0; discriminate].
  destruct (run 3 mat3 2 (fun _ => 0) (take 2 sched3) s0) as [s| |] eqn:Hrun.
  2,3: injection H0 as <-; vm_compute in Hrun; discriminate.
  destruct (threads s !! 0%nat) as [thr|] eqn:Ht.
  2: injection H0 as <-; vm_compute in Hrun; injection Hrun as <-; discriminate Ht.
  exists s0, s, thr. split; [reflexivity|]. split; [exact Hrun|]. split; [exact Ht|].
  refine (proj1 (Pop_after_Terminated_finds_an_element 3 mat3 10 2 (fun _ => 0)
                   (take 2 sched3) s0 s 0%nat thr _ _ _ _ _ _ H0 _ Hrun Ht _)).
  - lia.
  - reflexivity.
  - intros w Hw. unfold mat3 in Hw.
    repeat (apply elem_of_cons in Hw as [->|Hw]; [lia|]). by apply elem_of_nil in Hw.
  - vm_compute. discriminate.
  - lia.
  - reflexivity.
  - cbn. repeat (apply Forall_cons; split; [intros u; discriminate|]). apply Forall_nil_2.
  - injection H0 as <-. vm_compute in Hrun. injection Hrun as <-.
    injection Ht as <-. reflexivity.
Defined.

(** X3: without spurious wakeups, and with the cost fields of [Fill_stack]
    at 0, [Terminated] returns 1 only when the work is done: in every state
    that a run reaches, if a thread has left, the mailbox is empty, the count
    of the idle threads is the number of threads, and every thread has left
    or is woken to leave, with an empty stack. *)
Theorem Terminated_returns_1_when_all_idle
    (n : Z) (mat : list Z) (B : Z) (thread_count : Z) (garbage : Z -> Z)
    (sched : list action) (s0 s : state) (t : nat) (thr : thread_t) :
  2 <= n ->
  Z.of_nat (length mat) = n * n ->
  (forall w, w ∈ mat -> 0 <= w <= B) ->
  n * B <= INT_MAX ->
  1 <= thread_count < n ->
  (forall i, garbage i = 0) ->
  initial_state n thread_count = Some s0 ->
  Forall no_spurious sched ->
  run n mat thread_count garbage sched s0 = Ok s ->
  threads s !! t = Some thr ->
  pc thr = Exited ->
  new_stack (glob s) = None /\
  threads_in_cond_wait (glob s) = thread_count /\
  forall u thr_u, threads s !! u = Some thr_u ->
                  (pc thr_u = Woken \/ pc thr_u = Exited) /\ top thr_u = 0.
Proof.
  intros Hn Hlen Hrange Hfits Htc Hg H0 Hns Hrun Ht Hpc.
  pose (Build_valid_matrix n mat B Hn Hlen Hrange Hfits) as Hvalid.
  assert (valid_threads n thread_count) as Hthreads by exact Htc.
  pose proof (inv_initial n mat B thread_count garbage s0 H0) as Hinv0.
  pose proof (inv_run n mat B thread_count garbage Hg sched s0 s Hns Hinv0 Hrun) as Hinv.
  destruct (inv_idle _ _ _ _ _ Hinv) as [HW HNS].
  pose proof (cnt_ge_1 _ _ _ Ht) as Hge. rewrite Hpc in Hge.
  destruct (new_stack (glob s)); [destruct HNS as (_ & ? & _); lia|].
  destruct HNS as [(_ & ? & _)|[HC HWt]]; [lia|].
  split; [done|]. split; [done|]. intros u thr_u Hu.
  pose proof (inv_threads _ _ _ _ _ Hinv u thr_u Hu) as Hok. unfold thread_ok in Hok.
  pose proof (cnt_ge_1 _ _ _ Hu) as Hgu.
  pose proof (cnt_total (threads s)) as Htot. rewrite (inv_length _ _ _ _ _ Hinv) in Htot.
  pose proof (cnt_nonneg AtStart (threads s)). pose proof (cnt_nonneg AtTerminated (threads s)).
  pose proof (cnt_nonneg AtTrylock (threads s)). pose proof (cnt_nonneg InBody (threads s)).
  destruct (pc thr_u); try lia; auto.
Qed.

Lemma Terminated_returns_1_witness :
  exists s0 s,
    initial_state 3 2 = Some s0 /\
    run 3 mat3 2 (fun _ => 0) (take 12 sched3) s0 = Ok s /\
    pc <$> threads s = [Woken; Exited] /\
    new_stack (glob s) = None /\
    threads_in_cond_wait (glob s) = 2.
Proof.
  destruct (initial_state 3 2) as [s0|] eqn:H0; [|vm_compute in H0; discriminate].
  destruct (run 3 mat3 2 (fun _ => 0) (take 12 sched3) s0) as [s| |] eqn:Hrun.
  2,3: injection H0 as <-; vm_compute in Hrun; discriminate.
  destruct (threads s !! 1%nat) as [thr|] eqn:Ht.
  2: injection H0 as <-; vm_compute in Hrun; injection Hrun as <-; discriminate Ht.
  exists s0, s. split; [reflexivity|]. split; [exact Hrun|].
  split; [injection H0 as <-; vm_compute in Hrun; injection Hrun as <-; reflexivity|].
  refine (let H := Terminated_returns_1_when_all_idle 3 mat3 10 2 (fun _ => 0)
                     (take 12 sched3) s0 s 1%nat thr _ _ _ _ _ _ H0 _ Hrun Ht _ in
          conj (proj1 H) (proj1 (proj2 H))).
  - lia.
  - reflexivity.
  - intros w Hw. unfold mat3 in Hw.
    repeat (apply elem_of_cons in Hw as [->|Hw]; [lia|]). by apply elem_of_nil in Hw.
  - vm_compute. discriminate.
  - lia.
  - reflexivity.
  - cbn. repeat (apply Forall_cons; split; [intros u; discriminate|]). apply Forall_nil_2.
  - injection H0 as <-. vm_compute in Hrun. injection Hrun as <-.
    injection Ht as <-. reflexivity.
Defined.

From Stdlib Require Import DecimalString.

(** * The rest of the program *)

(** ** Tours *)

Lemma Visited_loop_cases (fuel i : nat) (nbr : Z) (tour : tour_t) :
  count tour - Z.of_nat i <= Z.of_nat fuel ->
  Visited_loop fuel (Z.of_nat i) nbr tour
  = if decide (nbr ∈ drop i (take (Z.to_nat (count tour)) (cities tour))) then Some true
    else if decide (count tour <= Z.of_nat (length (cities tour)) `max` Z.of_nat i)
         then Some false else None.
Proof.
  revert i. induction fuel as [|fuel IH]; intros i Hfuel; cbn [Visited_loop].
  - rewrite decide_False by lia.
    rewrite drop_ge by (rewrite length_take; lia).
    rewrite decide_False by apply not_elem_of_nil. by rewrite decide_True by lia.
  - case_decide as Hlt.
    + unfold arr_get. rewrite decide_True by lia. rewrite Nat2Z.id.
      destruct (cities tour !! i) as [c|] eqn:Hc; cbn [mbind option_bind].
      * pose proof (lookup_lt_Some _ _ _ Hc) as Hi.
        assert (take (Z.to_nat (count tour)) (cities tour) !! i = Some c) as Hc'
          by (rewrite lookup_take_lt by lia; done).
        rewrite (drop_S _ _ _ Hc').
        case_decide as Heq.
        -- subst c. rewrite decide_True by apply list_elem_of_here. done.
        -- replace (Z.of_nat i + 1) with (Z.of_nat (S i)) by lia. rewrite IH by lia.
           repeat case_decide; try done; try lia;
             match goal with
             | H : _ ∈ _ :: _ |- _ => apply elem_of_cons in H as [?|?]; congruence
             | H : ¬ _ ∈ _ :: _ |- _ => destruct H; by apply list_elem_of_further
             end.
      * apply lookup_ge_None in Hc.
        rewrite drop_ge by (rewrite length_take; lia).
        rewrite decide_False by apply not_elem_of_nil. by rewrite decide_False by lia.
    + rewrite drop_ge by (rewrite length_take; lia).
      rewrite decide_False by apply not_elem_of_nil. by rewrite decide_True by lia.
Qed.

(** X4: [Visited] with a count that the array does not hold.  The function
    answers true exactly when the city is among the first [count] cities of
    the tour, as far as the array goes; it answers false exactly when the
    city is not among them and the count is at most the length of the array;
    and when the count is greater than the length and the city is not in the
    array, it reads outside of the array. *)
Theorem Visited_finds_the_city_or_reads_to_count (nbr : Z) (tour : tour_t) :
  (Visited nbr tour = Some true <->
   nbr ∈ take (Z.to_nat (count tour)) (cities tour)) /\
  (Visited nbr tour = Some false <->
   (nbr ∉ take (Z.to_nat (count tour)) (cities tour)) /\
   count tour <= Z.of_nat (length (cities tour))) /\
  (Visited nbr tour = None <->
   (nbr ∉ cities tour) /\ Z.of_nat (length (cities tour)) < count tour).
Proof.
  unfold Visited. rewrite (Visited_loop_cases _ 0) by lia. rewrite drop_0, Z.max_l by lia.
  assert (Z.of_nat (length (cities tour)) < count tour ->
          take (Z.to_nat (count tour)) (cities tour) = cities tour) as Hall
    by (intros ?; apply take_ge; lia).
  repeat case_decide; (split; [|split]); split; try done; try tauto;
    try (intros [? ?]; first [done | lia]);
    try (intros _; split; [|lia]; by rewrite <- Hall by lia).
  intros [Hn ?]. rewrite <- Hall in Hn by lia. done.
Qed.

(** X5: [Feasible] reads the matrix for a new city only.  For a city that is
    on the tour the answer is false whatever [mat], [city] and the local
    best tour are; for a city that is not on the tour, an index
    [n * city + nbr] outside of the matrix is read all the same. *)
Theorem Feasible_reads_the_matrix_for_a_new_city_only
    (n : Z) (mat : list Z) (city nbr : Z) (tour local_best : tour_t) :
  count tour <= Z.of_nat (length (cities tour)) ->
  (nbr ∈ take (Z.to_nat (count tour)) (cities tour) ->
   Feasible n mat city nbr tour local_best = Some false) /\
  ((nbr ∉ take (Z.to_nat (count tour)) (cities tour)) ->
   arr_get mat (n * city + nbr) = None ->
   Feasible n mat city nbr tour local_best = None).
Proof.
  intros Hlen. split; [by apply Feasible_visited|].
  intros Hnew Hmat. unfold Feasible. rewrite Visited_eq by done.
  cbn [mbind option_bind]. rewrite bool_decide_eq_false_2 by done. cbn [negb].
  by rewrite Hmat.
Qed.

Lemma Feasible_reads_the_matrix_witness :
  Feasible 3 [] 7 1 (Tour [0; 1; NO_CITY] 2 1) (Tour [] 0 INFINITY) = Some false /\
  Feasible 3 [] 7 2 (Tour [0; 1; NO_CITY] 2 1) (Tour [] 0 INFINITY) = None.
Proof.
  destruct (Feasible_reads_the_matrix_for_a_new_city_only 3 [] 7 1
              (Tour [0; 1; NO_CITY] 2 1) (Tour [] 0 INFINITY)) as [Hold _]; [cbn; lia|].
  destruct (Feasible_reads_the_matrix_for_a_new_city_only 3 [] 7 2
              (Tour [0; 1; NO_CITY] 2 1) (Tour [] 0 INFINITY)) as [_ Hnew]; [cbn; lia|].
  split.
  - apply Hold. cbn. apply list_elem_of_further, list_elem_of_here.
  - apply Hnew; [|reflexivity]. cbn.
    intros [?|[?|?%elem_of_nil]%elem_of_cons]%elem_of_cons; done.
Defined.

(** X6: [Initialize_tour] makes a tour without a city, for every [n]: the
    array has [n + 1] cells (none for [n < -1]) that hold [NO_CITY], the
    count and the cost are 0, and [Visited] answers false for every city,
    for [NO_CITY] too. *)
Theorem Initialize_tour_makes_a_tour_without_a_city (n : Z) :
  exists tour,
    Initialize_tour n = Some tour /\
    cities tour = replicate (Z.to_nat (n + 1)) NO_CITY /\
    count tour = 0 /\ cost tour = 0 /\
    forall nbr, Visited nbr tour = Some false.
Proof.
  eexists. split; [apply Initialize_tour_eq|]. cbn [cities count cost].
  split; [done|]. split; [done|]. split; [done|]. intros nbr.
  rewrite Visited_eq by (cbn [count]; lia). cbn [count cities Z.to_nat take].
  by rewrite bool_decide_eq_false_2 by apply not_elem_of_nil.
Qed.

(** ** The stack operations *)

Lemma Push_size n tour city c p top size p' top' size' :
  Push n tour city c p top size = Some (p', top', size') ->
  top' = top + 1 /\ size' = (if decide (top = size) then size * 2 else size).
Proof.
  unfold Push. case_decide.
  - destruct (Dup_tour n tour); [|done]. cbn [mbind option_bind].
    destruct (ptr_set _ _ _); [|done]. by intros [= <- <- <-].
  - destruct (Dup_tour n tour); [|done]. cbn [mbind option_bind].
    destruct (ptr_set _ _ _); [|done]. by intros [= <- <- <-].
Qed.

(** When a loop has run to its end, its body was defined at every index. *)
Lemma for_loop_Some_body {S : Type} fuel i hi (body : Z -> S -> option S) s s' :
  for_loop fuel i hi 1 body s = Some s' ->
  forall j, i <= j < hi -> exists sj, is_Some (body j sj).
Proof.
  revert i s. induction fuel as [|fuel IH]; intros i s; cbn [for_loop].
  - case_decide; [done|]. intros _ j Hj. lia.
  - case_decide as Hlt; [|intros _ j Hj; lia].
    destruct (body i s) as [s1|] eqn:Hb; [|done]. cbn [mbind option_bind].
    intros Hrun j Hj. destruct (decide (j = i)) as [->|Hne].
    + exists s. by rewrite Hb.
    + apply (IH (i + 1) s1 Hrun). lia.
Qed.

(** X7: [Push] on a stack in good shape (an array of [size >= 1] cells, of
    which the first [top] hold the elements [fs]) keeps the elements and
    puts on top of them an element with a copy of the tour (its first [n]
    cities, its count and its cost), the city and the cost; the array is
    twice as long when it was full, and as long as it was otherwise. *)
Theorem Push_appends_a_copy_and_doubles_a_full_array
    (n : Z) (tour : tour_t) (city c : Z)
    (stack : option (list (option stack_elt_t))) (top size : Z) (fs : list stack_elt_t) :
  stack_wf stack top size fs ->
  n <= Z.of_nat (length (cities tour)) ->
  exists stack',
    Push n tour city c stack top size
    = Some (stack', top + 1, if decide (top = size) then size * 2 else size) /\
    stack_wf stack' (top + 1) (if decide (top = size) then size * 2 else size)
      (fs ++ [Elt (Tour (take (Z.to_nat n) (cities tour)) (count tour) (cost tour)) city c]).
Proof.
  intros Hwf Hn.
  destruct (Push_ok n tour city c stack top size fs Hwf Hn) as (p' & size' & Hrun & Hwf').
  destruct (Push_size _ _ _ _ _ _ _ _ _ _ Hrun) as [_ ->]. by exists p'.
Qed.

Lemma Push_appends_witness :
  exists stack',
    Push 2 (Tour [0; 1; NO_CITY] 2 5) 1 7 (Some [Some (Elt (Tour [0; NO_CITY] 1 0) 1 5)]) 1 1
    = Some (stack', 2, 2).
Proof.
  destruct (Push_appends_a_copy_and_doubles_a_full_array 2 (Tour [0; 1; NO_CITY] 2 5) 1 7
              (Some [Some (Elt (Tour [0; NO_CITY] 1 0) 1 5)]) 1 1
              [Elt (Tour [0; NO_CITY] 1 0) 1 5])
    as (stack' & Hrun & _).
  - split.
    + eexists. split; [reflexivity|]. split; [reflexivity|].
      intros [|i] f; cbn; intros [= <-]; reflexivity.
    + eexists. split; [reflexivity|]. split; [reflexivity|lia].
  - cbn. lia.
  - exists stack'. exact Hrun.
Defined.

(** X8: [Pop] after [Push] returns what was pushed, the copy of the tour,
    the city and the cost, and leaves the stack with the elements and the
    top that it had before the [Push]. *)
Theorem Pop_returns_what_Push_has_put
    (n : Z) (tour : tour_t) (city c : Z)
    (stack : option (list (option stack_elt_t))) (top size : Z) (fs : list stack_elt_t) :
  stack_wf stack top size fs ->
  n <= Z.of_nat (length (cities tour)) ->
  exists stack1 size1 stack2,
    Push n tour city c stack top size = Some (stack1, top + 1, size1) /\
    Pop stack1 (top + 1)
    = Some (Tour (take (Z.to_nat n) (cities tour)) (count tour) (cost tour), city, c,
            stack2, top) /\
    stack_wf stack2 top size1 fs.
Proof.
  intros Hwf Hn.
  destruct (Push_ok n tour city c stack top size fs Hwf Hn) as (p' & size' & Hrun & Hwf').
  destruct (Pop_ok _ _ _ _ _ Hwf') as (p2 & HPop & Hwf2).
  rewrite Z.add_simpl_r in HPop, Hwf2. by exists p', size', p2.
Qed.

Lemma Pop_returns_what_Push_has_put_witness :
  exists stack1 size1 stack2,
    Push 2 (Tour [0; 1; NO_CITY] 2 5) 1 7 (Some [None; None]) 0 2 = Some (stack1, 1, size1) /\
    Pop stack1 1 = Some (Tour [0; 1] 2 5, 1, 7, stack2, 0).
Proof.
  destruct (Pop_returns_what_Push_has_put 2 (Tour [0; 1; NO_CITY] 2 5) 1 7
              (Some [None; None]) 0 2 [])
    as (stack1 & size1 & stack2 & Hpush & Hpop & _).
  - split.
    + eexists. split; [reflexivity|]. split; [reflexivity|]. intros i f; cbn; discriminate.
    + eexists. split; [reflexivity|]. split; [reflexivity|lia].
  - cbn. lia.
  - exists stack1, size1, stack2. split; [exact Hpush | exact Hpop].
Defined.

(** X9: [Pop] is defined exactly when the stack is not null, [top] is from 1
    to the length of the array and the cell below [top] holds an element;
    it returns the tour, the city and the cost of this element, frees the
    cell and takes one from [top].  It does not look whether the stack is
    empty: with [top <= 0] it reads outside of the array. *)
Theorem Pop_defined_iff_an_element_below_top
    (stack : option (list (option stack_elt_t))) (top : Z)
    (r : tour_t * Z * Z * option (list (option stack_elt_t)) * Z) :
  Pop stack top = Some r <->
  exists a e,
    stack = Some a /\ 1 <= top <= Z.of_nat (length a) /\
    a !! Z.to_nat (top - 1) = Some (Some e) /\
    r = (tour_p e, elt_city e, elt_cost e, Some (<[Z.to_nat (top - 1) := None]> a), top - 1).
Proof.
  unfold Pop, ptr_get, ptr_set, arr_get, arr_set. split.
  - destruct stack as [a|]; [|done]. cbn [mbind option_bind].
    destruct (decide (0 <= top - 1)) as [H0|H0]; [|by cbn].
    destruct (a !! Z.to_nat (top - 1)) as [[e|]|] eqn:Ha; try (by cbn).
    cbn [mbind option_bind]. pose proof (lookup_lt_Some _ _ _ Ha).
    rewrite decide_True by lia. cbn [mbind option_bind]. intros [= <-].
    exists a, e. split; [done|]. split; [lia|]. done.
  - intros (a & e & -> & Htop & Ha & ->). cbn [mbind option_bind].
    rewrite decide_True by lia. rewrite Ha. cbn [mbind option_bind].
    rewrite decide_True by lia. done.
Qed.

(** X10: [Dup_tour] is defined exactly when the tour has [n] cities to read.
    The copy holds the first [n] cities, the count and the cost of the tour,
    and, for a tour of at most [n] cities, [Visited] finds in the copy what
    it finds in the tour. *)
Theorem Dup_tour_copies_the_first_n_cities (n : Z) (tour : tour_t) :
  (Dup_tour n tour <> None <-> n <= Z.of_nat (length (cities tour))) /\
  forall d, Dup_tour n tour = Some d ->
    cities d = take (Z.to_nat n) (cities tour) /\
    count d = count tour /\ cost d = cost tour /\
    (count tour <= n -> forall nbr, Visited nbr d = Visited nbr tour).
Proof.
  assert (Dup_tour n tour <> None -> n <= Z.of_nat (length (cities tour))) as Hlen.
  { unfold Dup_tour. intros Hd.
    destruct (for_loop _ _ _ _ _ _) as [cs|] eqn:Hloop; [|done].
    destruct (decide (n <= 0)) as [|Hpos]; [lia|].
    destruct (for_loop_Some_body _ _ _ _ _ _ Hloop (n - 1)) as (sj & Hsj); [lia|].
    unfold arr_get in Hsj. rewrite decide_True in Hsj by lia.
    destruct (cities tour !! Z.to_nat (n - 1)) as [c|] eqn:Hc; [|by destruct Hsj].
    apply lookup_lt_Some in Hc. lia. }
  split.
  - split; [done|]. intros Hn. by rewrite Dup_tour_eq.
  - intros d Hd. assert (n <= Z.of_nat (length (cities tour))) as Hn
      by (apply Hlen; by rewrite Hd).
    rewrite Dup_tour_eq in Hd by done. injection Hd as <-. cbn [cities count cost].
    split; [done|]. split; [done|]. split; [done|]. intros Hc nbr.
    rewrite !Visited_eq; cbn [cities count]; rewrite ?length_take; try lia.
    by rewrite take_take, Nat.min_l by lia.
Qed.

(** X11: [Split_stack] on a stack with less than two elements gives nothing
    away: the array of the stack stays as it is and the new stack has no
    element ([new_stack_top = 0]); but the top of the stack is 1 after the
    call, also when the stack was empty.  ([Terminated] calls the function
    with two elements at least.) *)
Theorem Split_stack_below_two_elements
    (stack : option (list (option stack_elt_t))) (top : Z) (g : globals) :
  0 <= top <= 1 ->
  Split_stack stack top g
  = Some (stack, 1,
          {| best_tour := best_tour g;
             threads_in_cond_wait := threads_in_cond_wait g;
             new_stack := Some (replicate (Z.to_nat top) None);
             new_stack_size := top;
             new_stack_top := 0 |}).
Proof.
  intros Htop. assert (top = 0 \/ top = 1) as [-> | ->] by lia; reflexivity.
Qed.

Lemma Split_stack_below_two_elements_witness :
  exists g', Split_stack None 0 (Globals (Tour [] 0 INFINITY) 1 None 0 0) = Some (None, 1, g').
Proof.
  eexists. apply (Split_stack_below_two_elements None 0). lia.
Defined.

(** ** The steps of the threads *)

(** The matrix [mat3] and the schedule [sched3] fit the assumptions. *)
Lemma mat3_range w : w ∈ mat3 -> 0 <= w <= 10.
Proof.
  intros Hw. unfold mat3 in Hw.
  repeat (apply elem_of_cons in Hw as [->|Hw]; [lia|]). by apply elem_of_nil in Hw.
Qed.

Lemma sched3_no_spurious k : Forall no_spurious (take k sched3).
Proof.
  apply Forall_take. unfold sched3.
  repeat (apply Forall_cons; split; [intros u; discriminate|]). apply Forall_nil_2.
Qed.

Ltac mat3_hyp :=
  first [ lia | reflexivity | exact mat3_range | apply sched3_no_spurious
        | (vm_compute; discriminate) | (intros; reflexivity) ].

Ltac concrete_valid_frame :=
  unfold valid_frame, frame_path; cbn;
  split; [lia|]; split; [lia|]; split; [reflexivity|];
  split; [apply (bool_decide_unpack _); by vm_compute|];
  split; [|reflexivity];
  let x := fresh "x" in let Hx := fresh "Hx" in
  intros x Hx; repeat (apply elem_of_cons in Hx as [->|Hx]; [lia|]); by apply elem_of_nil in Hx.

(** X12: the search and the termination protocol write apart.  A turn of the
    loop of [Search] (a step from [InBody]) leaves the count of the idle
    threads, the mailbox and the other threads as they are; every other
    step, that is all of [Fill_stack], [Terminated] and [Split_stack],
    leaves the best tour as it is. *)
Theorem Search_body_and_Terminated_write_apart
    (n : Z) (mat : list Z) (thread_count : Z) (garbage : Z -> Z)
    (a : action) (s s' : state) :
  step n mat thread_count garbage a s = Ok s' ->
  exists t thr,
    threads s !! t = Some thr /\
    (a = TrylockFails t \/ a = SpuriousWakeup t \/ exists w, a = Step t w) /\
    (pc thr = InBody ->
       threads_in_cond_wait (glob s') = threads_in_cond_wait (glob s) /\
       new_stack (glob s') = new_stack (glob s) /\
       new_stack_top (glob s') = new_stack_top (glob s) /\
       new_stack_size (glob s') = new_stack_size (glob s) /\
       forall u, u <> t -> threads s' !! u = threads s !! u) /\
    (pc thr <> InBody -> best_tour (glob s') = best_tour (glob s)).
Proof.
  intros (t & thr & thr' & g' & m & Ht & H & ths' & Hw & ->)%step_inv.
  exists t, thr. split; [done|]. cbn [glob threads].
  split; [destruct H; eauto 10|]. split.
  - intros Hpc.
    destruct H as [? ? Hp|? Hp|? Hp|? Hp|? Hp|? ? ? ? ? Hp|? Hp|? Hp|? Hp|? Hp
                  |thr1 g1 _ _ Hbody|? Hp]; try congruence.
    cbn in Hw. injection Hw as <-.
    assert (forall u, u <> t -> <[t := thr1]> (threads s) !! u = threads s !! u) as Hoth
      by (intros u Hu; by rewrite list_lookup_insert_ne).
    apply Search_body_cases in Hbody as [_ [[-> _]|(_ & _ & -> & -> & -> & ->)]]; done.
  - intros Hpc.
    destruct (thread_step_local_best _ _ _ _ _ _ _ _ _ _ _ H)
      as [(_ & _ & ->)|[(_ & _ & ->)|(? & _)]]; done.
Qed.

Lemma Search_body_and_Terminated_write_apart_witness :
  exists s0 s',
    initial_state 3 2 = Some s0 /\
    step 3 mat3 2 (fun _ => 0) (Step 0 0) s0 = Ok s' /\
    best_tour (glob s') = best_tour (glob s0).
Proof.
  destruct (initial_state 3 2) as [s0|] eqn:H0; [|vm_compute in H0; discriminate].
  destruct (step 3 mat3 2 (fun _ => 0) (Step 0 0) s0) as [s'| |] eqn:Hstep.
  2,3: injection H0 as <-; vm_compute in Hstep; discriminate.
  exists s0, s'. split; [reflexivity|]. split; [exact Hstep|].
  destruct (Search_body_and_Terminated_write_apart _ _ _ _ _ _ _ Hstep)
    as (t & thr & Ht & Ha & _ & Hnb).
  apply Hnb. destruct Ha as [Ha|[Ha|[w Ha]]]; try discriminate Ha.
  injection Ha as <- _. injection H0 as <-. vm_compute in Ht. injection Ht as <-.
  discriminate.
Defined.

(** X13: the elements of the stacks are partial tours.  In every state that
    a run without spurious wakeups reaches on a valid input, with the cost
    fields of [Fill_stack] at 0, each element on the stack of a thread that
    has started and each element in the mailbox holds a partial tour (from 1
    to [n - 1] cities, the first of them city 0) and a next city such that no
    city comes twice, the cities are from 0 to [n - 1], and the two costs of
    the element add up to the sum of the weights along the path; and the top
    of a stack is between 0 and, for a thread that is not idle, the size of
    the array. *)
Theorem stacks_hold_partial_tours
    (n : Z) (mat : list Z) (B : Z) (thread_count : Z) (garbage : Z -> Z)
    (sched : list action) (s0 s : state) :
  2 <= n ->
  Z.of_nat (length mat) = n * n ->
  (forall w, w ∈ mat -> 0 <= w <= B) ->
  n * B <= INT_MAX ->
  1 <= thread_count < n ->
  (forall i, garbage i = 0) ->
  initial_state n thread_count = Some s0 ->
  Forall no_spurious sched ->
  run n mat thread_count garbage sched s0 = Ok s ->
  (forall t thr e,
     threads s !! t = Some thr -> pc thr <> AtStart ->
     e ∈ frames_of (stack thr) (top thr) -> valid_frame n mat e) /\
  (forall e,
     e ∈ frames_of (new_stack (glob s)) (new_stack_top (glob s)) -> valid_frame n mat e) /\
  (forall t thr,
     threads s !! t = Some thr -> pc thr <> AtStart ->
     0 <= top thr /\
     (pc thr = AtTerminated \/ pc thr = AtTrylock \/ pc thr = InBody ->
      top thr <= size thr)).
Proof.
  intros Hn Hlen Hrange Hfits Htc Hg H0 Hns Hrun.
  pose (Build_valid_matrix n mat B Hn Hlen Hrange Hfits) as Hvalid.
  assert (valid_threads n thread_count) as Hthreads by exact Htc.
  pose proof (inv_initial n mat B thread_count garbage s0 H0) as Hinv0.
  pose proof (inv_run n mat B thread_count garbage Hg sched s0 s Hns Hinv0 Hrun) as Hinv.
  split; [|split].
  - intros t thr e Ht Hpc He.
    pose proof (inv_threads _ _ _ _ _ Hinv t thr Ht) as Hok. unfold thread_ok in Hok.
    destruct (pc thr); try done;
      try (rewrite Hok, frames_of_0 in He; by apply elem_of_nil in He);
      [destruct Hok as [_ Hval] | destruct Hok as [[_ Hval] _] | destruct Hok as [[_ Hval] _]];
      by apply (proj1 (Forall_forall _ _) Hval).
  - intros e He. destruct (inv_idle _ _ _ _ _ Hinv) as [_ HNS].
    destruct (new_stack (glob s)) as [a|] eqn:ENS; [|by apply elem_of_nil in He].
    destruct HNS as (_ & _ & [_ Hval] & _).
    by apply (proj1 (Forall_forall _ _) Hval).
  - intros t thr Ht Hpc.
    pose proof (inv_threads _ _ _ _ _ Hinv t thr Ht) as Hok. unfold thread_ok in Hok.
    destruct (pc thr); try done; try (split; [lia|]; intros [?|[?|?]]; done);
      [destruct Hok as [Hwf _] | destruct Hok as [[Hwf _] _] | destruct Hok as [[Hwf _] _]];
      destruct (stack_wf_top _ _ _ _ Hwf); (split; [lia|]; intros _; lia).
Qed.

Lemma stacks_hold_partial_tours_witness :
  exists s0 s,
    initial_state 3 2 = Some s0 /\
    run 3 mat3 2 (fun _ => 0) (take 4 sched3) s0 = Ok s /\
    forall t thr e,
      threads s !! t = Some thr -> pc thr <> AtStart ->
      e ∈ frames_of (stack thr) (top thr) -> valid_frame 3 mat3 e.
Proof.
  destruct (initial_state 3 2) as [s0|] eqn:H0; [|vm_compute in H0; discriminate].
  destruct (run 3 mat3 2 (fun _ => 0) (take 4 sched3) s0) as [s| |] eqn:Hrun.
  2,3: injection H0 as <-; vm_compute in Hrun; discriminate.
  exists s0, s. split; [reflexivity|]. split; [exact Hrun|].
  refine (proj1 (stacks_hold_partial_tours 3 mat3 10 2 (fun _ => 0) (take 4 sched3) s0 s
                   _ _ _ _ _ _ H0 _ Hrun)); mat3_hyp.
Defined.

(** X14: at every time the best tour is a tour.  In every state that a run
    without spurious wakeups reaches on a valid input, with the cost fields
    of [Fill_stack] at 0, the best tour is what [main] has made of it (no
    city, the cost [INFINITY]) or it holds city 0, the cities [1 .. n-1] once
    each in some order and city 0 again, with the count [n + 1] and, as its
    cost, the sum of the weights along it, which is below [INFINITY]. *)
Theorem best_tour_is_a_tour_at_every_time
    (n : Z) (mat : list Z) (B : Z) (thread_count : Z) (garbage : Z -> Z)
    (sched : list action) (s0 s : state) :
  2 <= n ->
  Z.of_nat (length mat) = n * n ->
  (forall w, w ∈ mat -> 0 <= w <= B) ->
  n * B <= INT_MAX ->
  1 <= thread_count < n ->
  (forall i, garbage i = 0) ->
  initial_state n thread_count = Some s0 ->
  Forall no_spurious sched ->
  run n mat thread_count garbage sched s0 = Ok s ->
  best_tour (glob s) = Tour (replicate (Z.to_nat (n + 1)) NO_CITY) 0 INFINITY \/
  exists p, is_tour n p /\ tour_cost n mat p < INFINITY /\
            best_tour (glob s) = Tour (0 :: p ++ [0]) (n + 1) (tour_cost n mat p).
Proof.
  intros Hn Hlen Hrange Hfits Htc Hg H0 Hns Hrun.
  pose (Build_valid_matrix n mat B Hn Hlen Hrange Hfits) as Hvalid.
  assert (valid_threads n thread_count) as Hthreads by exact Htc.
  pose proof (inv_initial n mat B thread_count garbage s0 H0) as Hinv0.
  pose proof (inv_run n mat B thread_count garbage Hg sched s0 s Hns Hinv0 Hrun) as Hinv.
  apply (inv_best _ _ _ _ _ Hinv).
Qed.

Lemma best_tour_is_a_tour_witness :
  exists s0 s,
    initial_state 3 2 = Some s0 /\
    run 3 mat3 2 (fun _ => 0) (take 5 sched3) s0 = Ok s /\
    (best_tour (glob s) = Tour (replicate (Z.to_nat (3 + 1)) NO_CITY) 0 INFINITY \/
     exists p, is_tour 3 p /\ tour_cost 3 mat3 p < INFINITY /\
               best_tour (glob s) = Tour (0 :: p ++ [0]) (3 + 1) (tour_cost 3 mat3 p)).
Proof.
  destruct (initial_state 3 2) as [s0|] eqn:H0; [|vm_compute in H0; discriminate].
  destruct (run 3 mat3 2 (fun _ => 0) (take 5 sched3) s0) as [s| |] eqn:Hrun.
  2,3: injection H0 as <-; vm_compute in Hrun; discriminate.
  exists s0, s. split; [reflexivity|]. split; [exact Hrun|].
  refine (best_tour_is_a_tour_at_every_time 3 mat3 10 2 (fun _ => 0) (take 5 sched3) s0 s
            _ _ _ _ _ _ H0 _ Hrun); mat3_hyp.
Defined.

(** X15: the count of the idle threads.  In every state that a run without
    spurious wakeups reaches on a valid input, with the cost fields of
    [Fill_stack] at 0: [threads_in_cond_wait] is the number of the threads
    that wait, are woken or have left, from 0 to [thread_count]; while a
    stack is in the mailbox, it has an element and fits its array, one
    thread has been woken to take it and no thread has left; and when the
    count is [thread_count] with an empty mailbox, no thread is left
    waiting. *)
Theorem threads_in_cond_wait_counts_the_idle_threads
    (n : Z) (mat : list Z) (B : Z) (thread_count : Z) (garbage : Z -> Z)
    (sched : list action) (s0 s : state) :
  2 <= n ->
  Z.of_nat (length mat) = n * n ->
  (forall w, w ∈ mat -> 0 <= w <= B) ->
  n * B <= INT_MAX ->
  1 <= thread_count < n ->
  (forall i, garbage i = 0) ->
  initial_state n thread_count = Some s0 ->
  Forall no_spurious sched ->
  run n mat thread_count garbage sched s0 = Ok s ->
  threads_in_cond_wait (glob s)
  = cnt InCondWait (threads s) + cnt Woken (threads s) + cnt Exited (threads s) /\
  0 <= threads_in_cond_wait (glob s) <= thread_count /\
  (new_stack (glob s) <> None ->
   cnt Woken (threads s) = 1 /\ cnt Exited (threads s) = 0 /\
   1 <= new_stack_top (glob s) <= new_stack_size (glob s)) /\
  (new_stack (glob s) = None -> threads_in_cond_wait (glob s) = thread_count ->
   cnt InCondWait (threads s) = 0).
Proof.
  intros Hn Hlen Hrange Hfits Htc Hg H0 Hns Hrun.
  pose (Build_valid_matrix n mat B Hn Hlen Hrange Hfits) as Hvalid.
  assert (valid_threads n thread_count) as Hthreads by exact Htc.
  pose proof (inv_initial n mat B thread_count garbage s0 H0) as Hinv0.
  pose proof (inv_run n mat B thread_count garbage Hg sched s0 s Hns Hinv0 Hrun) as Hinv.
  destruct (inv_idle _ _ _ _ _ Hinv) as [HW HNS].
  pose proof (idle_count_le (threads s)) as Hle. rewrite (inv_length _ _ _ _ _ Hinv) in Hle.
  pose proof (cnt_nonneg InCondWait (threads s)). pose proof (cnt_nonneg Woken (threads s)).
  pose proof (cnt_nonneg Exited (threads s)).
  split; [done|]. split; [lia|].
  destruct (new_stack (glob s)) as [a|] eqn:ENS.
  - split; [|done]. intros _. destruct HNS as (? & ? & [Hwf _] & ?).
    destruct (stack_wf_top _ _ _ _ Hwf). lia.
  - split; [done|]. intros _ HWt. destruct HNS as [(_ & _ & ?)|[? _]]; [lia|done].
Qed.

Lemma threads_in_cond_wait_counts_witness :
  exists s0 s,
    initial_state 3 2 = Some s0 /\
    run 3 mat3 2 (fun _ => 0) (take 6 sched3) s0 = Ok s /\
    threads_in_cond_wait (glob s)
    = cnt InCondWait (threads s) + cnt Woken (threads s) + cnt Exited (threads s).
Proof.
  destruct (initial_state 3 2) as [s0|] eqn:H0; [|vm_compute in H0; discriminate].
  destruct (run 3 mat3 2 (fun _ => 0) (take 6 sched3) s0) as [s| |] eqn:Hrun.
  2,3: injection H0 as <-; vm_compute in Hrun; discriminate.
  exists s0, s. split; [reflexivity|]. split; [exact Hrun|].
  refine (proj1 (threads_in_cond_wait_counts_the_idle_threads 3 mat3 10 2 (fun _ => 0)
                   (take 6 sched3) s0 s _ _ _ _ _ _ H0 _ Hrun)); mat3_hyp.
Defined.

(** X16: [Terminated] after [pthread_cond_wait] does not look whether there
    is a stack to take.  Whenever a thread has come out of
    [pthread_cond_wait] while [threads_in_cond_wait] is below
    [thread_count] and [new_stack] is null, its next step returns 0 from
    [Terminated] with the null pointer as the stack of the thread, and takes
    one from [threads_in_cond_wait]; the step after that, the [Pop], is
    undefined. *)
Theorem Terminated_after_wait_takes_a_null_stack
    (n : Z) (mat : list Z) (thread_count : Z) (garbage : Z -> Z)
    (s : state) (t w w' : nat) (thr : thread_t) :
  threads s !! t = Some thr ->
  pc thr = Woken ->
  threads_in_cond_wait (glob s) < thread_count ->
  new_stack (glob s) = None ->
  exists s',
    step n mat thread_count garbage (Step t w) s = Ok s' /\
    threads s' !! t
    = Some (Thread InBody None (new_stack_top (glob s)) (new_stack_size (glob s))
              (local_best thr)) /\
    threads_in_cond_wait (glob s') = threads_in_cond_wait (glob s) - 1 /\
    step n mat thread_count garbage (Step t w') s' = Undefined.
Proof.
  intros Ht Hpc HW HN. eexists. split; [|split; [|split]].
  - cbn [step]. rewrite Ht. unfold step_thread. rewrite Hpc. unfold Terminated_awakened.
    rewrite bool_decide_eq_true_2 by done. cbn [orb]. rewrite HN. reflexivity.
  - cbn [threads]. by eapply thread_lookup_insert.
  - done.
  - cbn [step threads]. erewrite thread_lookup_insert by done.
    unfold step_thread. cbn [pc]. reflexivity.
Qed.

Lemma Terminated_after_wait_witness :
  exists s0 s s',
    initial_state 3 2 = Some s0 /\
    run 3 mat3 2 (fun _ => 0) (take 7 sched_spurious) s0 = Ok s /\
    step 3 mat3 2 (fun _ => 0) (Step 1 0) s = Ok s' /\
    step 3 mat3 2 (fun _ => 0) (Step 1 0) s' = Undefined.
Proof.
  destruct (initial_state 3 2) as [s0|] eqn:H0; [|vm_compute in H0; discriminate].
  destruct (run 3 mat3 2 (fun _ => 0) (take 7 sched_spurious) s0) as [s| |] eqn:Hrun.
  2,3: injection H0 as <-; vm_compute in Hrun; discriminate.
  destruct (threads s !! 1%nat) as [thr|] eqn:Ht.
  2: injection H0 as <-; vm_compute in Hrun; injection Hrun as <-; discriminate Ht.
  destruct (Terminated_after_wait_takes_a_null_stack 3 mat3 2 (fun _ => 0) s 1 0 0 thr Ht)
    as (s' & Hs1 & _ & _ & Hs2).
  - injection H0 as <-. vm_compute in Hrun. injection Hrun as <-. injection Ht as <-.
    reflexivity.
  - injection H0 as <-. vm_compute in Hrun. injection Hrun as <-. reflexivity.
  - injection H0 as <-. vm_compute in Hrun. injection Hrun as <-. reflexivity.
  - exists s0, s, s'. split; [reflexivity|]. split; [exact Hrun|].
    split; [exact Hs1 | exact Hs2].
Defined.

(** X17: the local best cost of a thread only goes down.  In every state that
    a run reaches from the initial state, spurious wakeups or not, a step
    leaves the local best cost of a thread that has started at most what it
    was. *)
Theorem local_best_cost_never_increases
    (n : Z) (mat : list Z) (thread_count : Z) (garbage : Z -> Z)
    (sched : list action) (s0 s s' : state) (a : action)
    (t : nat) (thr thr' : thread_t) :
  initial_state n thread_count = Some s0 ->
  run n mat thread_count garbage sched s0 = Ok s ->
  step n mat thread_count garbage a s = Ok s' ->
  threads s !! t = Some thr ->
  threads s' !! t = Some thr' ->
  pc thr <> AtStart ->
  cost (local_best thr') <= cost (local_best thr).
Proof.
  intros H0 Hrun Hstep Ht Ht' Hpc.
  pose proof (local_bounds_above_run n mat thread_count garbage sched s0 s Hrun
                (local_bounds_above_initial n thread_count s0 H0)) as [_ Hloc].
  apply step_inv in Hstep as (u & thr_u & thr_u' & g' & m & Hu & H & ths' & Hw & ->).
  apply apply_wake_others in Hw as [_ Hw]. cbn [threads] in Ht'.
  destruct (Hw t thr' Ht') as (x & Hx & Hcase).
  assert (local_best thr' = local_best x) as ->
    by (destruct Hcase as [->|[_ ->]]; done).
  apply list_lookup_insert_Some in Hx as [(Heq & <- & _)|[_ Hx]].
  - subst u. rewrite Ht in Hu. injection Hu as <-.
    destruct (thread_step_local_best _ _ _ _ _ _ _ _ _ _ _ H)
      as [(? & _)|[(_ & -> & _)|(_ & Hlt & ->)]]; [done|lia|].
    specialize (Hloc t thr Ht Hpc). lia.
  - rewrite Ht in Hx. injection Hx as <-. lia.
Qed.

Lemma local_best_cost_never_increases_witness :
  exists s0 s s' thr thr',
    initial_state 3 2 = Some s0 /\
    run 3 mat3 2 (fun _ => 0) (take 4 sched3) s0 = Ok s /\
    step 3 mat3 2 (fun _ => 0) (Step 0 0) s = Ok s' /\
    threads s !! 0%nat = Some thr /\
    threads s' !! 0%nat = Some thr' /\
    cost (local_best thr') <= cost (local_best thr).
Proof.
  destruct (initial_state 3 2) as [s0|] eqn:H0; [|vm_compute in H0; discriminate].
  destruct (run 3 mat3 2 (fun _ => 0) (take 4 sched3) s0) as [s| |] eqn:Hrun.
  2,3: injection H0 as <-; vm_compute in Hrun; discriminate.
  destruct (step 3 mat3 2 (fun _ => 0) (Step 0 0) s) as [s'| |] eqn:Hstep.
  2,3: injection H0 as <-; vm_compute in Hrun; injection Hrun as <-;
       vm_compute in Hstep; discriminate.
  destruct (threads s !! 0%nat) as [thr|] eqn:Ht.
  2: injection H0 as <-; vm_compute in Hrun; injection Hrun as <-; discriminate Ht.
  destruct (threads s' !! 0%nat) as [thr'|] eqn:Ht'.
  2: injection H0 as <-; vm_compute in Hrun; injection Hrun as <-;
     vm_compute in Hstep; injection Hstep as <-; discriminate Ht'.
  exists s0, s, s', thr, thr'. split; [reflexivity|]. split; [exact Hrun|].
  split; [exact Hstep|]. split; [exact Ht|]. split; [exact Ht'|].
  apply (local_best_cost_never_increases 3 mat3 2 (fun _ => 0) (take 4 sched3) s0 s s'
           (Step 0 0) 0%nat thr thr' H0 Hrun Hstep Ht Ht').
  injection H0 as <-. vm_compute in Hrun. injection Hrun as <-. injection Ht as <-.
  discriminate.
Defined.

(** X18: the half of a stack that is given away arrives.  A thread is about to
    try the mutex in [Terminated], with the elements [fs] on its stack, two
    at least, while a thread [w] waits and the mailbox is empty.  Its step
    and then the step of [w] are defined; after them the thread has the
    elements of [fs] at the even positions, in their order, [w] has left
    [Terminated] with 0 and the elements at the odd positions, in their
    order, in an array of as many cells as [fs] has elements, the mailbox is
    empty again, the count of the idle threads is one less, and the best
    tour and the local best tours are as they were. *)
Theorem donated_half_of_the_stack_arrives
    (n : Z) (mat : list Z) (thread_count : Z) (garbage : Z -> Z)
    (s : state) (t w w' : nat) (thr thr_w : thread_t) (fs : list stack_elt_t) :
  threads s !! t = Some thr ->
  pc thr = AtTrylock ->
  stack_holds (stack thr) (top thr) fs ->
  2 <= top thr ->
  threads_in_cond_wait (glob s) > 0 ->
  new_stack (glob s) = None ->
  threads s !! w = Some thr_w ->
  pc thr_w = InCondWait ->
  exists s1 s2 thr1 thr2,
    step n mat thread_count garbage (Step t w) s = Ok s1 /\
    step n mat thread_count garbage (Step w w') s1 = Ok s2 /\
    threads s2 !! t = Some thr1 /\
    pc thr1 = InBody /\ stack_holds (stack thr1) (top thr1) (evens fs) /\
    local_best thr1 = local_best thr /\
    threads s2 !! w = Some thr2 /\
    pc thr2 = InBody /\ stack_holds (stack thr2) (top thr2) (odds fs) /\
    size thr2 = top thr /\ local_best thr2 = local_best thr_w /\
    new_stack (glob s2) = None /\
    threads_in_cond_wait (glob s2) = threads_in_cond_wait (glob s) - 1 /\
    best_tour (glob s2) = best_tour (glob s).
Proof.
  intros Ht Hpc Hfs Htop HW HN Hw Hpcw.
  assert (w <> t) as Hne by (intros ->; congruence).
  destruct (Split_stack_ok _ _ (glob s) _ Hfs Htop)
    as (a & a2 & na & g1 & Hst & Hsplit & _ & Hkept & Hns & _ & Hgiven & Hnt & Hnsz
        & Hbest & HW1).
  set (thr1 := Thread InBody (Some a2) ((top thr + 1) / 2) (size thr) (local_best thr)).
  set (ths1 := <[w := set_pc Woken thr_w]> (<[t := thr1]> (threads s))).
  assert (step n mat thread_count garbage (Step t w) s = Ok (State g1 ths1)) as Hs1.
  { cbn [step]. rewrite Ht. unfold step_thread. rewrite Hpc. unfold Terminated_split.
    rewrite bool_decide_eq_true_2 by done. rewrite HN. cbn [is_null andb].
    rewrite Hsplit. cbn [mbind option_bind]. fold thr1.
    assert (<[t := thr1]> (threads s) !! w = Some thr_w) as Hw1
      by (by rewrite list_lookup_insert_ne).
    unfold cond_signal.
    rewrite (proj2 (existsb_waiting _)) by (by exists w, thr_w).
    rewrite Hw1. unfold waiting, wake, waiting. rewrite Hpcw. done. }
  assert (ths1 !! w = Some (set_pc Woken thr_w)) as Hw2.
  { unfold ths1. apply list_lookup_insert_eq. rewrite length_insert.
    by eapply lookup_lt_Some. }
  eexists _, _, thr1, _. split; [exact Hs1|]. split.
  { cbn [step threads]. rewrite Hw2. unfold step_thread. cbn [pc set_pc glob].
    unfold Terminated_awakened. rewrite Hns. cbn [is_null negb]. rewrite orb_true_r.
    cbn [local_best set_pc]. reflexivity. }
  cbn [glob threads best_tour threads_in_cond_wait new_stack].
  split.
  { rewrite list_lookup_insert_ne by done. unfold ths1.
    rewrite list_lookup_insert_ne by done. by eapply thread_lookup_insert. }
  split; [done|]. split; [done|]. split; [done|]. split.
  { apply list_lookup_insert_eq. by eapply lookup_lt_Some. }
  cbn [pc stack top size local_best].
  split; [done|]. split; [by rewrite <- Hns|]. split; [done|]. split; [done|].
  split; [done|]. split; [lia|done].
Qed.

Lemma donated_half_of_the_stack_arrives_witness :
  exists s1 s2,
    step 3 mat3 2 (fun _ => 0) (Step 0 1)
      (State (Globals (Tour [NO_CITY; NO_CITY; NO_CITY; NO_CITY] 0 INFINITY) 1 None 0 0)
         [Thread AtTrylock
            (Some [Some (Elt (Tour [0; NO_CITY; NO_CITY; NO_CITY] 1 0) 1 1);
                   Some (Elt (Tour [0; NO_CITY; NO_CITY; NO_CITY] 1 0) 2 10)])
            2 2 (Tour [] 0 INFINITY);
          Thread InCondWait None 0 0 (Tour [] 0 INFINITY)])
    = Ok s1 /\
    step 3 mat3 2 (fun _ => 0) (Step 1 0) s1 = Ok s2.
Proof.
  destruct (donated_half_of_the_stack_arrives 3 mat3 2 (fun _ => 0)
              (State (Globals (Tour [NO_CITY; NO_CITY; NO_CITY; NO_CITY] 0 INFINITY) 1 None 0 0)
                 [Thread AtTrylock
                    (Some [Some (Elt (Tour [0; NO_CITY; NO_CITY; NO_CITY] 1 0) 1 1);
                           Some (Elt (Tour [0; NO_CITY; NO_CITY; NO_CITY] 1 0) 2 10)])
                    2 2 (Tour [] 0 INFINITY);
                  Thread InCondWait None 0 0 (Tour [] 0 INFINITY)])
              0 1 0
              (Thread AtTrylock
                 (Some [Some (Elt (Tour [0; NO_CITY; NO_CITY; NO_CITY] 1 0) 1 1);
                        Some (Elt (Tour [0; NO_CITY; NO_CITY; NO_CITY] 1 0) 2 10)])
                 2 2 (Tour [] 0 INFINITY))
              (Thread InCondWait None 0 0 (Tour [] 0 INFINITY))
              [Elt (Tour [0; NO_CITY; NO_CITY; NO_CITY] 1 0) 1 1;
               Elt (Tour [0; NO_CITY; NO_CITY; NO_CITY] 1 0) 2 10])
    as (s1 & s2 & thr1 & thr2 & Hs1 & Hs2 & _); try reflexivity.
  - eexists. split; [reflexivity|]. split; [reflexivity|].
    intros [|[|i]] f; cbn; intros [= <-]; reflexivity.
  - exists s1, s2. split; [exact Hs1 | exact Hs2].
Defined.

(** ** A turn of the loop of [Search] *)

(** X19: a turn of the loop of [Search] on an element that does not complete
    a tour.  The element [e] on top of the stack is popped and its city put
    at the end of its tour; for the cities [n - 1] down to 1, a copy of the
    tour is pushed with each city that is not on the path and by which the
    cost of the path stays below the local best cost.  So the stack holds
    the elements that were below [e] and, above them, the [children] of [e],
    the one with the least city on top; the globals and the local best tour
    are unchanged. *)
Theorem Search_body_pushes_the_feasible_cities
    (n : Z) (mat : list Z) (B : Z) (thr : thread_t) (g : globals)
    (fs : list stack_elt_t) (e : stack_elt_t) :
  2 <= n ->
  Z.of_nat (length mat) = n * n ->
  (forall w, w ∈ mat -> 0 <= w <= B) ->
  n * B <= INT_MAX ->
  stack_wf (stack thr) (top thr) (size thr) (fs ++ [e]) ->
  valid_frame n mat e ->
  count (tour_p e) + 1 < n ->
  exists stack' top' size',
    Search_body n mat thr g
    = Some (Thread AtTerminated stack' top' size' (local_best thr), g) /\
    stack_wf stack' top' size' (fs ++ children n mat e (cost (local_best thr))) /\
    children n mat e (cost (local_best thr))
    = child n mat e
        <$> filter (fun nbr => (nbr ∉ frame_path e) /\
                      path_cost n mat (frame_path e) + edge n mat (elt_city e) nbr
                      < cost (local_best thr))
              (reverse (seqZ 1 (n - 1))).
Proof.
  intros Hn Hlen Hrange Hfits Hwf He Hc.
  pose (Build_valid_matrix n mat B Hn Hlen Hrange Hfits) as Hvalid.
  destruct (Search_body_expand n mat B thr g fs e Hwf He Hc)
    as (stack' & top' & size' & Hrun & Hwf').
  exists stack', top', size'. split; [done|]. split; [done|].
  unfold children, children_above. by rewrite Z.add_0_l, Z.sub_0_r.
Qed.

Lemma Search_body_pushes_witness :
  exists r,
    Search_body 3 mat3
      (Thread InBody (Some [Some (Elt (Tour [0; NO_CITY; NO_CITY; NO_CITY] 1 0) 1 1); None])
         1 2 (Tour [] 0 INFINITY))
      (Globals (Tour [NO_CITY; NO_CITY; NO_CITY; NO_CITY] 0 INFINITY) 0 None 0 0)
    = Some r.
Proof.
  destruct (Search_body_pushes_the_feasible_cities 3 mat3 10
              (Thread InBody
                 (Some [Some (Elt (Tour [0; NO_CITY; NO_CITY; NO_CITY] 1 0) 1 1); None])
                 1 2 (Tour [] 0 INFINITY))
              (Globals (Tour [NO_CITY; NO_CITY; NO_CITY; NO_CITY] 0 INFINITY) 0 None 0 0)
              [] (Elt (Tour [0; NO_CITY; NO_CITY; NO_CITY] 1 0) 1 1))
    as (stack' & top' & size' & Hrun & _); try mat3_hyp.
  - split.
    + eexists. split; [reflexivity|]. split; [reflexivity|].
      intros [|i] f; cbn; intros [= <-]; reflexivity.
    + eexists. split; [reflexivity|]. split; [reflexivity|cbn; lia].
  - concrete_valid_frame.
  - eexists. exact Hrun.
Defined.

(** X20: a turn of the loop of [Search] on an element that completes a tour.
    The element [e] on top of the stack holds [n - 1] cities; with its own
    city they are city 0 and then the cities [1 .. n-1] once each, in an
    order [p].  The element is popped and nothing is pushed.  If the cost of
    the tour [p], back to city 0, is below the best cost, the best tour
    becomes this tour and the local best cost its cost; if not, nothing else
    changes. *)
Theorem Search_body_commits_a_cheaper_tour
    (n : Z) (mat : list Z) (B : Z) (thr : thread_t) (g : globals)
    (fs : list stack_elt_t) (e : stack_elt_t) :
  2 <= n ->
  Z.of_nat (length mat) = n * n ->
  (forall w, w ∈ mat -> 0 <= w <= B) ->
  n * B <= INT_MAX ->
  stack_wf (stack thr) (top thr) (size thr) (fs ++ [e]) ->
  valid_frame n mat e ->
  count (tour_p e) + 1 = n ->
  Z.of_nat (length (cities (best_tour g))) = n + 1 ->
  exists p stack',
    frame_path e = 0 :: p /\ is_tour n p /\
    stack_wf stack' (top thr - 1) (size thr) fs /\
    Search_body n mat thr g
    = Some (if decide (tour_cost n mat p < cost (best_tour g))
            then (Thread AtTerminated stack' (top thr - 1) (size thr)
                    (Tour (cities (local_best thr)) (count (local_best thr))
                       (tour_cost n mat p)),
                  Globals (Tour (0 :: p ++ [0]) (n + 1) (tour_cost n mat p))
                    (threads_in_cond_wait g) (new_stack g) (new_stack_size g)
                    (new_stack_top g))
            else (Thread AtTerminated stack' (top thr - 1) (size thr) (local_best thr), g)).
Proof.
  intros Hn Hlen Hrange Hfits Hwf He Hc Hb.
  pose (Build_valid_matrix n mat B Hn Hlen Hrange Hfits) as Hvalid.
  apply (Search_body_complete n mat B thr g fs e Hwf He Hc Hb).
Qed.

Lemma Search_body_commits_witness :
  exists p r,
    is_tour 3 p /\
    Search_body 3 mat3
      (Thread InBody (Some [Some (Elt (Tour [0; 1; NO_CITY] 2 1) 2 1); None])
         1 2 (Tour [] 0 INFINITY))
      (Globals (Tour [NO_CITY; NO_CITY; NO_CITY; NO_CITY] 0 INFINITY) 0 None 0 0)
    = Some r.
Proof.
  destruct (Search_body_commits_a_cheaper_tour 3 mat3 10
              (Thread InBody (Some [Some (Elt (Tour [0; 1; NO_CITY] 2 1) 2 1); None])
                 1 2 (Tour [] 0 INFINITY))
              (Globals (Tour [NO_CITY; NO_CITY; NO_CITY; NO_CITY] 0 INFINITY) 0 None 0 0)
              [] (Elt (Tour [0; 1; NO_CITY] 2 1) 2 1))
    as (p & stack' & _ & Hp & _ & Hrun); try mat3_hyp.
  - split.
    + eexists. split; [reflexivity|]. split; [reflexivity|].
      intros [|i] f; cbn; intros [= <-]; reflexivity.
    + eexists. split; [reflexivity|]. split; [reflexivity|cbn; lia].
  - concrete_valid_frame.
  - exists p. eexists. split; [exact Hp | exact Hrun].
Defined.

(** ** [main] *)

(** X21: [main] creates threads exactly when it has three arguments, the
    file can be read and the thread count, as an [int], is at least 1 and
    below the number of cities (so there are two cities at least); then it
    creates one thread for each rank from 0 to [thread_count - 1], in this
    order, and writes nothing on the error stream. *)
Theorem main_creates_one_thread_for_each_rank
    (argc : Z) (argv : list string) (read_file : string -> option (Z * list Z))
    (strtol : string -> Z) (evs : list event) (n : Z) (mat : list Z) (thread_count : Z) :
  main argc argv read_file strtol = (evs, Some (n, mat, thread_count)) <->
  argc = 3 /\
  read_file (arg argv 2) = Some (n, mat) /\
  thread_count = wrap (strtol (arg argv 1)) /\
  1 <= thread_count < n /\
  evs = Pthread_create <$> seqZ 0 thread_count.
Proof.
  unfold main. split.
  - case_decide as Hargc; [done|].
    destruct (read_file (arg argv 2)) as [[n' mat']|]; [|done].
    case_decide as Htc; [done|]. intros [= <- <- <- <-].
    split; [lia|]. split; [done|]. split; [done|]. split; [lia|done].
  - intros (-> & -> & -> & Htc & ->).
    rewrite decide_False by lia. by rewrite decide_False by lia.
Qed.

(** ** The results *)

(** [%d] *)
Definition dec (z : Z) : string := NilZero.string_of_int (Z.to_int z).

(** [Print_tour], with the strings that its calls of [printf] write. *)
Definition Print_tour (tour : tour_t) (title : string) : option (list string) :=
  out ← for_loop (Z.to_nat (count tour)) 0 (count tour) 1
          (fun i out => c ← arr_get (cities tour) i; Some (out ++ [(dec c ++ " ")%string]))
          [(title ++ ":" ++ newline)%string];
  Some (out ++ [(newline ++ newline)%string]).

(** [main] after the threads have been joined: what it writes, and the value
    that it returns. *)
Definition main_end (g : globals) : option (list string * Z) :=
  out ← Print_tour (best_tour g) "Best tour";
  Some (out ++ [("Cost = " ++ dec (cost (best_tour g)) ++ newline)%string], 0).

Lemma Print_tour_eq tour title :
  count tour <= Z.of_nat (length (cities tour)) ->
  Print_tour tour title
  = Some ([(title ++ ":" ++ newline)%string]
          ++ ((fun c => (dec c ++ " ")%string) <$> take (Z.to_nat (count tour)) (cities tour))
          ++ [(newline ++ newline)%string]).
Proof.
  intros Hlen. unfold Print_tour.
  match goal with
  | |- for_loop ?fu ?lo ?hi ?st ?body ?init ≫= _ = _ =>
      destruct (for_loop_inv
        (fun (i : Z) (out : list string) =>
           0 <= i /\ (i <= count tour \/ i = 0) /\
           out = [(title ++ ":" ++ newline)%string]
                 ++ ((fun c => (dec c ++ " ")%string) <$> take (Z.to_nat i) (cities tour)))
        fu lo hi st body init) as (i' & out & -> & (Hi0 & Hi & ->) & Hi1 & Hi2)
  end.
  - lia.
  - lia.
  - split; [lia|]. split; [lia|]. done.
  - intros j out Hj (_ & _ & ->). unfold arr_get. rewrite decide_True by lia.
    destruct (lookup_lt_is_Some_2 (cities tour) (Z.to_nat j)) as [c Hc]; [lia|].
    rewrite Hc. cbn [mbind option_bind]. eexists. split; [done|].
    split; [lia|]. split; [lia|].
    replace (Z.to_nat (j + 1)) with (S (Z.to_nat j)) by lia.
    rewrite (take_S_r _ _ _ Hc), fmap_app, <- app_assoc. done.
  - cbn [mbind option_bind]. rewrite <- app_assoc.
    replace (Z.to_nat i') with (Z.to_nat (count tour)) by lia. done.
Qed.

(** X22: [Print_tour] writes the title, then the first [count] cities of the
    tour in their order, each followed by a space, then two newlines; with a
    count of 0 or less it writes no city; with a count that is greater than
    the length of the array it reads outside of the array. *)
Theorem Print_tour_writes_the_first_count_cities (tour : tour_t) (title : string) :
  (count tour <= Z.of_nat (length (cities tour)) ->
   Print_tour tour title
   = Some ([(title ++ ":" ++ newline)%string]
           ++ ((fun c => (dec c ++ " ")%string) <$> take (Z.to_nat (count tour)) (cities tour))
           ++ [(newline ++ newline)%string])) /\
  (count tour <= 0 ->
   Print_tour tour title
   = Some [(title ++ ":" ++ newline)%string; (newline ++ newline)%string]) /\
  (Z.of_nat (length (cities tour)) < count tour -> Print_tour tour title = None).
Proof.
  split; [apply Print_tour_eq|]. split.
  - intros Hc. rewrite Print_tour_eq by lia.
    by replace (Z.to_nat (count tour)) with 0%nat by lia.
  - intros Hlen. unfold Print_tour.
    destruct (for_loop _ _ _ _ _ _) as [out|] eqn:Hloop; [|done]. exfalso.
    destruct (for_loop_Some_body _ _ _ _ _ _ Hloop (count tour - 1)) as (sj & Hsj); [lia|].
    unfold arr_get in Hsj. rewrite decide_True in Hsj by lia.
    destruct (cities tour !! Z.to_nat (count tour - 1)) as [c|] eqn:Hc; [|by destruct Hsj].
    apply lookup_lt_Some in Hc. lia.
Qed.

(** X23: what the program writes.  [main] has accepted the arguments, the
    matrix has [n * n] weights from 0 to [B] with [n * B] in the range of
    [int], the cost fields of [Fill_stack] hold 0 and no
    [pthread_cond_wait] returns without a signal.  After a run in which all
    the threads have left, [main] writes the title, the cities of a tour
    that no tour undercuts, from city 0 back to city 0, and the cost of this
    tour, if a tour costs less than [INFINITY]; if none does, it writes the
    title without a city, and the cost 1000000.  It returns 0. *)
Theorem main_writes_the_cheapest_tour
    (argc : Z) (argv : list string) (read_file : string -> option (Z * list Z))
    (strtol : string -> Z) (evs : list event)
    (n : Z) (mat : list Z) (B : Z) (thread_count : Z) (garbage : Z -> Z)
    (sched : list action) (s0 s : state) :
  main argc argv read_file strtol = (evs, Some (n, mat, thread_count)) ->
  Z.of_nat (length mat) = n * n ->
  (forall w, w ∈ mat -> 0 <= w <= B) ->
  n * B <= INT_MAX ->
  (forall i, garbage i = 0) ->
  initial_state n thread_count = Some s0 ->
  Forall no_spurious sched ->
  run n mat thread_count garbage sched s0 = Ok s ->
  all_exited s ->
  ((exists p, is_tour n p /\ tour_cost n mat p < INFINITY) ->
   exists p,
     is_tour n p /\
     (forall q, is_tour n q -> tour_cost n mat p <= tour_cost n mat q) /\
     main_end (glob s)
     = Some (["Best tour:" ++ newline]%string
             ++ ((fun c => (dec c ++ " ")%string) <$> (0 :: p ++ [0]))
             ++ [(newline ++ newline)%string;
                 ("Cost = " ++ dec (tour_cost n mat p) ++ newline)%string], 0)) /\
  ((forall p, is_tour n p -> INFINITY <= tour_cost n mat p) ->
   main_end (glob s)
   = Some (["Best tour:" ++ newline; newline ++ newline;
            "Cost = 1000000" ++ newline]%string, 0)).
Proof.
  intros Hmain Hlen Hrange Hfits Hg H0 Hns Hrun Hall.
  assert (1 <= thread_count < n) as Htc.
  { unfold main in Hmain. case_decide; [done|].
    destruct (read_file (arg argv 2)) as [[n' mat']|]; [|done].
    case_decide; [done|]. injection Hmain as _ <- _ <-. lia. }
  assert (2 <= n) as Hn by lia.
  pose (Build_valid_matrix n mat B Hn Hlen Hrange Hfits) as Hvalid.
  assert (valid_threads n thread_count) as Hthreads by exact Htc.
  pose proof (inv_initial n mat B thread_count garbage s0 H0) as Hinv0.
  pose proof (inv_run n mat B thread_count garbage Hg sched s0 s Hns Hinv0 Hrun) as Hinv.
  assert (forall p, is_tour n p -> cost (best_tour (glob s)) <= tour_cost n mat p) as Hmin.
  { intros p Hp. by apply (inv_all_exited n mat B thread_count garbage). }
  unfold main_end.
  destruct (inv_best _ _ _ _ _ Hinv) as [Hb|(p & Hp & Hlt & Hb)]; rewrite Hb in *;
    cbn [cost] in Hmin.
  - split.
    + intros (p & Hp & Hlt). specialize (Hmin p Hp). lia.
    + intros _. rewrite Print_tour_eq by (cbn [count cities]; lia). done.
  - split.
    + intros _. exists p. split; [done|]. split; [apply Hmin|].
      pose proof (is_tour_length n mat B p Hp) as Hlp.
      rewrite Print_tour_eq; cbn [count cities cost].
      * rewrite firstn_all2 by (cbn [length]; rewrite length_app; cbn [length]; lia).
        cbn [mbind option_bind]. by rewrite <- !app_assoc.
      * cbn [length]. rewrite length_app. cbn [length]. lia.
    + intros Hinf. specialize (Hinf p Hp). lia.
Qed.

Lemma main_writes_the_cheapest_tour_witness :
  exists s0 s p,
    initial_state 3 2 = Some s0 /\
    run 3 mat3 2 (fun _ => 0) sched3 s0 = Ok s /\
    is_tour 3 p /\
    main_end (glob s)
    = Some (["Best tour:" ++ newline]%string
            ++ ((fun c => (dec c ++ " ")%string) <$> (0 :: p ++ [0]))
            ++ [(newline ++ newline)%string;
                ("Cost = " ++ dec (tour_cost 3 mat3 p) ++ newline)%string], 0).
Proof.
  destruct (initial_state 3 2) as [s0|] eqn:H0; [|vm_compute in H0; discriminate].
  destruct (run 3 mat3 2 (fun _ => 0) sched3 s0) as [s| |] eqn:Hrun.
  2,3: injection H0 as <-; vm_compute in Hrun; discriminate.
  assert (all_exited s) as Hall.
  { injection H0 as <-. vm_compute in Hrun. injection Hrun as <-.
    intros [|[|t]] thr; cbn; intros [= <-]; reflexivity. }
  destruct (proj1 (main_writes_the_cheapest_tour 3 ["tsp"; "2"; "mat.txt"]%string
                     (fun _ => Some (3, mat3)) (fun _ => 2) (Pthread_create <$> seqZ 0 2)
                     3 mat3 10 2 (fun _ => 0) sched3 s0 s
                     eq_refl eq_refl mat3_range ltac:(vm_compute; discriminate)
                     (fun _ => eq_refl) H0 (sched3_no_spurious 13) Hrun Hall))
    as (p & Hp & _ & Hout).
  - exists [1; 2]. split; [unfold is_tour; reflexivity|]. vm_compute. reflexivity.
  - exists s0, s, p. split; [reflexivity|]. split; [exact Hrun|]. split; [exact Hp|exact Hout].
Defined.

(** ** Reading the matrix *)

(** The numbers that an [int] holds. *)
Definition in_int (z : Z) : Prop := - 2 ^ 31 <= z <= INT_MAX.

#[global] Instance in_int_dec (z : Z) : Decision (in_int z).
Proof. unfold in_int. apply _. Defined.

(** [fscanf(f, "%d", &x)].  The file is given by the numbers that the
    successive calls convert; at the end of the numbers (the end of the file,
    or something that is not a number) the call fails, leaves [x] as it is,
    and so does every later call.  The conversion of a number that an [int]
    does not hold is undefined behaviour. *)
Definition fscanf_d (file : list Z) (x : Z) : option (Z * list Z) :=
  match file with
  | z :: file' => if decide (in_int z) then Some (z, file') else None
  | [] => Some (x, [])
  end.

(** [Read_mat]: the global [n] is 0 before the call; [garbage k] is what the
    cell [k] of the array holds when [malloc] returns it.  The product
    [n * n] is computed in [int]. *)
Definition Read_mat (file : list Z) (garbage : Z -> Z) : option (Z * list Z) :=
  '(n, file) ← fscanf_d file 0;
  if decide (INT_MAX < n * n) then None
  else
    '(file, mat) ←
      for_loop (Z.to_nat n) 0 n 1
        (fun i '(file, mat) =>
           for_loop (Z.to_nat n) 0 n 1
             (fun j '(file, mat) =>
                old ← arr_get mat (n * i + j);
                '(w, file) ← fscanf_d file old;
                mat ← arr_set mat (n * i + j) w;
                Some (file, mat))
             (file, mat))
        (file, garbage <$> seqZ 0 (n * n));
    Some (n, mat).

(** The cell [k] of the matrix after [k'] cells have been read. *)
Definition cell_after (file : list Z) (garbage : Z -> Z) (k' k : Z) : Z :=
  if decide (k < k') then default (garbage k) (file !! Z.to_nat k) else garbage k.

Lemma fscanf_d_drop file (k : nat) x :
  fscanf_d (drop k file) x
  = match file !! k with
    | Some z => if decide (in_int z) then Some (z, drop (S k) file) else None
    | None => Some (x, drop (S k) file)
    end.
Proof.
  destruct (file !! k) as [z|] eqn:Hk.
  - by rewrite (drop_S _ _ _ Hk).
  - apply lookup_ge_None in Hk. by rewrite !drop_ge by lia.
Qed.

Lemma Read_mat_cell file garbage (m k : Z) :
  0 <= k < m ->
  exists mat',
    arr_get (cell_after file garbage k <$> seqZ 0 m) k = Some (garbage k) /\
    arr_set (cell_after file garbage k <$> seqZ 0 m) k
      (default (garbage k) (file !! Z.to_nat k)) = Some mat' /\
    mat' = (cell_after file garbage (k + 1) <$> seqZ 0 m).
Proof.
  intros Hk. eexists. split; [|split; [|done]].
  - unfold arr_get. rewrite decide_True by lia. rewrite list_lookup_fmap.
    rewrite (proj2 (lookup_seqZ 0 m (Z.to_nat k) k)) by lia. cbn.
    unfold cell_after. by rewrite decide_False by lia.
  - unfold arr_set. rewrite decide_True by (rewrite length_fmap, length_seqZ; lia).
    f_equal. apply list_eq. intros i.
    destruct (decide (i = Z.to_nat k)) as [->|Hne].
    + rewrite list_lookup_insert_eq by (rewrite length_fmap, length_seqZ; lia).
      rewrite list_lookup_fmap, (proj2 (lookup_seqZ 0 m (Z.to_nat k) k)) by lia. cbn.
      unfold cell_after. by rewrite decide_True by lia.
    + rewrite list_lookup_insert_ne by done. rewrite !list_lookup_fmap.
      destruct (seqZ 0 m !! i) as [x|] eqn:Hx; [|done]. cbn.
      apply lookup_seqZ in Hx as [-> Hi]. unfold cell_after.
      repeat case_decide; try done; lia.
Qed.

(** A loop stops where its body is undefined. *)
Lemma for_loop_None {S : Type} (Inv : Z -> S -> Prop) fuel i hi
    (body : Z -> S -> option S) s j :
  hi - i <= Z.of_nat fuel ->
  i <= j < hi ->
  Inv i s ->
  (forall k s, i <= k < j -> Inv k s -> exists s', body k s = Some s' /\ Inv (k + 1) s') ->
  (forall s, Inv j s -> body j s = None) ->
  for_loop fuel i hi 1 body s = None.
Proof.
  revert i s. induction fuel as [|fuel IH]; intros i s Hfuel Hj HI Hbody Hfail; [lia|].
  cbn [for_loop]. rewrite decide_True by lia.
  destruct (decide (i = j)) as [->|Hne].
  - by rewrite Hfail.
  - destruct (Hbody i s) as (s' & -> & HI'); [lia|done|]. cbn [mbind option_bind].
    apply IH; [lia|lia|done| |done]. intros k s0 Hk. apply Hbody. lia.
Qed.

(** The first number that is not what it should be. *)
Lemma first_bad {A} (P : A -> Prop) `{!forall x, Decision (P x)} (l : list A) :
  ~ Forall P l ->
  exists (k : nat) x, l !! k = Some x /\ ~ P x /\ Forall P (take k l).
Proof.
  induction l as [|y l IH]; intros Hl; [by destruct Hl|].
  destruct (decide (P y)) as [Hy|Hy].
  - destruct IH as (k & x & Hk & Hx & Hbefore).
    { intros Hall. apply Hl. by apply Forall_cons. }
    exists (S k), x. split; [done|]. split; [done|]. cbn. by apply Forall_cons.
  - exists 0%nat, y. split; [done|]. split; [done|]. apply Forall_nil_2.
Qed.

Lemma Forall_take_le {A} (P : A -> Prop) (k m : nat) (l : list A) :
  (k <= m)%nat -> Forall P (take m l) -> Forall P (take k l).
Proof.
  intros Hle H. replace (take k l) with (take k (take m l))
    by (rewrite take_take; f_equal; lia).
  by apply Forall_take.
Qed.

(** One row of the matrix, when the numbers for it are in the range of
    [int]. *)
Lemma Read_mat_row n file garbage i :
  0 <= i < n ->
  Forall in_int (take (Z.to_nat (n * (i + 1))) file) ->
  for_loop (Z.to_nat n) 0 n 1
    (fun j '(file, mat) =>
       old ← arr_get mat (n * i + j);
       '(w, file) ← fscanf_d file old;
       mat ← arr_set mat (n * i + j) w;
       Some (file, mat))
    (drop (Z.to_nat (n * i)) file, cell_after file garbage (n * i) <$> seqZ 0 (n * n))
  = Some (drop (Z.to_nat (n * (i + 1))) file,
          cell_after file garbage (n * (i + 1)) <$> seqZ 0 (n * n)).
Proof.
  intros Hi Hgood.
  match goal with
  | |- for_loop ?fu ?lo ?hi ?st ?body ?init = _ =>
      destruct (for_loop_inv
        (fun (j : Z) (x : list Z * list Z) =>
           0 <= j <= n /\
           x = (drop (Z.to_nat (n * i + j)) file,
                cell_after file garbage (n * i + j) <$> seqZ 0 (n * n)))
        fu lo hi st body init) as (j' & [f1 mat1] & Hrun & (Hj & Hx) & Hj1 & Hj2)
  end.
  - lia.
  - lia.
  - split; [lia|]. by rewrite Z.add_0_r.
  - intros j [f1 mat1] Hj [_ [= -> ->]].
    destruct (Read_mat_cell file garbage (n * n) (n * i + j)) as (m' & Hget & Hset & ->);
      [nia|].
    rewrite Hget. cbn [mbind option_bind]. rewrite fscanf_d_drop.
    assert (match file !! Z.to_nat (n * i + j) with
            | Some z => if decide (in_int z)
                        then Some (z, drop (S (Z.to_nat (n * i + j))) file) else None
            | None => Some (garbage (n * i + j), drop (S (Z.to_nat (n * i + j))) file)
            end
            = Some (default (garbage (n * i + j)) (file !! Z.to_nat (n * i + j)),
                    drop (S (Z.to_nat (n * i + j))) file)) as ->.
    { destruct (file !! Z.to_nat (n * i + j)) as [z|] eqn:Hz; [|done].
      rewrite decide_True; [done|].
      apply (proj1 (Forall_lookup _ _) Hgood (Z.to_nat (n * i + j))).
      rewrite lookup_take_lt by nia. done. }
    cbn [mbind option_bind]. rewrite Hset. cbn [mbind option_bind].
    eexists. split; [done|]. split; [lia|].
    replace (Z.to_nat (n * i + (j + 1))) with (S (Z.to_nat (n * i + j))) by nia.
    by replace (n * i + (j + 1)) with (n * i + j + 1) by lia.
  - rewrite Hrun, Hx. by replace (n * i + j') with (n * (i + 1)) by lia.
Qed.

(** X24: [Read_mat] takes the first number of the file for [n] (0 if there
    is none) and, for [n >= 0] with [n * n] in the range of [int], the
    numbers that follow, row by row, for the matrix.  When the [n * n]
    numbers after the first, as far as the file has them, are in the range
    of [int], the cell [n * i + j] holds the number [n * i + j] after the
    first when the file has that many, and what [malloc] has left there
    when the file ends before; the function does not tell.  A file with all
    the [n * n] numbers gives just these, whatever [malloc] has left and
    whatever follows in the file.  When one of these numbers is not in the
    range of [int], or [n] is not, the call is undefined. *)
Theorem Read_mat_reads_the_matrix_row_by_row
    (n : Z) (file : list Z) (garbage : Z -> Z) :
  0 <= n ->
  n * n <= INT_MAX ->
  (Forall in_int (take (Z.to_nat (n * n)) file) ->
   Read_mat (n :: file) garbage
   = Some (n, (fun k => default (garbage k) (file !! Z.to_nat k)) <$> seqZ 0 (n * n)) /\
   (n * n <= Z.of_nat (length file) ->
    Read_mat (n :: file) garbage = Some (n, take (Z.to_nat (n * n)) file))) /\
  (~ Forall in_int (take (Z.to_nat (n * n)) file) -> Read_mat (n :: file) garbage = None) /\
  (forall z, ~ in_int z -> Read_mat (z :: file) garbage = None) /\
  Read_mat [] garbage = Some (0, []).
Proof.
  intros Hn Hfit.
  assert (in_int n) as Hin by (unfold in_int, INT_MAX in *; nia).
  assert (forall i, 0 <= i <= n -> 0 <= n * i <= n * n) as Hmul by (intros; nia).
  split; [|split; [|split]].
  - intros Hgood.
    assert (Read_mat (n :: file) garbage
            = Some (n, (fun k => default (garbage k) (file !! Z.to_nat k))
                         <$> seqZ 0 (n * n))) as Heq.
    { unfold Read_mat. cbn [fscanf_d]. rewrite decide_True by done.
      cbn [mbind option_bind]. rewrite decide_False by lia.
      match goal with
      | |- for_loop ?fu ?lo ?hi ?st ?body ?init ≫= _ = _ =>
          destruct (for_loop_inv
            (fun (i : Z) (x : list Z * list Z) =>
               0 <= i <= n /\
               x = (drop (Z.to_nat (n * i)) file,
                    cell_after file garbage (n * i) <$> seqZ 0 (n * n)))
            fu lo hi st body init) as (i' & [f' mat'] & -> & (Hi & Hx) & Hi1 & Hi2)
      end.
      - lia.
      - lia.
      - split; [lia|]. rewrite Z.mul_0_r. cbn [drop Z.to_nat]. f_equal.
        apply list_fmap_ext. intros i x Hx. unfold cell_after.
        apply lookup_seqZ in Hx. by rewrite decide_False by lia.
      - intros i [f0 mat0] Hi [_ [= -> ->]].
        assert (n * (i + 1) <= n * n) by nia.
        rewrite (Read_mat_row n file garbage i) by
          (first [lia | apply (Forall_take_le in_int _ (Z.to_nat (n * n))); [lia|done]]).
        eexists. split; [done|]. split; [lia|done].
      - cbn [mbind option_bind]. injection Hx as -> ->. do 2 f_equal.
        replace i' with n by lia. apply list_fmap_ext. intros i x Hx0.
        unfold cell_after. apply lookup_seqZ in Hx0. by rewrite decide_True by lia. }
    split; [done|].
    intros Hlen. rewrite Heq. do 2 f_equal. apply list_eq. intros i.
    rewrite list_lookup_fmap.
    destruct (decide (i < Z.to_nat (n * n))%nat) as [Hi|Hi].
    + rewrite lookup_take_lt by done.
      rewrite (proj2 (lookup_seqZ 0 (n * n) i (Z.of_nat i))) by lia. cbn.
      rewrite Nat2Z.id. destruct (lookup_lt_is_Some_2 file i) as [z Hz]; [lia|].
      by rewrite Hz.
    + rewrite lookup_take_ge by lia.
      by rewrite (proj2 (lookup_ge_None (seqZ 0 (n * n)) i)) by (rewrite length_seqZ; lia).
  - intros Hbad.
    destruct (first_bad in_int _ Hbad) as (kb & z & Hkb & Hz & Hbefore).
    pose proof (lookup_lt_Some _ _ _ Hkb) as Hlt. rewrite length_take in Hlt.
    rewrite lookup_take_lt in Hkb by lia.
    rewrite take_take, Nat.min_l in Hbefore by lia.
    assert (0 < n) as Hpos by nia.
    set (k := Z.of_nat kb) in *.
    assert (0 <= k < n * n) as Hk by lia.
    pose proof (Z.div_mod k n ltac:(lia)) as Hdm.
    pose proof (Z.mod_pos_bound k n Hpos) as Hmod.
    assert (0 <= k / n < n) as Hdiv
      by (split; [apply Z.div_pos; lia | apply Z.div_lt_upper_bound; lia]).
    unfold Read_mat. cbn [fscanf_d]. rewrite decide_True by done.
    cbn [mbind option_bind]. rewrite decide_False by lia.
    match goal with
    | |- for_loop ?fu ?lo ?hi ?st ?body ?init ≫= _ = _ =>
        rewrite (for_loop_None
          (fun (i : Z) (x : list Z * list Z) =>
             0 <= i <= n /\
             x = (drop (Z.to_nat (n * i)) file,
                  cell_after file garbage (n * i) <$> seqZ 0 (n * n)))
          fu lo hi body init (k / n)); [done|lia|lia| | |]
    end.
    + split; [lia|]. rewrite Z.mul_0_r. cbn [drop Z.to_nat]. f_equal.
      apply list_fmap_ext. intros i x Hx. unfold cell_after.
      apply lookup_seqZ in Hx. by rewrite decide_False by lia.
    + intros i [f0 mat0] Hi [_ [= -> ->]].
      assert (n * (i + 1) <= k) by nia.
      rewrite (Read_mat_row n file garbage i) by
        (first [lia | apply (Forall_take_le in_int _ kb); [lia|done]]).
      eexists. split; [done|]. split; [lia|done].
    + intros [f0 mat0] [_ [= -> ->]].
      apply (for_loop_None
        (fun (j : Z) (x : list Z * list Z) =>
           0 <= j <= n /\
           x = (drop (Z.to_nat (n * (k / n) + j)) file,
                cell_after file garbage (n * (k / n) + j) <$> seqZ 0 (n * n)))
        _ _ _ _ _ (k mod n)); [lia|lia| | |].
      * split; [lia|]. by rewrite Z.add_0_r.
      * intros j [f1 mat1] Hj [_ [= -> ->]].
        destruct (Read_mat_cell file garbage (n * n) (n * (k / n) + j))
          as (m' & Hget & Hset & ->); [nia|].
        rewrite Hget. cbn [mbind option_bind]. rewrite fscanf_d_drop.
        assert (match file !! Z.to_nat (n * (k / n) + j) with
                | Some z => if decide (in_int z)
                            then Some (z, drop (S (Z.to_nat (n * (k / n) + j))) file)
                            else None
                | None => Some (garbage (n * (k / n) + j),
                                drop (S (Z.to_nat (n * (k / n) + j))) file)
                end
                = Some (default (garbage (n * (k / n) + j))
                          (file !! Z.to_nat (n * (k / n) + j)),
                        drop (S (Z.to_nat (n * (k / n) + j))) file)) as ->.
        { destruct (file !! Z.to_nat (n * (k / n) + j)) as [z'|] eqn:Hz'; [|done].
          rewrite decide_True; [done|].
          apply (proj1 (Forall_lookup _ _) Hbefore (Z.to_nat (n * (k / n) + j))).
          rewrite lookup_take_lt by lia. done. }
        cbn [mbind option_bind]. rewrite Hset. cbn [mbind option_bind].
        eexists. split; [done|]. split; [lia|].
        replace (Z.to_nat (n * (k / n) + (j + 1)))
          with (S (Z.to_nat (n * (k / n) + j))) by nia.
        by replace (n * (k / n) + (j + 1)) with (n * (k / n) + j + 1) by lia.
      * intros [f1 mat1] [_ [= -> ->]].
        destruct (Read_mat_cell file garbage (n * n) (n * (k / n) + k mod n))
          as (m' & Hget & _); [lia|].
        rewrite Hget. cbn [mbind option_bind]. rewrite fscanf_d_drop.
        replace (Z.to_nat (n * (k / n) + k mod n)) with kb by lia.
        rewrite Hkb. by rewrite decide_False.
  - intros z Hz. unfold Read_mat. cbn [fscanf_d]. by rewrite decide_False.
  - reflexivity.
Qed.

Lemma Read_mat_witness :
  Read_mat [2; 0; 5; 7; 0; 99] (fun _ => 13) = Some (2, [0; 5; 7; 0]) /\
  Read_mat [2; 0; 5] (fun _ => 13) = Some (2, [0; 5; 13; 13]).
Proof.
  assert (forall l, Forall in_int l <-> bool_decide (Forall in_int l)) as Hdec
    by (intros l; symmetry; apply bool_decide_spec).
  split.
  - apply (proj1 (Read_mat_reads_the_matrix_row_by_row 2 [0; 5; 7; 0; 99]
                    (fun _ => 13) ltac:(lia) ltac:(vm_compute; discriminate))).
    + apply Hdec. by vm_compute.
    + cbn. lia.
  - apply (proj1 (Read_mat_reads_the_matrix_row_by_row 2 [0; 5] (fun _ => 13)
                    ltac:(lia) ltac:(vm_compute; discriminate))).
    apply Hdec. by vm_compute.
Defined.

(** X25: a file with less than two cities is turned down.  When [Read_mat]
    has read a file that is empty or begins with a number [n <= 1], [main]
    writes the three lines of the usage message on the error stream and
    exits with the status 0, whatever the arguments are: it writes nothing
    else and creates no thread, for no thread count is from 1 to [n - 1]. *)
Theorem main_turns_down_less_than_two_cities
    (argc : Z) (argv : list string) (read_file : string -> option (Z * list Z))
    (strtol : string -> Z) (file : list Z) (garbage : Z -> Z) (n : Z) (mat : list Z) :
  Read_mat file garbage = Some (n, mat) ->
  read_file (arg argv 2) = Some (n, mat) ->
  default 0 (head file) <= 1 ->
  n = default 0 (head file) /\
  main argc argv read_file strtol
  = ([Print_stderr ("usage: " ++ arg argv 0 ++ " <thread_count> <matrix file>" ++ newline);
      Print_stderr ("thread_count must be  greater than or equal to 1" ++ newline);
      Print_stderr ("and less than number of cities" ++ newline);
      Exit 0], None) /\
  forall rank, Pthread_create rank ∉ (main argc argv read_file strtol).1.
Proof.
  intros Hread Hfile Hsmall.
  assert (n = default 0 (head file)) as Hn.
  { unfold Read_mat in Hread. destruct file as [|z file]; cbn [fscanf_d head default] in *.
    - by injection Hread as <- _.
    - case_decide; [|done]. cbn [mbind option_bind] in Hread.
      case_decide; [done|]. destruct (for_loop _ _ _ _ _ _) as [[? ?]|]; [|done].
      by injection Hread as <- _. }
  assert (main argc argv read_file strtol = (Usage (arg argv 0), None)) as Hmain.
  { unfold main. case_decide; [done|]. rewrite Hfile.
    rewrite decide_True; [done|]. lia. }
  split; [done|]. split; [by rewrite Hmain|].
  intros rank. rewrite Hmain. cbn [fst Usage]. intros Hin.
  repeat (apply elem_of_cons in Hin as [?|Hin]; [done|]). by apply elem_of_nil in Hin.
Qed.

Lemma main_turns_down_less_than_two_cities_witness :
  main 3 ["tsp"; "1"; "mat.txt"]%string (fun _ => Some (1, [0])) (fun _ => 1)
  = (Usage "tsp", None).
Proof.
  apply (proj1 (proj2 (main_turns_down_less_than_two_cities 3 ["tsp"; "1"; "mat.txt"]%string
                         (fun _ => Some (1, [0])) (fun _ => 1) [1; 0] (fun _ => 0) 1 [0]
                         eq_refl eq_refl ltac:(cbn; lia)))).
Defined.
